(** * CNV concordance and inheritance support: a shallow embedding

    This development embeds the two interval-matching programs of the
    repository,

    - [bin/cnv_utils/cnv_concordance_checker.py] (module [Concordance]),
    - [bin/cnv_utils/cnv_trio_inheritance.py]    (module [Trio]),

    over a small model of the tabular values they manipulate (module
    [Frame]), and proves the properties stated about them. *)

From Stdlib Require Import ZArith QArith Ascii.
From stdpp Require Import base option list strings pretty gmap.

Local Open Scope string_scope.
Local Open Scope Z_scope.

(** ** Tables *)

Module Frame.

(** A cell of a table as the programs see it: an integer, a text value or a
    missing value (pandas [NaN]/[pd.NA], SQL [NULL]). *)
Inductive cell : Type :=
  | CInt (z : Z)
  | CStr (s : string)
  | CNA.

#[global] Instance cell_eq_dec : EqDecision cell.
Proof. solve_decision. Defined.

(** A data frame with the default [RangeIndex]: [nrows] index labels
    [0 .. nrows-1] and the columns in header order, each with its values in
    row order. *)
Record DataFrame : Type := mkDF {
  nrows : nat;
  data  : list (string * list cell)
}.

(** [df.columns] *)
Definition columns (df : DataFrame) : list string := (data df).*1.

(** What [pd.read_csv] hands over: every column has one value per index
    label, and the header names are pairwise distinct. *)
Definition rectangular (df : DataFrame) : Prop :=
  Forall (λ c, length c.2 = nrows df) (data df).

Definition well_formed (df : DataFrame) : Prop :=
  rectangular df ∧ NoDup (columns df).

Fixpoint lookup_col (name : string) (cs : list (string * list cell))
  : option (list cell) :=
  match cs with
  | [] => None
  | (n, v) :: cs' => if decide (n = name) then Some v else lookup_col name cs'
  end.

(** [df[name]] *)
Definition get_col (df : DataFrame) (name : string) : option (list cell) :=
  lookup_col name (data df).

(** [name in df.columns] *)
Definition has_col (df : DataFrame) (name : string) : bool :=
  bool_decide (name ∈ columns df).

(** The value in column [name] at index label [i]. *)
Definition cell_at (df : DataFrame) (name : string) (i : nat) : option cell :=
  get_col df name ≫= (.!! i).

Fixpoint assign (name : string) (v : list cell) (cs : list (string * list cell))
  : list (string * list cell) :=
  match cs with
  | [] => [(name, v)]
  | (n, w) :: cs' =>
      if decide (n = name) then (n, v) :: cs' else (n, w) :: assign name v cs'
  end.

(** [df[name] = values]: an existing column is overwritten where it stands,
    a new one is appended after the last column. *)
Definition set_col (df : DataFrame) (name : string) (v : list cell) : DataFrame :=
  mkDF (nrows df) (assign name v (data df)).

(** [df[name] = scalar] *)
Definition set_const (df : DataFrame) (name : string) (c : cell) : DataFrame :=
  set_col df name (replicate (nrows df) c).

(** The values of a column after the cells at the listed index labels have
    been overwritten with [c]. *)
Definition overwrite (labels : list Z) (c : cell) (old : list cell) : list cell :=
  imap (λ i x, if decide (Z.of_nat i ∈ labels) then c else x) old.

(** [df.loc[labels, name] = scalar] on an existing column: the cells at the
    listed index labels are overwritten. A label outside the index is a
    [KeyError]. *)
Definition loc_set (df : DataFrame) (labels : list Z) (name : string) (c : cell)
  : option DataFrame :=
  old ← get_col df name;
  guard (Forall (λ l, 0 ≤ l < Z.of_nat (nrows df)) labels);;
  Some (set_col df name (overwrite labels c old)).

(** [df.drop(columns=[name])] *)
Definition drop (df : DataFrame) (name : string) : DataFrame :=
  mkDF (nrows df) (filter (λ c, c.1 ≠ name) (data df)).

(** [series.notna().any()] *)
Definition any_notna (v : list cell) : bool :=
  existsb (λ c, bool_decide (c ≠ CNA)) v.

(** The integer a cell contributes to [series.sum()] (missing values are
    skipped). *)
Definition cell_Z (c : cell) : Z :=
  match c with CInt z => z | _ => 0 end.

(** [series.sum()] *)
Definition sum (v : list cell) : Z := foldr (λ c acc, cell_Z c + acc) 0 v.

(** SQL equality used as a join condition: [NULL] is equal to nothing, not
    even to another [NULL]. *)
Definition sql_eq (x y : cell) : bool :=
  match x, y with
  | CInt a, CInt b => bool_decide (a = b)
  | CStr a, CStr b => bool_decide (a = b)
  | _, _ => false
  end.

(** An integer (BIGINT) column value. *)
Definition as_int (c : cell) : option Z :=
  match c with CInt z => Some z | _ => None end.

Definition int_at (df : DataFrame) (name : string) (i : nat) : option Z :=
  cell_at df name i ≫= as_int.

End Frame.

(** ** The concordance checker, [cnv_concordance_checker.py] *)

Module Concordance.
Import Frame.

(** [add_row_ids]: [df["rowid"] = range(len(df))]. *)
Definition add_row_ids (df : DataFrame) : DataFrame :=
  set_col df "rowid" ((λ i, CInt (Z.of_nat i)) <$> seq 0 (nrows df)).

(** *** The overlap query *)

(** One row of a registered table, with the columns the overlap query
    reads. [SampleID], [Chr] and [Type] are only ever compared for equality
    and stay cells; [Start], [End] and [rowid] are integers. *)
Record cnv : Type := mkCnv {
  rowid    : Z;
  SampleID : cell;
  Chr      : cell;
  Start    : Z;
  End_     : Z;
  Type_    : cell
}.

Definition cnv_at (df : DataFrame) (i : nat) : option cnv :=
  id ← int_at df "rowid" i;
  s  ← cell_at df "SampleID" i;
  c  ← cell_at df "Chr" i;
  st ← int_at df "Start" i;
  en ← int_at df "End" i;
  t  ← cell_at df "Type" i;
  Some (mkCnv id s c st en t).

(** Scanning a registered frame. The query cannot be bound when one of the
    columns it names is missing, and cannot be evaluated when a coordinate
    is not an integer; both are errors of the run. *)
Definition scan (df : DataFrame) : option (list cnv) :=
  guard (Forall (λ c, c ∈ columns df)
           ["rowid"; "SampleID"; "Chr"; "Start"; "End"; "Type"]);;
  mapM (cnv_at df) (seq 0 (nrows df)).

(** One row of the common table expression [overlaps_df]. *)
Record overlap : Type := mkOverlap {
  id_a          : Z;
  id_b          : Z;
  SampleID_a    : cell;
  SampleID_b    : cell;
  Chr_a         : cell;
  overlap_start : Z;
  overlap_end   : Z;
  overlap_len   : Z;
  len_a         : Z;
  len_b         : Z
}.

(** The equalities of the [ON] clause: same chromosome, sample and type. *)
Definition same_key (a b : cnv) : bool :=
  sql_eq (Chr a) (Chr b)
  && sql_eq (SampleID a) (SampleID b)
  && sql_eq (Type_ a) (Type_ b).

(** The [ON] clause of the join. *)
Definition join_on (a b : cnv) : bool :=
  same_key a b
  && (Start b <? End_ a)
  && (Start a <? End_ b).

(** The [SELECT] list of the common table expression. *)
Definition overlap_of (a b : cnv) : overlap :=
  {| id_a := rowid a;
     id_b := rowid b;
     SampleID_a := SampleID a;
     SampleID_b := SampleID b;
     Chr_a := Chr a;
     overlap_start := Z.max (Start a) (Start b);
     overlap_end := Z.min (End_ a) (End_ b);
     overlap_len := Z.min (End_ a) (End_ b) - Z.max (Start a) (Start b);
     len_a := End_ a - Start a;
     len_b := End_ b - Start b |}.

(** [WITH overlaps_df AS (SELECT ... FROM df_a JOIN df_b ON ...)] *)
Definition overlaps_cte (ta tb : list cnv) : list overlap :=
  a ← ta; b ← tb; if join_on a b then [overlap_of a b] else [].

(** One row of the query result. *)
Record flagged : Type := mkFlagged {
  f_id_a : Z;
  f_id_b : Z;
  reciprocal_overlap_flag : Z
}.

#[global] Instance flagged_eq_dec : EqDecision flagged.
Proof. solve_decision. Defined.

(** [x >= 0.5 * y], an exact decimal comparison. *)
Definition at_least_half (x y : Z) : bool :=
  Qle_bool (0.5 * inject_Z y)%Q (inject_Z x).

(** [CAST((overlap_len >= 0.5 * len_a AND overlap_len >= 0.5 * len_b) AS INTEGER)] *)
Definition reciprocal_flag (o : overlap) : Z :=
  if at_least_half (overlap_len o) (len_a o)
     && at_least_half (overlap_len o) (len_b o)
  then 1 else 0.

(** [SELECT id_a, id_b, CAST(...) FROM overlaps_df WHERE overlap_len > 0] *)
Definition select_flags (os : list overlap) : list flagged :=
  o ← os;
  if 0 <? overlap_len o
  then [mkFlagged (id_a o) (id_b o) (reciprocal_flag o)]
  else [].

(** The [WHERE] clause, on a pair of table rows. *)
Definition candidate (a b : cnv) : Prop := 0 < overlap_len (overlap_of a b).

(** The pair is reported with [reciprocal_overlap_flag = 1]. *)
Definition qualifies (a b : cnv) : Prop := reciprocal_flag (overlap_of a b) = 1.

(** [flag_overlaps]. The order of the result rows is left to the query
    engine; the caller only uses the set of identifiers in it. *)
Definition flag_overlaps (df_a df_b : DataFrame) : option (list flagged) :=
  ta ← scan df_a;
  tb ← scan df_b;
  Some (select_flags (overlaps_cte ta tb)).

(** *** The gene query *)

(** One row of a registered table, with the columns the gene query reads. *)
Record gene_row : Type := mkGeneRow {
  g_rowid    : Z;
  g_SampleID : cell;
  g_Type     : cell;
  Gene_ID    : cell
}.

Definition gene_row_at (df : DataFrame) (i : nat) : option gene_row :=
  id ← int_at df "rowid" i;
  s  ← cell_at df "SampleID" i;
  t  ← cell_at df "Type" i;
  g  ← cell_at df "Gene_ID" i;
  Some (mkGeneRow id s t g).

Definition scan_gene (df : DataFrame) : option (list gene_row) :=
  guard (Forall (λ c, c ∈ columns df)
           ["rowid"; "SampleID"; "Type"; "Gene_ID"]);;
  mapM (gene_row_at df) (seq 0 (nrows df)).

(** The [ON] clause of the left join. *)
Definition gene_on (a b : gene_row) : bool :=
  sql_eq (g_SampleID a) (g_SampleID b)
  && sql_eq (g_Type a) (g_Type b)
  && sql_eq (Gene_ID a) (Gene_ID b).

(** One row of the gene query result. *)
Record gene_flag : Type := mkGeneFlag {
  g_id : Z;
  gene_based_overlap : Z
}.

(** The left join with its [CASE]: a row of the left table without a
    partner is kept once, with a [NULL] right side and flag 0; a row with
    partners appears once per partner, with flag 1. *)
Definition left_join_flags (ta tb : list gene_row) : list gene_flag :=
  a ← ta;
  match filter (λ b, gene_on a b = true) tb with
  | [] => [mkGeneFlag (g_rowid a) 0]
  | m => (λ _, mkGeneFlag (g_rowid a) 1) <$> m
  end.

(** [flag_gene_matches] *)
Definition flag_gene_matches (table_a table_b : DataFrame)
  : option (list gene_flag) :=
  ta ← scan_gene table_a;
  tb ← scan_gene table_b;
  Some (left_join_flags ta tb).

(** *** Console output *)

(** The lines the program prints. A percentage is printed from the count
    and the total carried by its line; [Saving] stands for the line that
    names the two output paths. *)
Inductive line : Type :=
  | Info (msg : string)
  | SummaryHeader
  | Total (name : string) (total : nat)
  | CNVOverlap (ovlp : Z) (total : nat)
  | GeneOverlap (gene : Z) (total : nat)
  | BothOverlap (both : Z) (total : nat)
  | Blank
  | Saving.

#[global] Instance line_eq_dec : EqDecision line.
Proof. solve_decision. Defined.

(** [((cnv == 1) & (gene == 1)).sum()] *)
Definition count_both (cnv gene : list cell) : Z :=
  Z.of_nat (length (filter (λ p, p.1 = CInt 1 ∧ p.2 = CInt 1) (zip cnv gene))).

(** The body of the loop of [print_summary] for one frame. *)
Definition summary_of (name : string) (df : DataFrame) : option (list line) :=
  let total := nrows df in
  cnv ← get_col df "CNV_based_overlap";
  gcol ← get_col df "gene_based_overlap";
  let ovlp := sum cnv in
  let gene := if any_notna gcol then sum gcol else 0 in
  let both := if any_notna gcol then count_both cnv gcol else 0 in
  Some ([Total name total; CNVOverlap ovlp total]
        ++ (if any_notna gcol
            then [GeneOverlap gene total; BothOverlap both total]
            else [])
        ++ [Blank])%list.

(** [print_summary] *)
Definition print_summary (df_a df_b : DataFrame) (name_a name_b : string)
  : option (list line) :=
  la ← summary_of name_a df_a;
  lb ← summary_of name_b df_b;
  Some (SummaryHeader :: la ++ lb)%list.

(** *** The run *)

(** The identifiers selected by
    [overlaps_df.loc[overlaps_df["reciprocal_overlap_flag"] == 1, col].unique()]. *)
Definition flagged_ids (col : flagged → Z) (rows : list flagged) : list Z :=
  remove_dups (col <$> filter (λ r, reciprocal_overlap_flag r = 1) rows).

(** The identifiers selected by
    [gene_flag.loc[gene_flag["gene_based_overlap"] == 1, id_col]]. *)
Definition gene_ids (rows : list gene_flag) : list Z :=
  g_id <$> filter (λ r, gene_based_overlap r = 1) rows.

(** The result of a run: the two frames written out and the console. *)
Record result : Type := mkResult {
  out_a   : DataFrame;
  out_b   : DataFrame;
  console : list line
}.

(** [main], from the two frames returned by [load_data] to the two frames
    handed to [to_csv]. [None] is a run that stops with an exception. *)
Definition main (loaded_a loaded_b : DataFrame) : option result :=
  let df_a := add_row_ids loaded_a in
  let df_b := add_row_ids loaded_b in
  let log := [Info "[INFO] Computing reciprocal overlaps >= 50% ..."] in
  overlaps_df ← flag_overlaps df_a df_b;
  let df_a := set_const df_a "CNV_based_overlap" (CInt 0) in
  let df_b := set_const df_b "CNV_based_overlap" (CInt 0) in
  df_a ← loc_set df_a (flagged_ids f_id_a overlaps_df) "CNV_based_overlap" (CInt 1);
  df_b ← loc_set df_b (flagged_ids f_id_b overlaps_df) "CNV_based_overlap" (CInt 1);
  '(df_a, df_b, log) ←
    (if has_col df_a "Gene_ID" && has_col df_b "Gene_ID" then
       let log := (log ++ [Info "[INFO] Checking gene overlaps ..."])%list in
       gene_flag_a ← flag_gene_matches df_a df_b;
       let df_a := set_const df_a "gene_based_overlap" (CInt 0) in
       df_a ← loc_set df_a (gene_ids gene_flag_a) "gene_based_overlap" (CInt 1);
       gene_flag_b ← flag_gene_matches df_b df_a;
       let df_b := set_const df_b "gene_based_overlap" (CInt 0) in
       df_b ← loc_set df_b (gene_ids gene_flag_b) "gene_based_overlap" (CInt 1);
       Some (df_a, df_b, log)
     else
       let log := (log ++ [Info "[INFO] Skipping gene overlap check (Gene_ID column missing in one or both files)"])%list in
       let df_a := set_const df_a "gene_based_overlap" CNA in
       let df_b := set_const df_b "gene_based_overlap" CNA in
       Some (df_a, df_b, log));
  summary ← print_summary df_a df_b "File A" "File B";
  let df_a := drop df_a "rowid" in
  let df_b := drop df_b "rowid" in
  Some (mkResult df_a df_b
          (log ++ summary
           ++ [Saving; Info "[INFO] Done."])%list).

(** *** Inputs *)

(** The columns every input must have. *)
Definition mandatory : list string := ["SampleID"; "Chr"; "Start"; "End"; "Type"].

(** The table the queries see for an input: the frame with its row
    identifiers. *)
Definition registered (df : DataFrame) : option (list cnv) :=
  scan (add_row_ids df).

Definition registered_gene (df : DataFrame) : option (list gene_row) :=
  scan_gene (add_row_ids df).

(** **** Sample inputs *)

Definition table (cols : list string) (rows : list (list cell)) : DataFrame :=
  mkDF (length rows)
       (imap (λ k name, (name, (λ r, default CNA (r !! k)) <$> rows)) cols).

Definition cnv_header : list string := ["SampleID"; "Chr"; "Start"; "End"; "Type"].

Definition ex_a : DataFrame :=
  table cnv_header [[CStr "S1"; CStr "chr1"; CInt 100; CInt 200; CStr "DEL"]].
Definition ex_b : DataFrame :=
  table cnv_header [[CStr "S1"; CStr "chr1"; CInt 150; CInt 300; CStr "DEL"]].

(** One record of [A] with two overlapping partners in [B]: the first
    covers it entirely, the second is the interval of [ex_b]. *)
Definition ex_two_partners : DataFrame :=
  table cnv_header
    [[CStr "S1"; CStr "chr1"; CInt 100; CInt 200; CStr "DEL"];
     [CStr "S1"; CStr "chr1"; CInt 150; CInt 300; CStr "DEL"]].

(** A record whose end lies before its start, inside the span of the
    record of [ex_b]. *)
Definition ex_inverted : DataFrame :=
  table cnv_header [[CStr "S1"; CStr "chr1"; CInt 250; CInt 160; CStr "DEL"]].

(** Three records with the coordinates of [ex_a], each differing from it
    in one component of the key. *)
Definition ex_other_keys : DataFrame :=
  table cnv_header
    [[CStr "S1"; CStr "chr1"; CInt 100; CInt 200; CStr "DUP"];
     [CStr "S2"; CStr "chr1"; CInt 100; CInt 200; CStr "DEL"];
     [CStr "S1"; CStr "chr2"; CInt 100; CInt 200; CStr "DEL"]].

(** The column names the program writes itself. *)
Definition reserved : list string :=
  ["rowid"; "CNV_based_overlap"; "gene_based_overlap"].

(** The record of [ex_a] in a file that has a column called [rowid], in a
    file that has a column called [CNV_based_overlap], and in a file that
    has a column called [gene_based_overlap]. *)
Definition ex_with_rowid : DataFrame :=
  table ("rowid" :: cnv_header)
    [[CStr "cnv-17"; CStr "S1"; CStr "chr1"; CInt 100; CInt 200; CStr "DEL"]].
Definition ex_with_flag : DataFrame :=
  table (cnv_header ++ ["CNV_based_overlap"])%list
    [[CStr "S1"; CStr "chr1"; CInt 100; CInt 200; CStr "DEL"; CStr "PASS"]].
Definition ex_with_gene_flag : DataFrame :=
  table ("gene_based_overlap" :: cnv_header)
    [[CStr "BRCA2"; CStr "S1"; CStr "chr1"; CInt 100; CInt 200; CStr "DEL"]].

Definition gene_header : list string :=
  ["SampleID"; "Chr"; "Start"; "End"; "Type"; "Gene_ID"].

(** Two records per table with a [Gene_ID] column: a record without a gene
    and a record of gene [G1], at unrelated coordinates in the two tables. *)
Definition ex_gene_a : DataFrame :=
  table gene_header
    [[CStr "S1"; CStr "chr1"; CInt 100; CInt 200; CStr "DEL"; CNA];
     [CStr "S1"; CStr "chr1"; CInt 500; CInt 900; CStr "DEL"; CStr "G1"]].
Definition ex_gene_b : DataFrame :=
  table gene_header
    [[CStr "S1"; CStr "chr1"; CInt 100; CInt 200; CStr "DEL"; CNA];
     [CStr "S1"; CStr "chr2"; CInt 10; CInt 20; CStr "DEL"; CStr "G1"]].

End Concordance.


(** ** The inheritance pipeline, [cnv_trio_inheritance.py] *)

Module Trio.

(** One line of a BED file: chromosome label, start, end, and the remaining
    tab-separated fields. In [child_cnv.bed] the label is the composite
    [SampleID_Chr] (or [SampleID_Chr_Type]) of the child; in
    [parents_cnv.bed] it is the composite built from the [child] column of
    a parent's record, and there are no further fields. *)
Record bed_row : Type := mkBed {
  chrom      : string;
  chromStart : Z;
  chromEnd   : Z;
  fields     : list string
}.

#[global] Instance bed_row_eq_dec : EqDecision bed_row.
Proof. solve_decision. Defined.

(** [Chr + "_" + Start.cast(Utf8) + "_" + End.cast(Utf8)] *)
Definition ID (r : bed_row) : string :=
  chrom r +:+ "_" +:+ pretty (chromStart r) +:+ "_" +:+ pretty (chromEnd r).

(** A text without the separator of [ID]; decimal numerals are such
    texts. *)
Fixpoint plain (s : string) : Prop :=
  match s with
  | EmptyString => True
  | String c s' => c ≠ "_"%char ∧ plain s'
  end.

(** The child table while it is annotated: its records and the Boolean
    columns added so far, in order. *)
Record child_frame : Type := mkChild {
  records : list bed_row;
  flags   : list (string * list bool)
}.

Fixpoint put (name : string) (v : list bool) (cs : list (string * list bool))
  : list (string * list bool) :=
  match cs with
  | [] => [(name, v)]
  | (n, w) :: cs' =>
      if decide (n = name) then (n, v) :: cs' else (n, w) :: put name v cs'
  end.

(** [df.with_columns(expr.alias(name))]: a column of that name is replaced
    where it stands, a new one is appended. *)
Definition with_column (df : child_frame) (name : string) (v : list bool)
  : child_frame :=
  mkChild (records df) (put name v (flags df)).

Fixpoint flag_column (name : string) (cs : list (string * list bool))
  : option (list bool) :=
  match cs with
  | [] => None
  | (n, v) :: cs' => if decide (n = name) then Some v else flag_column name cs'
  end.

(** The files of the working directory, by name. *)
Abbreviation files := (gmap string (list bed_row)).

(** [pl.read_csv(path, has_header=False)]: a missing file and a file
    without data are errors. *)
Definition read_csv (fs : files) (path : string) : option (list bed_row) :=
  rows ← fs !! path;
  guard (rows ≠ []);;
  Some rows.

Definition child_bed : string := "child_cnv.bed".
Definition parent_bed : string := "parents_cnv.bed".

(** [write_csv] of the two tables. *)
Definition export_bed (child_cnv parents_cnv : list bed_row) (fs : files) : files :=
  <[parent_bed := parents_cnv]> (<[child_bed := child_cnv]> fs).

Section pipeline.
(** The requested overlap fractions are floats; [repr] is the text
    Python puts in an f-string for one. *)
Context {F : Type} (repr : F → string).

(** The external tool, as called: [bedtools intersect -a A -b B -f F -r
    -wa], the lines written to its standard output. *)
Context (bedtools_intersect : list bed_row → list bed_row → F → list bed_row).

Definition intersect_file (ovlap : F) : string :=
  "intersect_ovlap" +:+ repr ovlap +:+ ".bed".

Definition column_name (ovlap : F) : string :=
  "observed_in_parent_ovlap" +:+ repr ovlap.

(** One turn of the first loop over [OVERLAPS]: the tool reads the two BED
    files and its output is redirected to [intersect_ovlap<f>.bed]. *)
Definition run_bedtools (fs : files) (ovlap : F) : option files :=
  a ← fs !! child_bed;
  b ← fs !! parent_bed;
  Some (<[intersect_file ovlap := bedtools_intersect a b ovlap]> fs).

Fixpoint run_intersects (OVERLAPS : list F) (fs : files) : option files :=
  match OVERLAPS with
  | [] => Some fs
  | ovlap :: rest => fs' ← run_bedtools fs ovlap; run_intersects rest fs'
  end.

(** One turn of the second loop over [OVERLAPS]. *)
Definition annotate_one (fs : files) (child_cnv : child_frame) (ovlap : F)
  : option child_frame :=
  read_csv fs (intersect_file ovlap) ≫= λ result : list bed_row,
  Some (with_column child_cnv (column_name ovlap)
          ((λ r, bool_decide (ID r ∈ ID <$> result)) <$> records child_cnv)).

Fixpoint annotate (OVERLAPS : list F) (fs : files) (child_cnv : child_frame)
  : option child_frame :=
  match OVERLAPS with
  | [] => Some child_cnv
  | ovlap :: rest =>
      child_cnv' ← annotate_one fs child_cnv ovlap;
      annotate rest fs child_cnv'
  end.

(** The script from the export of the BED files to the annotated child
    table, before the composite label is split again. [None] is a run
    that stops with an exception. *)
Definition pipeline (child_cnv parents_cnv : list bed_row) (OVERLAPS : list F)
    (fs : files) : option child_frame :=
  let fs := export_bed child_cnv parents_cnv fs in
  fs ← run_intersects OVERLAPS fs;
  child ← read_csv fs child_bed;
  annotate OVERLAPS fs (mkChild child []).

(** The flag of the [i]-th child record at one fraction. *)
Definition observed (out : child_frame) (ovlap : F) (i : nat) : option bool :=
  flag_column (column_name ovlap) (flags out) ≫= (.!! i).
End pipeline.

(** *** A reference tool and sample inputs *)

(** The two fractions of the samples. *)
Inductive fraction : Type := f0_5 | f0_1.

#[global] Instance fraction_eq_dec : EqDecision fraction.
Proof. solve_decision. Defined.

Definition fraction_repr (f : fraction) : string :=
  match f with f0_5 => "0.5" | f0_1 => "0.1" end.

Definition fraction_value (f : fraction) : Q :=
  match f with f0_5 => 0.5%Q | f0_1 => 0.1%Q end.

(** The test of [-f F -r] on two lines: same chromosome, at least one
    shared position, and the shared part is at least the fraction of each
    of the two lengths. *)
Definition reciprocal (f : Q) (a b : bed_row) : bool :=
  let overlap := Z.min (chromEnd a) (chromEnd b) - Z.max (chromStart a) (chromStart b) in
  bool_decide (chrom a = chrom b)
  && (0 <? overlap)
  && Qle_bool (f * inject_Z (chromEnd a - chromStart a))%Q (inject_Z overlap)
  && Qle_bool (f * inject_Z (chromEnd b - chromStart b))%Q (inject_Z overlap).

(** A stand-in for the tool with [-wa]: each line of [A] once for every line
    of [B] that passes the test. *)
Definition reference_intersect (A B : list bed_row) (f : fraction) : list bed_row :=
  a ← A; b ← B; if reciprocal (fraction_value f) a b then [a] else [].

(** The two intervals of the concordance samples as a child record and a
    parental record of the same child and chromosome. *)
Definition ex_child : list bed_row := [mkBed "S1_chr1" 100 200 ["DEL"]].
Definition ex_parents : list bed_row := [mkBed "S1_chr1" 150 300 []].

(** A second child record that one parent carries unchanged. *)
Definition ex_child2 : list bed_row :=
  [mkBed "S1_chr1" 100 200 ["DEL"]; mkBed "S1_chr2" 1000 2000 ["DUP"]].
Definition ex_parents2 : list bed_row :=
  [mkBed "S1_chr1" 150 300 []; mkBed "S1_chr2" 1000 2000 []].

End Trio.

(** ** Further sample inputs of the concordance checker *)

Module ConcordanceSamples.
Import Frame Concordance.

(** A table whose first record has no sample identifier and whose second
    record is the record of [ex_a]. *)
Definition ex_null_key : DataFrame :=
  table cnv_header
    [[CNA; CStr "chr1"; CInt 100; CInt 200; CStr "DEL"];
     [CStr "S1"; CStr "chr1"; CInt 100; CInt 200; CStr "DEL"]].

(** The two records of [ex_two_partners] in the other order, the second
    one twice. *)
Definition ex_two_partners_shuffled : DataFrame :=
  table cnv_header
    [[CStr "S1"; CStr "chr1"; CInt 150; CInt 300; CStr "DEL"];
     [CStr "S1"; CStr "chr1"; CInt 100; CInt 200; CStr "DEL"];
     [CStr "S1"; CStr "chr1"; CInt 150; CInt 300; CStr "DEL"]].

(** The query engine binds the column names of a query without telling
    upper and lower case apart: [lower] is the spelling it compares. *)
Definition lower_char (c : ascii) : ascii :=
  let n := nat_of_ascii c in
  if ((65 <=? n) && (n <=? 90))%nat then ascii_of_nat (n + 32) else c.

Fixpoint lower (s : string) : string :=
  match s with
  | EmptyString => EmptyString
  | String c s' => String (lower_char c) (lower s')
  end.

(** The record of [ex_a] in a file whose type column is called [Kind]. *)
Definition ex_kind : DataFrame :=
  table ["SampleID"; "Chr"; "Start"; "End"; "Kind"]
    [[CStr "S1"; CStr "chr1"; CInt 100; CInt 200; CStr "DEL"]].

End ConcordanceSamples.

(** ** The inheritance pipeline before the BED files *)

Module TrioSetup.
Import Trio.

(** One CNV call of [data_used]: the first four columns of the input and
    the remaining fields, by position and without the names of their
    columns. *)
Record call : Type := mkCall {
  SampleID : string;
  Chr      : string;
  Start    : Z;
  End_     : Z;
  rest     : list string
}.

#[global] Instance call_eq_dec : EqDecision call.
Proof. solve_decision. Defined.

(** One row of the pedigree file; [p_SampleID] is its [SampleID] column, the
    child. *)
Record trio : Type := mkTrio {
  p_SampleID : string;
  FatherID   : string;
  MotherID   : string
}.

#[global] Instance trio_eq_dec : EqDecision trio.
Proof. solve_decision. Defined.

(** [data_used["SampleID"].unique()] *)
Definition sample_ids (data_used : list call) : list string :=
  remove_dups (SampleID <$> data_used).

(** The filter on [family_info]: child, father and mother all have calls. *)
Definition complete (data_used : list call) (t : trio) : Prop :=
  p_SampleID t ∈ sample_ids data_used
  ∧ FatherID t ∈ sample_ids data_used
  ∧ MotherID t ∈ sample_ids data_used.

#[global] Instance complete_dec data_used t : Decision (complete data_used t).
Proof. unfold complete. apply _. Defined.

Definition filter_trios (data_used : list call) (family_info : list trio)
  : list trio :=
  filter (complete data_used) family_info.

(** [pl.concat([FatherID, MotherID]).unique()] *)
Definition parent_ids (family_info : list trio) : list string :=
  remove_dups ((FatherID <$> family_info) ++ (MotherID <$> family_info))%list.

(** [sep.join(items)] *)
Fixpoint join (sep : string) (items : list string) : string :=
  match items with
  | [] => ""
  | x :: items' =>
      match items' with
      | [] => x
      | _ => x +:+ sep +:+ join sep items'
      end
  end.

(** The children listed for one parent, in pedigree order. *)
Definition children_of (family_info : list trio) (pid : string) : list string :=
  p_SampleID <$> filter (λ t, FatherID t = pid ∨ MotherID t = pid) family_info.

(** The dictionary [parent_of]. *)
Definition parent_of (family_info : list trio) : gmap string string :=
  list_to_map ((λ pid, (pid, join "," (children_of family_info pid)))
                 <$> parent_ids family_info).

(** [annotate_chunk]: the column [child] is added. *)
Definition annotate_chunk (family_info : list trio) (chunk : list call)
  : list (call * string) :=
  (λ c, (c, default "" (parent_of family_info !! SampleID c))) <$> chunk.

(** [range(0, stop, step)]; a step of zero is a [ValueError]. *)
Definition range_step (stop step : nat) : option (list nat) :=
  if decide (step = 0%nat) then None
  else Some ((λ k, k * step)%nat <$> seq 0 ((stop + step - 1) `div` step)%nat).

(** The chunks handed to the worker pool. [n_cores] is one less than the
    number of CPUs; with a single CPU the division is a
    [ZeroDivisionError]. *)
Definition chunks (data_used : list call) (cpu_count : nat)
  : option (list (list call)) :=
  let n_cores := (cpu_count - 1)%nat in
  if decide (n_cores = 0%nat) then None
  else
    let chunk_size := ((length data_used + n_cores - 1) `div` n_cores)%nat in
    range_step (length data_used) chunk_size ≫= λ starts : list nat,
    Some ((λ i, take chunk_size (drop i data_used)) <$> starts).

(** [pool.map(annotate_chunk, chunks)] followed by [pl.concat]. *)
Definition annotate_parallel (family_info : list trio) (data_used : list call)
    (cpu_count : nat) : option (list (call * string)) :=
  chunks data_used cpu_count ≫= λ cs : list (list call),
  Some (concat (annotate_chunk family_info <$> cs)).

(** [str.split(sep)] for a separator of one character: the pieces between
    the separators, at least one. *)
Fixpoint split (sep : ascii) (s : string) : list string :=
  match s with
  | EmptyString => [""]
  | String c s' =>
      if decide (c = sep) then "" :: split sep s'
      else match split sep s' with
           | [] => [String c ""]
           | piece :: pieces => String c piece :: pieces
           end
  end.

(** A text without the character [sep]. *)
Fixpoint free (sep : ascii) (s : string) : Prop :=
  match s with
  | EmptyString => True
  | String c s' => c ≠ sep ∧ free sep s'
  end.

(** [with_columns(child.str.split(",")).explode("child")] *)
Definition explode (rows : list (call * string)) : list (call * string) :=
  r ← rows; (λ ch, (r.1, ch)) <$> split "," r.2.

(** The two filters on [cnv_ungrouped]. *)
Definition child_rows (family_info : list trio) (ungrouped : list (call * string))
  : list (call * string) :=
  filter (λ r, SampleID r.1 ∈ p_SampleID <$> family_info) ungrouped.

Definition parent_rows (family_info : list trio) (ungrouped : list (call * string))
  : list (call * string) :=
  filter (λ r, SampleID r.1
               ∈ ((FatherID <$> family_info) ++ (MotherID <$> family_info))%list)
    ungrouped.

(** The composite label written to the [Chr] column. [TYPE_COL] is the
    type column given on the command line, as its position among the
    fields after [End]; a row without that field is an error. *)
Definition label (TYPE_COL : option nat) (who : string) (c : call)
  : option string :=
  match TYPE_COL with
  | None => Some (who +:+ "_" +:+ Chr c)
  | Some k => ty ← rest c !! k; Some (who +:+ "_" +:+ Chr c +:+ "_" +:+ ty)
  end.

(** A line of [child_cnv.bed]: the label of the sample itself, and every
    column but [SampleID] and [child]. *)
Definition child_line (TYPE_COL : option nat) (r : call * string)
  : option bed_row :=
  l ← label TYPE_COL (SampleID r.1) r.1;
  Some (mkBed l (Start r.1) (End_ r.1) (rest r.1)).

(** A line of [parents_cnv.bed]: the label of the child, start and end. *)
Definition parent_line (TYPE_COL : option nat) (r : call * string)
  : option bed_row :=
  l ← label TYPE_COL r.2 r.1;
  Some (mkBed l (Start r.1) (End_ r.1) []).

(** One row of the table written at the end. *)
Record annotated : Type := mkAnnotated {
  a_SampleID : string;
  a_Chr      : string;
  a_Start    : Z;
  a_End      : Z;
  a_rest     : list string
}.

(** [Chr.str.split("_").list.get(0)] and [.list.get(1)]. The other fields
    are carried along by position; what happens to a column by its name
    (an input column called [ID] is overwritten and dropped) is not part
    of this record. *)
Definition unlabel (r : bed_row) : option annotated :=
  let pieces := split "_" (chrom r) in
  s ← pieces !! 0%nat;
  c ← pieces !! 1%nat;
  Some (mkAnnotated s c (chromStart r) (chromEnd r) (fields r)).

(** The output of the script. *)
Record output : Type := mkOutput {
  rows         : list annotated;
  flag_columns : list (string * list bool)
}.

Section script.
Context {F : Type} (repr : F → string).
Context (bedtools_intersect : list bed_row → list bed_row → F → list bed_row).

(** The script from the loaded tables on. *)
Definition script (data_used : list call) (family_info : list trio)
    (TYPE_COL : option nat) (OVERLAPS : list F) (cpu_count : nat) (fs : files)
  : option output :=
  let family_info := filter_trios data_used family_info in
  annotate_parallel family_info data_used cpu_count
    ≫= λ data_used' : list (call * string),
  let cnv_ungrouped := explode data_used' in
  mapM (child_line TYPE_COL) (child_rows family_info cnv_ungrouped)
    ≫= λ child_cnv : list bed_row,
  mapM (parent_line TYPE_COL) (parent_rows family_info cnv_ungrouped)
    ≫= λ parents_cnv : list bed_row,
  pipeline repr bedtools_intersect child_cnv parents_cnv OVERLAPS fs
    ≫= λ out : child_frame,
  mapM unlabel (records out) ≫= λ rows : list annotated,
  Some (mkOutput rows (flags out)).
End script.

(** The part of the test of the reference tool that reads the
    coordinates. *)
Definition reciprocal_coordinates (f : Q) (s e s' e' : Z) : bool :=
  let overlap := Z.min e e' - Z.max s s' in
  (0 <? overlap)
  && Qle_bool (f * inject_Z (e - s))%Q (inject_Z overlap)
  && Qle_bool (f * inject_Z (e' - s'))%Q (inject_Z overlap).

(** *** A sample family *)

Definition ex_family : list trio :=
  [mkTrio "C1" "F1" "M1"; mkTrio "C2" "F1" "M1"; mkTrio "C3" "F2" "M2"].

(** Calls of the first family; of the second family only the child and the
    father have calls. *)
Definition ex_calls : list call :=
  [mkCall "C1" "chr1" 100 200 ["DEL"];
   mkCall "C2" "chr1" 5000 6000 ["DUP"];
   mkCall "F1" "chr1" 100 200 ["DEL"];
   mkCall "M1" "chr2" 100 200 ["DEL"];
   mkCall "C3" "chr1" 100 200 ["DEL"];
   mkCall "F2" "chr1" 100 200 ["DEL"]].

(** Three generations: [C] is the child of one trio and the father of two
    others. *)
Definition ex_generations : list trio :=
  [mkTrio "C" "F" "M"; mkTrio "G1" "C" "S"; mkTrio "G2" "C" "S"].

Definition ex_generation_calls : list call :=
  [mkCall "C" "chr1" 100 200 ["DEL"];
   mkCall "F" "chr1" 100 200 ["DEL"];
   mkCall "M" "chr3" 100 200 ["DEL"];
   mkCall "S" "chr2" 100 200 ["DUP"];
   mkCall "G1" "chr1" 120 210 ["DEL"];
   mkCall "G2" "chr2" 100 200 ["DEL"]].

End TrioSetup.

(** ** Facts about tables *)

Module FrameFacts.
Import Frame.

Lemma lookup_col_assign_eq name v cs :
  lookup_col name (assign name v cs) = Some v.
Proof.
  induction cs as [|[n w] cs IH]; simpl; repeat case_decide; simpl;
    repeat case_decide; congruence.
Qed.

Lemma lookup_col_assign_ne name name' v cs :
  name ≠ name' → lookup_col name' (assign name v cs) = lookup_col name' cs.
Proof.
  intros Hne. induction cs as [|[n w] cs IH]; simpl; repeat case_decide; simpl;
    repeat case_decide; congruence.
Qed.

Lemma lookup_col_is_Some name cs :
  is_Some (lookup_col name cs) ↔ name ∈ cs.*1.
Proof.
  induction cs as [|[n w] cs IH]; simpl.
  - rewrite elem_of_nil. split; [intros [? ?]; done | done].
  - rewrite elem_of_cons. case_decide; subst.
    + split; eauto.
    + rewrite IH. split; [tauto | intros [?|?]; [congruence | done]].
Qed.

Lemma lookup_col_None name cs :
  lookup_col name cs = None ↔ name ∉ cs.*1.
Proof. rewrite <- lookup_col_is_Some, eq_None_not_Some. done. Qed.

Lemma lookup_col_elem name v cs :
  lookup_col name cs = Some v → (name, v) ∈ cs.
Proof.
  induction cs as [|[n w] cs IH]; simpl; [done|].
  case_decide; intros ?; simplify_eq; [left | right; auto].
Qed.

Lemma assign_names_old name v cs :
  name ∈ cs.*1 → (assign name v cs).*1 = cs.*1.
Proof.
  induction cs as [|[n w] cs IH]; csimpl; [by rewrite elem_of_nil|].
  rewrite elem_of_cons. case_decide; csimpl; [done|].
  intros [?|?]; [congruence|]. by rewrite IH.
Qed.

Lemma assign_names_new name v cs :
  name ∉ cs.*1 → (assign name v cs).*1 = (cs.*1 ++ [name])%list.
Proof.
  induction cs as [|[n w] cs IH]; csimpl; [done|].
  rewrite not_elem_of_cons. intros [? ?]. case_decide; [congruence|].
  csimpl. by rewrite IH.
Qed.

Lemma assign_assign name v w cs :
  assign name v (assign name w cs) = assign name v cs.
Proof.
  induction cs as [|[n u] cs IH]; simpl; repeat case_decide; simpl;
    repeat case_decide; congruence.
Qed.

Lemma assign_rectangular n name v cs :
  length v = n →
  Forall (λ c, length c.2 = n) cs →
  Forall (λ c, length c.2 = n) (assign name v cs).
Proof.
  intros Hv. induction 1 as [|[m w] cs Hw Hcs IH]; simpl.
  - by repeat constructor.
  - case_decide; constructor; auto.
Qed.

Lemma lookup_col_filter_ne name name' cs :
  name' ≠ name →
  lookup_col name' (filter (λ c, c.1 ≠ name) cs) = lookup_col name' cs.
Proof.
  intros Hne. induction cs as [|[n w] cs IH]; simpl; [done|].
  rewrite filter_cons. simpl. repeat case_decide; simpl; repeat case_decide;
    subst; try congruence.
Qed.

Lemma filter_names name (cs : list (string * list cell)) :
  (filter (λ c, c.1 ≠ name) cs).*1 = filter (λ n, n ≠ name) cs.*1.
Proof.
  induction cs as [|[n w] cs IH]; csimpl; [done|].
  rewrite !filter_cons. csimpl. case_decide; csimpl; by rewrite IH.
Qed.

(** *** Reading after writing *)

Lemma get_col_set_col_eq df name v :
  get_col (set_col df name v) name = Some v.
Proof. apply lookup_col_assign_eq. Qed.

Lemma get_col_set_col_ne df name name' v :
  name ≠ name' → get_col (set_col df name v) name' = get_col df name'.
Proof. apply lookup_col_assign_ne. Qed.

Lemma get_col_drop_ne df name name' :
  name' ≠ name → get_col (drop df name) name' = get_col df name'.
Proof. apply lookup_col_filter_ne. Qed.

Lemma has_col_get_col df name :
  has_col df name = true ↔ is_Some (get_col df name).
Proof.
  unfold has_col, get_col, columns.
  rewrite bool_decide_eq_true. symmetry. apply lookup_col_is_Some.
Qed.

Lemma columns_set_col_old df name v :
  name ∈ columns df → columns (set_col df name v) = columns df.
Proof. apply assign_names_old. Qed.

Lemma columns_set_col_new df name v :
  name ∉ columns df →
  columns (set_col df name v) = (columns df ++ [name])%list.
Proof. apply assign_names_new. Qed.

Lemma columns_set_col_elem df name v c :
  c ∈ columns (set_col df name v) ↔ c = name ∨ c ∈ columns df.
Proof.
  destruct (decide (name ∈ columns df)) as [Hin|Hout].
  - rewrite columns_set_col_old by done.
    split; [by right | by intros [->|?]].
  - rewrite columns_set_col_new by done. rewrite elem_of_app, list_elem_of_singleton.
    tauto.
Qed.

Lemma overwrite_lookup labels c old i :
  overwrite labels c old !! i
  = (λ x, if decide (Z.of_nat i ∈ labels) then c else x) <$> old !! i.
Proof. unfold overwrite. by rewrite list_lookup_imap. Qed.

Lemma overwrite_length labels c old :
  length (overwrite labels c old) = length old.
Proof. unfold overwrite. by rewrite length_imap. Qed.

Lemma loc_set_Some df labels name c df' :
  loc_set df labels name c = Some df' →
  ∃ old, get_col df name = Some old
    ∧ Forall (λ l, 0 ≤ l < Z.of_nat (nrows df)) labels
    ∧ df' = set_col df name (overwrite labels c old).
Proof.
  unfold loc_set. intros Hs.
  destruct (get_col df name) as [old|]; simpl in Hs; [|done].
  case_guard; simplify_eq/=; eauto.
Qed.

Lemma loc_set_total df labels name c old :
  get_col df name = Some old →
  Forall (λ l, 0 ≤ l < Z.of_nat (nrows df)) labels →
  loc_set df labels name c = Some (set_col df name (overwrite labels c old)).
Proof. unfold loc_set. intros -> ?. by simplify_option_eq. Qed.

(** Setting a column to a constant and then overwriting some of its cells
    leaves one column, in the place [set_col] gave it. *)
Lemma loc_set_set_const df labels name c0 c1 df' :
  loc_set (set_const df name c0) labels name c1 = Some df' →
  Forall (λ l, 0 ≤ l < Z.of_nat (nrows df)) labels
  ∧ df' = set_col df name (overwrite labels c1 (replicate (nrows df) c0)).
Proof.
  intros (old & Hold & Hl & ->)%loc_set_Some.
  unfold set_const in *. rewrite get_col_set_col_eq in Hold. simplify_eq.
  split; [done|]. unfold set_col. simpl. by rewrite assign_assign.
Qed.

Lemma loc_set_set_const_total df labels name c0 c1 :
  Forall (λ l, 0 ≤ l < Z.of_nat (nrows df)) labels →
  loc_set (set_const df name c0) labels name c1
  = Some (set_col df name (overwrite labels c1 (replicate (nrows df) c0))).
Proof.
  intros Hl. unfold set_const.
  erewrite loc_set_total; [|apply get_col_set_col_eq|done].
  unfold set_col. simpl. by rewrite assign_assign.
Qed.

(** The flag column written by the two statements above. *)
Lemma marks_lookup labels c0 c1 n i :
  (i < n)%nat →
  overwrite labels c1 (replicate n c0) !! i
  = Some (if decide (Z.of_nat i ∈ labels) then c1 else c0).
Proof.
  intros Hi. rewrite overwrite_lookup, lookup_replicate_2 by done. done.
Qed.

(** *** Cells *)

Lemma cell_at_set_col_eq df name v i :
  cell_at (set_col df name v) name i = v !! i.
Proof. unfold cell_at. by rewrite get_col_set_col_eq. Qed.

Lemma cell_at_set_col_ne df name name' v i :
  name ≠ name' → cell_at (set_col df name v) name' i = cell_at df name' i.
Proof. intros. unfold cell_at. by rewrite get_col_set_col_ne. Qed.

Lemma cell_at_drop_ne df name name' i :
  name' ≠ name → cell_at (drop df name) name' i = cell_at df name' i.
Proof. intros. unfold cell_at. by rewrite get_col_drop_ne. Qed.

Lemma int_at_set_col_ne df name name' v i :
  name ≠ name' → int_at (set_col df name v) name' i = int_at df name' i.
Proof. intros. unfold int_at. by rewrite cell_at_set_col_ne. Qed.

Lemma get_col_length df name v :
  rectangular df → get_col df name = Some v → length v = nrows df.
Proof.
  intros Hr Hv%lookup_col_elem.
  by apply (proj1 (Forall_forall _ _) Hr) in Hv.
Qed.

Lemma cell_at_is_Some df name i :
  rectangular df → name ∈ columns df → (i < nrows df)%nat →
  is_Some (cell_at df name i).
Proof.
  intros Hr [v Hv]%lookup_col_is_Some Hi. unfold cell_at, get_col.
  rewrite Hv. simpl. apply lookup_lt_is_Some.
  by rewrite (get_col_length df name v).
Qed.

Lemma cell_at_lt df name i c :
  rectangular df → cell_at df name i = Some c → (i < nrows df)%nat.
Proof.
  unfold cell_at. intros Hr H. apply bind_Some in H as (v & Hv & Hc).
  rewrite <- (get_col_length df name v) by done. by apply lookup_lt_Some in Hc.
Qed.

Lemma has_col_set_col df name v c :
  has_col (set_col df name v) c = bool_decide (c = name) || has_col df c.
Proof.
  unfold has_col. apply eq_true_iff_eq.
  rewrite orb_true_iff, !bool_decide_eq_true. apply columns_set_col_elem.
Qed.

Lemma has_col_set_col_ne df name v c :
  c ≠ name → has_col (set_col df name v) c = has_col df c.
Proof.
  intros. rewrite has_col_set_col. by rewrite bool_decide_eq_false_2.
Qed.

Lemma overwrite_ext l1 l2 c old :
  (∀ x, x ∈ l1 ↔ x ∈ l2) → overwrite l1 c old = overwrite l2 c old.
Proof.
  intros H. unfold overwrite. apply imap_ext. intros i x _. simpl.
  destruct (decide (Z.of_nat i ∈ l1)) as [H1|H1],
           (decide (Z.of_nat i ∈ l2)) as [H2|H2]; try done; exfalso.
  - by apply H2, H.
  - by apply H1, H.
Qed.

Lemma assign_new name v cs :
  name ∉ cs.*1 → assign name v cs = (cs ++ [(name, v)])%list.
Proof.
  induction cs as [|[n w] cs IH]; csimpl; [done|].
  rewrite not_elem_of_cons. intros [? ?]. case_decide; [congruence|].
  by rewrite IH.
Qed.

Lemma filter_other_names name (cs : list (string * list cell)) :
  name ∉ cs.*1 → filter (λ c, c.1 ≠ name) cs = cs.
Proof.
  induction cs as [|[n w] cs IH]; csimpl; [done|].
  rewrite not_elem_of_cons. intros [? ?]. rewrite filter_cons. simpl.
  case_decide; [|congruence]. by rewrite IH.
Qed.

Lemma columns_drop df name : name ∉ columns (drop df name).
Proof.
  unfold columns, drop. simpl. rewrite filter_names.
  intros [? _]%list_elem_of_filter. done.
Qed.

End FrameFacts.

(** ** Facts about the concordance checker *)

Module ConcordanceFacts.
Import Frame Concordance FrameFacts.

(** *** The arithmetic of the reciprocal rule *)

Lemma at_least_half_spec x y : at_least_half x y = true ↔ y ≤ 2 * x.
Proof.
  unfold at_least_half. rewrite Qle_bool_iff.
  unfold Qle, Qmult, inject_Z. simpl. lia.
Qed.

Lemma at_least_half_Q x y :
  at_least_half x y = true ↔ (0.5 * inject_Z y <= inject_Z x)%Q.
Proof. unfold at_least_half. apply Qle_bool_iff. Qed.

Lemma reciprocal_flag_range o :
  reciprocal_flag o = 0 ∨ reciprocal_flag o = 1.
Proof. unfold reciprocal_flag. destruct (_ && _); auto. Qed.

Lemma reciprocal_flag_1 o :
  reciprocal_flag o = 1
  ↔ len_a o ≤ 2 * overlap_len o ∧ len_b o ≤ 2 * overlap_len o.
Proof.
  unfold reciprocal_flag.
  destruct (_ && _) eqn:E.
  - apply andb_true_iff in E as [?%at_least_half_spec ?%at_least_half_spec].
    tauto.
  - split; [done|]. intros [?%at_least_half_spec ?%at_least_half_spec].
    apply andb_false_iff in E as [E|E]; congruence.
Qed.

(** A positive overlap length already implies the two coordinate
    inequalities of the [ON] clause. *)
Lemma join_on_candidate a b :
  0 < overlap_len (overlap_of a b) → join_on a b = same_key a b.
Proof.
  unfold join_on. simpl. intros H.
  assert ((Start b <? End_ a) = true) as -> by (apply Z.ltb_lt; lia).
  assert ((Start a <? End_ b) = true) as -> by (apply Z.ltb_lt; lia).
  by rewrite !andb_true_r.
Qed.

Lemma join_on_same_key a b : join_on a b = true → same_key a b = true.
Proof. unfold join_on. by intros [[? ?]%andb_true_iff ?]%andb_true_iff. Qed.

Lemma sql_eq_true x y : sql_eq x y = true → x = y ∧ x ≠ CNA.
Proof.
  destruct x, y; simpl; try done; intros ?%bool_decide_eq_true; by subst.
Qed.

Lemma sql_eq_sym x y : sql_eq x y = sql_eq y x.
Proof.
  destruct x, y; simpl; try done; apply bool_decide_ext; split; congruence.
Qed.

Lemma same_key_true a b :
  same_key a b = true →
  SampleID a = SampleID b ∧ Chr a = Chr b ∧ Type_ a = Type_ b.
Proof.
  unfold same_key.
  intros [[?%sql_eq_true ?%sql_eq_true]%andb_true_iff ?%sql_eq_true]%andb_true_iff.
  tauto.
Qed.

Lemma same_key_sym a b : same_key a b = same_key b a.
Proof.
  unfold same_key.
  by rewrite (sql_eq_sym (Chr a)), (sql_eq_sym (SampleID a)), (sql_eq_sym (Type_ a)).
Qed.

(** *** The rows of the query result *)

Lemma elem_of_overlaps_cte ta tb o :
  o ∈ overlaps_cte ta tb
  ↔ ∃ a b, a ∈ ta ∧ b ∈ tb ∧ join_on a b = true ∧ o = overlap_of a b.
Proof.
  unfold overlaps_cte. rewrite list_elem_of_bind. split.
  - intros (a & (b & Hb & Hin)%list_elem_of_bind & Ha).
    destruct (join_on a b) eqn:E; [|by apply elem_of_nil in Hb].
    apply list_elem_of_singleton in Hb. eauto 10.
  - intros (a & b & Ha & Hb & E & ->). exists a. split; [|done].
    apply list_elem_of_bind. exists b. rewrite E. split; [left|done].
Qed.

Lemma elem_of_select_flags os f :
  f ∈ select_flags os
  ↔ ∃ o, o ∈ os ∧ 0 < overlap_len o
         ∧ f = mkFlagged (id_a o) (id_b o) (reciprocal_flag o).
Proof.
  unfold select_flags. rewrite list_elem_of_bind. split.
  - intros (o & Hf & Ho). destruct (0 <? overlap_len o) eqn:E;
      [|by apply elem_of_nil in Hf].
    apply list_elem_of_singleton in Hf. apply Z.ltb_lt in E. eauto.
  - intros (o & Ho & ?%Z.ltb_lt & ->). exists o. split; [|done].
    rewrite H. left.
Qed.

(** A pair is reported exactly when the two rows share the key and overlap
    in at least one position; its flag is the reciprocal test. *)
Lemma elem_of_query ta tb f :
  f ∈ select_flags (overlaps_cte ta tb)
  ↔ ∃ a b, a ∈ ta ∧ b ∈ tb ∧ same_key a b = true
           ∧ 0 < overlap_len (overlap_of a b)
           ∧ f = mkFlagged (rowid a) (rowid b) (reciprocal_flag (overlap_of a b)).
Proof.
  rewrite elem_of_select_flags. split.
  - intros (o & (a & b & Ha & Hb & Hon & ->)%elem_of_overlaps_cte & Hpos & ->).
    exists a, b. repeat split; try done. by apply join_on_same_key.
  - intros (a & b & Ha & Hb & Hk & Hpos & ->).
    exists (overlap_of a b). repeat split; try done.
    apply elem_of_overlaps_cte. exists a, b. repeat split; try done.
    by rewrite join_on_candidate.
Qed.

(** *** Scanning a frame that carries row identifiers *)

Lemma scan_Some df t :
  scan df = Some t →
  Forall (λ c, c ∈ columns df) ["rowid"; "SampleID"; "Chr"; "Start"; "End"; "Type"]
  ∧ Forall2 (λ i r, cnv_at df i = Some r) (seq 0 (nrows df)) t.
Proof.
  unfold scan. intros ?. simplify_option_eq. split; [done|]. by apply mapM_Some.
Qed.

Lemma scan_length df t : scan df = Some t → length t = nrows df.
Proof.
  intros [_ H%Forall2_length]%scan_Some. by rewrite length_seq in H.
Qed.

Lemma scan_lookup df t i r :
  scan df = Some t →
  t !! i = Some r ↔ (i < nrows df)%nat ∧ cnv_at df i = Some r.
Proof.
  intros [_ H]%scan_Some. split.
  - intros Hr. destruct (Forall2_lookup_r _ _ _ _ _ H Hr) as (k & Hk & ?).
    apply lookup_seq in Hk as [-> ?]. done.
  - intros [Hi Hr].
    destruct (Forall2_lookup_l _ _ _ i i H) as (r' & Hr' & ?).
    { by rewrite lookup_seq_lt. }
    congruence.
Qed.

Lemma int_at_rowid df i :
  (i < nrows df)%nat → int_at (add_row_ids df) "rowid" i = Some (Z.of_nat i).
Proof.
  intros Hi. unfold int_at, cell_at, add_row_ids.
  rewrite get_col_set_col_eq. simpl.
  rewrite list_lookup_fmap, lookup_seq_lt by done. done.
Qed.

Lemma cnv_at_rowid df i r :
  (i < nrows df)%nat → cnv_at (add_row_ids df) i = Some r → rowid r = Z.of_nat i.
Proof.
  intros Hi. unfold cnv_at. rewrite int_at_rowid by done.
  intros ?. by simplify_option_eq.
Qed.

Lemma scan_rowid df t i r :
  scan (add_row_ids df) = Some t → t !! i = Some r → rowid r = Z.of_nat i.
Proof.
  intros Hs Hr. apply (scan_lookup _ _ _ _ Hs) in Hr as [Hi Hr].
  by apply cnv_at_rowid in Hr.
Qed.

(** With row identifiers in place, a result row names one pair of table
    rows. *)
Lemma query_pair A B ta tb i j a b f :
  scan (add_row_ids A) = Some ta →
  scan (add_row_ids B) = Some tb →
  ta !! i = Some a →
  tb !! j = Some b →
  mkFlagged (Z.of_nat i) (Z.of_nat j) f ∈ select_flags (overlaps_cte ta tb)
  ↔ same_key a b = true
    ∧ 0 < overlap_len (overlap_of a b)
    ∧ f = reciprocal_flag (overlap_of a b).
Proof.
  intros Ha Hb Hi Hj. rewrite elem_of_query. split.
  - intros (a' & b' & [i' Hi']%list_elem_of_lookup & [j' Hj']%list_elem_of_lookup
            & Hk & Hpos & Heq).
    pose proof (scan_rowid _ _ _ _ Ha Hi') as Ei.
    pose proof (scan_rowid _ _ _ _ Hb Hj') as Ej.
    injection Heq as Hx Hy ->. rewrite Ei in Hx. rewrite Ej in Hy.
    apply Nat2Z.inj in Hx, Hy. subst i' j'. by simplify_eq.
  - intros (Hk & Hpos & ->). exists a, b.
    rewrite (scan_rowid _ _ _ _ Ha Hi), (scan_rowid _ _ _ _ Hb Hj).
    repeat split; try done; apply list_elem_of_lookup; eauto.
Qed.

(** The identifiers in a query result are index labels of the two frames. *)
Lemma query_ids_a A ta tb f :
  scan (add_row_ids A) = Some ta →
  f ∈ select_flags (overlaps_cte ta tb) →
  0 ≤ f_id_a f < Z.of_nat (nrows A).
Proof.
  intros Ha (a & b & [i Hi]%list_elem_of_lookup & _ & _ & _ & ->)%elem_of_query.
  simpl. rewrite (scan_rowid _ _ _ _ Ha Hi).
  apply (scan_lookup _ _ _ _ Ha) in Hi as [Hi _]. simpl in Hi. lia.
Qed.

Lemma query_ids_b B ta tb f :
  scan (add_row_ids B) = Some tb →
  f ∈ select_flags (overlaps_cte ta tb) →
  0 ≤ f_id_b f < Z.of_nat (nrows B).
Proof.
  intros Hb (a & b & _ & [j Hj]%list_elem_of_lookup & _ & _ & ->)%elem_of_query.
  simpl. rewrite (scan_rowid _ _ _ _ Hb Hj).
  apply (scan_lookup _ _ _ _ Hb) in Hj as [Hj _]. simpl in Hj. lia.
Qed.

Lemma elem_of_flagged_ids col rows x :
  x ∈ flagged_ids col rows
  ↔ ∃ f, f ∈ rows ∧ reciprocal_overlap_flag f = 1 ∧ col f = x.
Proof.
  unfold flagged_ids. rewrite elem_of_remove_dups, list_elem_of_fmap.
  setoid_rewrite list_elem_of_filter. split.
  - intros (f & -> & ? & ?). eauto.
  - intros (f & ? & ? & <-). eauto.
Qed.

Ltac fresh_name :=
  rewrite !not_elem_of_cons; repeat split; try discriminate; apply not_elem_of_nil.

Ltac other_column :=
  repeat first
    [ rewrite cell_at_set_col_ne by discriminate
    | rewrite int_at_set_col_ne by discriminate
    | rewrite cell_at_drop_ne by discriminate ].

(** *** The gene query *)

Lemma scan_gene_set_col df name v :
  name ∉ ["rowid"; "SampleID"; "Type"; "Gene_ID"] →
  scan_gene (set_col df name v) = scan_gene df.
Proof.
  intros Hn. unfold scan_gene.
  assert (∀ i, gene_row_at (set_col df name v) i = gene_row_at df i) as Hrow.
  { intros i. unfold gene_row_at.
    rewrite int_at_set_col_ne, !cell_at_set_col_ne by set_solver. done. }
  assert (Forall (λ c, c ∈ columns (set_col df name v))
            ["rowid"; "SampleID"; "Type"; "Gene_ID"]
          ↔ Forall (λ c, c ∈ columns df)
              ["rowid"; "SampleID"; "Type"; "Gene_ID"]) as Hg.
  { rewrite !Forall_forall. split; intros H c Hc; specialize (H c Hc).
    - apply columns_set_col_elem in H as [->|H]; done.
    - apply columns_set_col_elem. by right. }
  simpl. repeat case_guard; try tauto; simpl; try done.
  apply mapM_ext. intros i. apply Hrow.
Qed.

Lemma scan_gene_flagged A v :
  scan_gene (set_col (add_row_ids A) "CNV_based_overlap" v)
  = scan_gene (add_row_ids A).
Proof. apply scan_gene_set_col. fresh_name. Qed.

Lemma scan_gene_flagged_twice A v w :
  scan_gene (set_col (set_col (add_row_ids A) "CNV_based_overlap" v)
               "gene_based_overlap" w)
  = scan_gene (add_row_ids A).
Proof. rewrite scan_gene_set_col by fresh_name. apply scan_gene_flagged. Qed.

Lemma scan_gene_lookup df t i r :
  scan_gene df = Some t →
  t !! i = Some r ↔ (i < nrows df)%nat ∧ gene_row_at df i = Some r.
Proof.
  unfold scan_gene. intros Hs. simpl in Hs. case_guard as Hg; [|done].
  simpl in Hs. apply mapM_Some in Hs. clear Hg. rename Hs into H.
  split.
  - intros Hr. destruct (Forall2_lookup_r _ _ _ _ _ H Hr) as (k & Hk & ?).
    apply lookup_seq in Hk as [-> ?]. done.
  - intros [Hi Hr].
    destruct (Forall2_lookup_l _ _ _ i i H) as (r' & Hr' & ?).
    { by rewrite lookup_seq_lt. }
    congruence.
Qed.

Lemma registered_gene_lookup A t i r :
  registered_gene A = Some t →
  t !! i = Some r
  ↔ (i < nrows A)%nat
    ∧ ∃ s ty g, cell_at A "SampleID" i = Some s
        ∧ cell_at A "Type" i = Some ty
        ∧ cell_at A "Gene_ID" i = Some g
        ∧ r = mkGeneRow (Z.of_nat i) s ty g.
Proof.
  intros Ht. rewrite (scan_gene_lookup _ _ _ _ Ht). simpl. split.
  - intros [Hi H]. split; [done|]. unfold gene_row_at in H.
    rewrite int_at_rowid in H by done. unfold add_row_ids in H. revert H.
    other_column. intros H. simplify_option_eq. eauto 10.
  - intros [Hi (s & ty & g & Hs & Hty & Hg & ->)]. split; [done|].
    unfold gene_row_at. rewrite int_at_rowid by done. unfold add_row_ids.
    other_column. by rewrite Hs, Hty, Hg.
Qed.

Lemma elem_of_left_join_flags ta tb f :
  f ∈ left_join_flags ta tb ∧ gene_based_overlap f = 1
  ↔ ∃ a b, a ∈ ta ∧ b ∈ tb ∧ gene_on a b = true ∧ f = mkGeneFlag (g_rowid a) 1.
Proof.
  unfold left_join_flags. rewrite list_elem_of_bind. split.
  - intros [(a & Hf & Ha) H1].
    destruct (filter _ tb) as [|b m] eqn:E.
    + apply list_elem_of_singleton in Hf. by subst.
    + apply list_elem_of_fmap in Hf as (? & -> & _).
      assert (b ∈ filter (λ b, gene_on a b = true) tb) as Hb by (rewrite E; left).
      apply list_elem_of_filter in Hb as [? ?]. eauto 10.
  - intros (a & b & Ha & Hb & Hon & ->). split; [|done]. exists a. split; [|done].
    assert (b ∈ filter (λ b, gene_on a b = true) tb) as Hin
      by by apply list_elem_of_filter.
    destruct (filter _ tb) as [|b' m]; [by apply elem_of_nil in Hin|].
    apply (list_elem_of_fmap_2' _ _ b'); [left|done].
Qed.

Lemma elem_of_gene_ids ta tb x :
  x ∈ gene_ids (left_join_flags ta tb)
  ↔ ∃ a b, a ∈ ta ∧ b ∈ tb ∧ gene_on a b = true ∧ x = g_rowid a.
Proof.
  unfold gene_ids. rewrite list_elem_of_fmap. split.
  - intros (f & -> & [H1 Hf]%list_elem_of_filter).
    destruct (proj1 (elem_of_left_join_flags ta tb f)) as (a & b & ? & ? & ? & ->);
      [done|]. eauto 10.
  - intros (a & b & Ha & Hb & Hon & ->). exists (mkGeneFlag (g_rowid a) 1).
    split; [done|]. apply list_elem_of_filter. split; [done|].
    apply elem_of_left_join_flags. eauto 10.
Qed.

(** *** The run, step by step *)

(** What a successful run has computed. *)
Lemma main_inv A B r :
  main A B = Some r →
  ∃ ta tb ga gb msg summary,
    let ov := select_flags (overlaps_cte ta tb) in
    let da := set_col (add_row_ids A) "CNV_based_overlap"
                (overwrite (flagged_ids f_id_a ov) (CInt 1)
                   (replicate (nrows A) (CInt 0))) in
    let db := set_col (add_row_ids B) "CNV_based_overlap"
                (overwrite (flagged_ids f_id_b ov) (CInt 1)
                   (replicate (nrows B) (CInt 0))) in
    registered A = Some ta
    ∧ registered B = Some tb
    ∧ ((has_col A "Gene_ID" && has_col B "Gene_ID" = true
        ∧ msg = "[INFO] Checking gene overlaps ..."
        ∧ ∃ tga tgb,
            registered_gene A = Some tga
            ∧ registered_gene B = Some tgb
            ∧ ga = overwrite (gene_ids (left_join_flags tga tgb)) (CInt 1)
                     (replicate (nrows A) (CInt 0))
            ∧ gb = overwrite (gene_ids (left_join_flags tgb tga)) (CInt 1)
                     (replicate (nrows B) (CInt 0)))
       ∨ (has_col A "Gene_ID" && has_col B "Gene_ID" = false
          ∧ msg = "[INFO] Skipping gene overlap check (Gene_ID column missing in one or both files)"
          ∧ ga = replicate (nrows A) CNA
          ∧ gb = replicate (nrows B) CNA))
    ∧ print_summary (set_col da "gene_based_overlap" ga)
        (set_col db "gene_based_overlap" gb) "File A" "File B" = Some summary
    ∧ r = mkResult
            (drop (set_col da "gene_based_overlap" ga) "rowid")
            (drop (set_col db "gene_based_overlap" gb) "rowid")
            ([Info "[INFO] Computing reciprocal overlaps >= 50% ..."; Info msg]
             ++ summary ++ [Saving; Info "[INFO] Done."])%list.
Proof.
  unfold main, flag_overlaps, registered, registered_gene. intros H.
  apply bind_Some in H as (ov & Hov & H).
  apply bind_Some in Hov as (ta & Hta & Hov).
  apply bind_Some in Hov as (tb & Htb & Hov). simplify_eq.
  apply bind_Some in H as (da & Hda & H).
  apply loc_set_set_const in Hda as [_ ->].
  apply bind_Some in H as (db & Hdb & H).
  apply loc_set_set_const in Hdb as [_ ->].
  apply bind_Some in H as ([[da' db'] log] & Hg & H).
  apply bind_Some in H as (summary & Hsum & H). simplify_eq.
  exists ta, tb. simpl in *.
  unfold add_row_ids in Hg at 1 2.
  rewrite !has_col_set_col_ne in Hg by discriminate.
  destruct (has_col A "Gene_ID" && has_col B "Gene_ID") eqn:Egene.
  - apply bind_Some in Hg as (gfa & Hgfa & Hg).
    apply bind_Some in Hg as (da2 & Hda2 & Hg).
    apply loc_set_set_const in Hda2 as [_ ->].
    apply bind_Some in Hg as (gfb & Hgfb & Hg).
    apply bind_Some in Hg as (db2 & Hdb2 & Hg).
    apply loc_set_set_const in Hdb2 as [_ ->]. simplify_eq. simpl in *.
    unfold flag_gene_matches in Hgfa, Hgfb.
    rewrite ?scan_gene_flagged_twice, ?scan_gene_flagged in Hgfa.
    rewrite ?scan_gene_flagged_twice, ?scan_gene_flagged in Hgfb.
    apply bind_Some in Hgfa as (tga & Htga & Hgfa).
    apply bind_Some in Hgfa as (tgb & Htgb & Hgfa).
    rewrite Htga, Htgb in Hgfb. simplify_eq/=.
    eexists _, _, _, summary. repeat split; try done.
    left. repeat split; try done. eauto 10.
  - simplify_eq. eexists _, _, _, summary. repeat split; try done.
    right. repeat split; done.
Qed.

(** *** What cannot fail after the queries *)

Lemma gene_ids_range A tga tgb :
  registered_gene A = Some tga →
  Forall (λ l, 0 ≤ l < Z.of_nat (nrows A)) (gene_ids (left_join_flags tga tgb)).
Proof.
  intros Ht. apply Forall_forall. intros x.
  intros (a & b & [i Hi]%list_elem_of_lookup & _ & _ & ->)%elem_of_gene_ids.
  apply (registered_gene_lookup _ _ _ _ Ht) in Hi
    as (Hi & s & ty & g & _ & _ & _ & ->). simpl. lia.
Qed.

Lemma flagged_ids_range_a A ta tb :
  registered A = Some ta →
  Forall (λ l, 0 ≤ l < Z.of_nat (nrows A))
    (flagged_ids f_id_a (select_flags (overlaps_cte ta tb))).
Proof.
  intros Ht. apply Forall_forall. intros x.
  intros (f & Hf & _ & <-)%elem_of_flagged_ids. by eapply query_ids_a.
Qed.

Lemma flagged_ids_range_b B ta tb :
  registered B = Some tb →
  Forall (λ l, 0 ≤ l < Z.of_nat (nrows B))
    (flagged_ids f_id_b (select_flags (overlaps_cte ta tb))).
Proof.
  intros Ht. apply Forall_forall. intros x.
  intros (f & Hf & _ & <-)%elem_of_flagged_ids. by eapply query_ids_b.
Qed.

Lemma print_summary_total da db ca cb ga gb na nb :
  is_Some (print_summary
             (set_col (set_col da "CNV_based_overlap" ca) "gene_based_overlap" ga)
             (set_col (set_col db "CNV_based_overlap" cb) "gene_based_overlap" gb)
             na nb).
Proof.
  unfold print_summary, summary_of.
  repeat first [ rewrite get_col_set_col_eq
               | rewrite get_col_set_col_ne by discriminate ].
  simpl. eauto.
Qed.

(** Once the overlap query has returned, a run that skips the gene check
    ends without an exception. *)
Lemma main_without_genes A B ta tb :
  registered A = Some ta →
  registered B = Some tb →
  has_col A "Gene_ID" && has_col B "Gene_ID" = false →
  is_Some (main A B).
Proof.
  intros Hta Htb E.
  unfold main, flag_overlaps.
  pose proof Hta as Hta'. pose proof Htb as Htb'.
  unfold registered in Hta', Htb'. rewrite Hta', Htb'. simpl.
  rewrite (loc_set_set_const_total (add_row_ids A))
    by (by apply (flagged_ids_range_a A)). simpl.
  rewrite (loc_set_set_const_total (add_row_ids B))
    by (by apply (flagged_ids_range_b B)). simpl.
  unfold add_row_ids at 1 2.
  rewrite !has_col_set_col_ne by discriminate.
  rewrite E. simpl. unfold set_const. simpl.
  destruct (print_summary_total (add_row_ids A) (add_row_ids B)
              (overwrite (flagged_ids f_id_a (select_flags (overlaps_cte ta tb)))
                 (CInt 1) (replicate (nrows A) (CInt 0)))
              (overwrite (flagged_ids f_id_b (select_flags (overlaps_cte ta tb)))
                 (CInt 1) (replicate (nrows B) (CInt 0)))
              (replicate (nrows A) CNA) (replicate (nrows B) CNA)
              "File A" "File B") as [sm Hsm].
  simpl. rewrite Hsm. simpl. eauto.
Qed.

(** *** The tables and the output cells *)

Lemma registered_lookup A t i r :
  registered A = Some t →
  t !! i = Some r
  ↔ (i < nrows A)%nat
    ∧ ∃ s c st en ty,
        cell_at A "SampleID" i = Some s
        ∧ cell_at A "Chr" i = Some c
        ∧ cell_at A "Start" i = Some (CInt st)
        ∧ cell_at A "End" i = Some (CInt en)
        ∧ cell_at A "Type" i = Some ty
        ∧ r = mkCnv (Z.of_nat i) s c st en ty.
Proof.
  intros Ht. unfold registered in Ht. rewrite (scan_lookup _ _ _ _ Ht). simpl.
  split.
  - intros [Hi H]. split; [done|]. unfold cnv_at in H.
    rewrite int_at_rowid in H by done. unfold add_row_ids in H. revert H.
    other_column. unfold int_at. intros H.
    destruct (cell_at A "SampleID" i) as [s|]; [|done].
    destruct (cell_at A "Chr" i) as [c|]; [|done].
    destruct (cell_at A "Start" i) as [[st| |]|]; try done.
    destruct (cell_at A "End" i) as [[en| |]|]; try done.
    destruct (cell_at A "Type" i) as [ty|]; [|done].
    simpl in H. simplify_eq. by exists s, c, st, en, ty.
  - intros [Hi (s & c & st & en & ty & Hs & Hc & Hst & Hen & Hty & ->)].
    split; [done|]. unfold cnv_at. rewrite int_at_rowid by done.
    unfold add_row_ids. other_column. unfold int_at.
    by rewrite Hs, Hc, Hst, Hen, Hty.
Qed.

Lemma registered_lt A t i r :
  registered A = Some t → t !! i = Some r → (i < nrows A)%nat.
Proof. intros Ht Hr. by apply (registered_lookup _ _ _ _ Ht) in Hr as [? _]. Qed.

(** The overlap flag written for a row of [A] and for a row of [B]. *)
Lemma out_cnv A B r ta tb :
  main A B = Some r →
  registered A = Some ta →
  registered B = Some tb →
  let ov := select_flags (overlaps_cte ta tb) in
  (∀ i, (i < nrows A)%nat →
     cell_at (out_a r) "CNV_based_overlap" i
     = Some (if decide (Z.of_nat i ∈ flagged_ids f_id_a ov) then CInt 1 else CInt 0))
  ∧ (∀ j, (j < nrows B)%nat →
       cell_at (out_b r) "CNV_based_overlap" j
       = Some (if decide (Z.of_nat j ∈ flagged_ids f_id_b ov) then CInt 1 else CInt 0)).
Proof.
  intros (ta' & tb' & ga & gb & msg & summary & Hta & Htb & _ & _ & ->)%main_inv
         Ha Hb.
  simplify_eq. simpl. split; intros k Hk; other_column;
    rewrite cell_at_set_col_eq; by apply marks_lookup.
Qed.

Lemma flagged_a_iff A B ta tb i a :
  registered A = Some ta →
  registered B = Some tb →
  ta !! i = Some a →
  Z.of_nat i ∈ flagged_ids f_id_a (select_flags (overlaps_cte ta tb))
  ↔ ∃ b, b ∈ tb ∧ same_key a b = true ∧ candidate a b ∧ qualifies a b.
Proof.
  intros Ha Hb Hi. rewrite elem_of_flagged_ids. split.
  - intros (f & Hf & H1 & Hid). destruct f as [x y fl]. simpl in *. subst.
    destruct (proj1 (elem_of_query ta tb _) Hf)
      as (a' & b' & _ & [j Hj]%list_elem_of_lookup & _ & _ & Heq).
    injection Heq as _ Hy _.
    rewrite (scan_rowid _ _ _ _ Hb Hj) in Hy. subst y.
    destruct (proj1 (query_pair A B ta tb i j a b' 1 Ha Hb Hi Hj) Hf)
      as (? & ? & ?).
    exists b'. repeat split; try done. by apply list_elem_of_lookup_2 in Hj.
  - intros (b & [j Hj]%list_elem_of_lookup & Hk & Hc & Hq).
    exists (mkFlagged (Z.of_nat i) (Z.of_nat j) 1). repeat split; try done.
    apply (query_pair A B ta tb i j a b 1 Ha Hb Hi Hj). by repeat split.
Qed.

Lemma flagged_b_iff A B ta tb j b :
  registered A = Some ta →
  registered B = Some tb →
  tb !! j = Some b →
  Z.of_nat j ∈ flagged_ids f_id_b (select_flags (overlaps_cte ta tb))
  ↔ ∃ a, a ∈ ta ∧ same_key a b = true ∧ candidate a b ∧ qualifies a b.
Proof.
  intros Ha Hb Hj. rewrite elem_of_flagged_ids. split.
  - intros (f & Hf & H1 & Hid). destruct f as [x y fl]. simpl in *. subst.
    destruct (proj1 (elem_of_query ta tb _) Hf)
      as (a' & b' & [i Hi]%list_elem_of_lookup & _ & _ & _ & Heq).
    injection Heq as Hx _ _.
    rewrite (scan_rowid _ _ _ _ Ha Hi) in Hx. subst x.
    destruct (proj1 (query_pair A B ta tb i j a' b 1 Ha Hb Hi Hj) Hf)
      as (? & ? & ?).
    exists a'. repeat split; try done. by apply list_elem_of_lookup_2 in Hi.
  - intros (a & [i Hi]%list_elem_of_lookup & Hk & Hc & Hq).
    exists (mkFlagged (Z.of_nat i) (Z.of_nat j) 1). repeat split; try done.
    apply (query_pair A B ta tb i j a b 1 Ha Hb Hi Hj). by repeat split.
Qed.

(** An interval with [End <= Start] has no candidate partner. *)
Lemma inverted_not_candidate_l a b : End_ a ≤ Start a → ¬ candidate a b.
Proof. unfold candidate. simpl. lia. Qed.

Lemma inverted_not_candidate_r a b : End_ b ≤ Start b → ¬ candidate a b.
Proof. unfold candidate. simpl. lia. Qed.

(** *** Candidate and qualifying pairs *)

(** The pair of the two sample inputs, [100, 200) against [150, 300), is
    reported with flag 0. *)
Example flag_overlaps_sample :
  flag_overlaps (add_row_ids ex_a) (add_row_ids ex_b) = Some [mkFlagged 0 0 0].
Proof. reflexivity. Qed.

(** C1. For two rows [a] of [A] and [b] of [B] under the same chromosome,
    sample and type, with [overlap_len = min(a.End, b.End) - max(a.Start,
    b.Start)]: the query reports the pair exactly when [overlap_len > 0]
    (intervals that only touch are not reported), every reported pair has
    flag 0 or 1, and the flag is 1 exactly when
    [overlap_len >= 0.5 * (a.End - a.Start)] and
    [overlap_len >= 0.5 * (b.End - b.Start)]. *)
Theorem reciprocal_overlap_rule A B ta tb ov i j a b :
  registered A = Some ta →
  registered B = Some tb →
  flag_overlaps (add_row_ids A) (add_row_ids B) = Some ov →
  ta !! i = Some a →
  tb !! j = Some b →
  same_key a b = true →
  let overlap_len := Z.min (End_ a) (End_ b) - Z.max (Start a) (Start b) in
  ((∃ f, mkFlagged (Z.of_nat i) (Z.of_nat j) f ∈ ov) ↔ 0 < overlap_len)
  ∧ (candidate a b ↔ 0 < overlap_len)
  ∧ (∀ f, mkFlagged (Z.of_nat i) (Z.of_nat j) f ∈ ov → f = 0 ∨ f = 1)
  ∧ (mkFlagged (Z.of_nat i) (Z.of_nat j) 1 ∈ ov
     ↔ 0 < overlap_len
       ∧ (0.5 * inject_Z (End_ a - Start a) <= inject_Z overlap_len)%Q
       ∧ (0.5 * inject_Z (End_ b - Start b) <= inject_Z overlap_len)%Q)
  ∧ (qualifies a b
     ↔ (0.5 * inject_Z (End_ a - Start a) <= inject_Z overlap_len)%Q
       ∧ (0.5 * inject_Z (End_ b - Start b) <= inject_Z overlap_len)%Q).
Proof.
  intros Ha Hb Hov Hi Hj Hk len.
  unfold flag_overlaps in Hov. unfold registered in Ha, Hb.
  rewrite Ha, Hb in Hov. simpl in Hov. injection Hov as <-.
  assert (qualifies a b
          ↔ (0.5 * inject_Z (End_ a - Start a) <= inject_Z len)%Q
            ∧ (0.5 * inject_Z (End_ b - Start b) <= inject_Z len)%Q) as Hq.
  { unfold qualifies. rewrite reciprocal_flag_1. simpl. fold len.
    by rewrite <- !at_least_half_spec, !at_least_half_Q. }
  repeat split.
  - intros [f Hf]. by apply (query_pair A B ta tb i j a b f Ha Hb Hi Hj) in Hf as (_ & ? & _).
  - intros Hpos. eexists. by apply (query_pair A B ta tb i j a b _ Ha Hb Hi Hj).
  - done.
  - done.
  - intros f Hf.
    apply (query_pair A B ta tb i j a b f Ha Hb Hi Hj) in Hf as (_ & _ & ->).
    apply reciprocal_flag_range.
  - by apply (query_pair A B ta tb i j a b 1 Ha Hb Hi Hj) in H as (_ & ? & _).
  - apply (query_pair A B ta tb i j a b 1 Ha Hb Hi Hj) in H as (_ & _ & H).
    by apply Hq.
  - apply (query_pair A B ta tb i j a b 1 Ha Hb Hi Hj) in H as (_ & _ & H).
    by apply Hq.
  - intros (Hpos & H1 & H2).
    apply (query_pair A B ta tb i j a b 1 Ha Hb Hi Hj). repeat split; try done.
    symmetry. by apply Hq.
  - by apply Hq.
  - by apply Hq.
  - intros [? ?]. by apply Hq.
Qed.

(** The rule of C1 at the two sample intervals: the pair [100, 200) and
    [150, 300) is a candidate (overlap 50) that does not qualify, since
    50 is less than half of 150. *)
Lemma reciprocal_overlap_rule_sample :
  let a := mkCnv 0 (CStr "S1") (CStr "chr1") 100 200 (CStr "DEL") in
  let b := mkCnv 0 (CStr "S1") (CStr "chr1") 150 300 (CStr "DEL") in
  candidate a b ∧ ¬ qualifies a b ∧ mkFlagged 0 0 1 ∉ [mkFlagged 0 0 0].
Proof.
  intros a b.
  destruct (reciprocal_overlap_rule ex_a ex_b [a] [b] [mkFlagged 0 0 0]
              0 0 a b eq_refl eq_refl eq_refl eq_refl eq_refl eq_refl)
    as (_ & Hc & _ & H1 & Hq).
  split; [apply Hc; reflexivity|].
  split.
  - intros [_ H]%Hq. revert H. vm_compute. intros H. by apply H.
  - intros [_ [_ H]]%H1. revert H. vm_compute. intros H. by apply H.
Defined.

(** *** Flags of the records *)

Lemma same_key_fields a b :
  same_key a b = true
  ↔ (SampleID a = SampleID b ∧ Chr a = Chr b ∧ Type_ a = Type_ b)
    ∧ SampleID a ≠ CNA ∧ Chr a ≠ CNA ∧ Type_ a ≠ CNA.
Proof.
  split.
  - unfold same_key.
    intros [[?%sql_eq_true ?%sql_eq_true]%andb_true_iff ?%sql_eq_true]%andb_true_iff.
    tauto.
  - intros ((HS & HC & HT) & ? & ? & ?). unfold same_key.
    rewrite <- HS, <- HC, <- HT.
    destruct (SampleID a), (Chr a), (Type_ a); try done; simpl;
      by rewrite !bool_decide_eq_true_2.
Qed.

Lemma qualifies_halves a b :
  let len := Z.min (End_ a) (End_ b) - Z.max (Start a) (Start b) in
  qualifies a b
  ↔ (0.5 * inject_Z (End_ a - Start a) <= inject_Z len)%Q
    ∧ (0.5 * inject_Z (End_ b - Start b) <= inject_Z len)%Q.
Proof.
  intros len. unfold qualifies. rewrite reciprocal_flag_1. simpl. fold len.
  by rewrite <- !at_least_half_spec, !at_least_half_Q.
Qed.

(** C2. A record of [A] is written with [CNV_based_overlap = 1] exactly
    when some record of [B] has the same [SampleID], [Chr] and [Type], none
    of them missing, shares more than nothing with it, and the shared
    length is at least half of the length of each of the two; it is
    written with 0 otherwise, and never with a missing value. *)
Theorem existential_flag A B r ta tb i a :
  main A B = Some r →
  registered A = Some ta →
  registered B = Some tb →
  ta !! i = Some a →
  let partner :=
    ∃ b, b ∈ tb
         ∧ (SampleID a = SampleID b ∧ Chr a = Chr b ∧ Type_ a = Type_ b)
         ∧ (SampleID a ≠ CNA ∧ Chr a ≠ CNA ∧ Type_ a ≠ CNA)
         ∧ 0 < Z.min (End_ a) (End_ b) - Z.max (Start a) (Start b)
         ∧ (0.5 * inject_Z (End_ a - Start a)
            <= inject_Z (Z.min (End_ a) (End_ b) - Z.max (Start a) (Start b)))%Q
         ∧ (0.5 * inject_Z (End_ b - Start b)
            <= inject_Z (Z.min (End_ a) (End_ b) - Z.max (Start a) (Start b)))%Q in
  (cell_at (out_a r) "CNV_based_overlap" i = Some (CInt 1) ↔ partner)
  ∧ (cell_at (out_a r) "CNV_based_overlap" i = Some (CInt 0) ↔ ¬ partner)
  ∧ cell_at (out_a r) "CNV_based_overlap" i ≠ Some CNA.
Proof.
  intros Hm Ha Hb Hi partner.
  destruct (out_cnv A B r ta tb Hm Ha Hb) as [Hout _].
  rewrite (Hout i) by by eapply registered_lt.
  assert (Z.of_nat i ∈ flagged_ids f_id_a (select_flags (overlaps_cte ta tb))
          ↔ partner) as Hiff.
  { rewrite (flagged_a_iff A B ta tb i a Ha Hb Hi). unfold partner.
    split.
    - intros (b & Hin & Hk%same_key_fields & Hc & Hq%qualifies_halves).
      exists b. unfold candidate in Hc. simpl in Hc. tauto.
    - intros (b & Hin & Hk & Hnn & Hpos & Hq).
      exists b. split; [done|]. split; [by apply same_key_fields|].
      split; [exact Hpos|]. by apply qualifies_halves. }
  case_decide as Hin; rewrite Hiff in Hin; repeat split; try done; tauto.
Qed.

(** C2 on a record with two candidate partners of which only the first
    qualifies: the record is flagged 1. *)
Lemma existential_flag_two_partners :
  ∃ r, main ex_a ex_two_partners = Some r
       ∧ cell_at (out_a r) "CNV_based_overlap" 0 = Some (CInt 1)
       ∧ get_col (out_b r) "CNV_based_overlap" = Some [CInt 1; CInt 0].
Proof.
  eexists. split; [reflexivity|]. split; [|reflexivity].
  eapply (existential_flag ex_a ex_two_partners); [reflexivity..|].
  eexists. split; [left|]. split; [by repeat split|].
  split; [by repeat split|].
  split; [reflexivity|]. split; vm_compute; discriminate.
Defined.

(** C9. A record with [End <= Start], in either input, is written with
    [CNV_based_overlap = 0]: it cannot be part of a candidate pair. The
    record itself stays in the table. *)
Theorem inverted_record_flag_zero A B r ta tb :
  main A B = Some r →
  registered A = Some ta →
  registered B = Some tb →
  (∀ i a, ta !! i = Some a → End_ a ≤ Start a →
     (∀ b, ¬ candidate a b)
     ∧ cell_at (out_a r) "CNV_based_overlap" i = Some (CInt 0))
  ∧ (∀ j b, tb !! j = Some b → End_ b ≤ Start b →
       (∀ a, ¬ candidate a b)
       ∧ cell_at (out_b r) "CNV_based_overlap" j = Some (CInt 0))
  ∧ nrows (out_a r) = nrows A
  ∧ nrows (out_b r) = nrows B.
Proof.
  intros Hm Ha Hb.
  destruct (out_cnv A B r ta tb Hm Ha Hb) as [HoutA HoutB].
  split; [|split].
  - intros i a Hi Hinv. split; [intros b; by apply inverted_not_candidate_l|].
    rewrite (HoutA i) by by eapply registered_lt.
    rewrite decide_False; [done|].
    rewrite (flagged_a_iff A B ta tb i a Ha Hb Hi).
    intros (b & _ & _ & Hc & _). by eapply inverted_not_candidate_l.
  - intros j b Hj Hinv. split; [intros a; by apply inverted_not_candidate_r|].
    rewrite (HoutB j) by by eapply registered_lt.
    rewrite decide_False; [done|].
    rewrite (flagged_b_iff A B ta tb j b Ha Hb Hj).
    intros (a & _ & _ & Hc & _). by eapply inverted_not_candidate_r.
  - apply main_inv in Hm as (? & ? & ? & ? & ? & ? & _ & _ & _ & _ & ->). done.
Qed.

(** C9 on a record that passes the two coordinate tests of the [ON]
    clause against the record of [ex_b] and is still written with 0. *)
Lemma inverted_record_flag_zero_sample :
  ∃ r, main ex_inverted ex_b = Some r
       ∧ cell_at (out_a r) "CNV_based_overlap" 0 = Some (CInt 0)
       ∧ nrows (out_a r) = 1%nat.
Proof.
  eexists. split; [reflexivity|].
  destruct (inverted_record_flag_zero ex_inverted ex_b _ _ _
              eq_refl eq_refl eq_refl) as (HA & _ & Hn & _).
  split; [|exact Hn].
  apply (HA 0%nat _ eq_refl). vm_compute. discriminate.
Defined.

(** *** Partitions *)

(** C3. Every row on which the overlap length and the reciprocal test are
    computed joins two records with equal [SampleID], [Chr] and [Type]; a
    pair of records that differ in one of the three is not in the query
    result, whatever its coordinates; and the flag of a record of [A] is the
    same against any two tables [B] that have the same rows under its
    key. *)
Theorem no_cross_partition A B ta tb :
  registered A = Some ta →
  registered B = Some tb →
  (∀ o, o ∈ overlaps_cte ta tb →
     ∃ a b, a ∈ ta ∧ b ∈ tb ∧ o = overlap_of a b
            ∧ SampleID a = SampleID b ∧ Chr a = Chr b ∧ Type_ a = Type_ b)
  ∧ (∀ i j a b f,
       ta !! i = Some a → tb !! j = Some b →
       SampleID a ≠ SampleID b ∨ Chr a ≠ Chr b ∨ Type_ a ≠ Type_ b →
       mkFlagged (Z.of_nat i) (Z.of_nat j) f ∉ select_flags (overlaps_cte ta tb))
  ∧ (∀ B' tb' r r' i a,
       registered B' = Some tb' →
       main A B = Some r → main A B' = Some r' →
       ta !! i = Some a →
       (∀ b, same_key a b = true → b ∈ tb ↔ b ∈ tb') →
       cell_at (out_a r) "CNV_based_overlap" i
       = cell_at (out_a r') "CNV_based_overlap" i).
Proof.
  intros Ha Hb. split; [|split].
  - intros o (a & b & Hina & Hinb & Hon & ->)%elem_of_overlaps_cte.
    apply join_on_same_key, same_key_true in Hon. eauto 10.
  - intros i j a b f Hi Hj Hne Hin.
    apply (query_pair A B ta tb i j a b f Ha Hb Hi Hj) in Hin
      as ((? & ? & ?)%same_key_true & _).
    tauto.
  - intros B' tb' r r' i a Hb' Hm Hm' Hi Hsame.
    destruct (out_cnv A B r ta tb Hm Ha Hb) as [Hout _].
    destruct (out_cnv A B' r' ta tb' Hm' Ha Hb') as [Hout' _].
    rewrite Hout, Hout' by by eapply registered_lt.
    pose proof (flagged_a_iff A B ta tb i a Ha Hb Hi) as H1.
    pose proof (flagged_a_iff A B' ta tb' i a Ha Hb' Hi) as H2.
    assert ((∃ b, b ∈ tb ∧ same_key a b = true ∧ candidate a b ∧ qualifies a b)
            ↔ ∃ b, b ∈ tb' ∧ same_key a b = true ∧ candidate a b ∧ qualifies a b)
      as H3.
    { split; intros (b & Hin & Hk & Hc & Hq); exists b;
        (split; [by apply (Hsame b Hk)|done]). }
    repeat case_decide; try done; tauto.
Qed.

(** C3 on [ex_a] against three records that share its coordinates and
    differ in type, sample and chromosome: no pair is reported and the
    record is written with 0. *)
Lemma no_cross_partition_sample :
  (∀ j b f, registered ex_other_keys ≫= (.!! j) = Some b →
     mkFlagged 0 (Z.of_nat j) f
     ∉ default [] (flag_overlaps (add_row_ids ex_a) (add_row_ids ex_other_keys)))
  ∧ main ex_a ex_other_keys ≫= (λ r, get_col (out_a r) "CNV_based_overlap")
    = Some [CInt 0].
Proof.
  split; [|reflexivity].
  destruct (no_cross_partition ex_a ex_other_keys _ _ eq_refl eq_refl)
    as (_ & H & _).
  intros j b f Hj. apply (H 0%nat j _ b f eq_refl Hj).
  destruct j as [|[|[|j]]]; simpl in Hj; simplify_eq; simpl.
  - right; right. discriminate.
  - left. discriminate.
  - right; left. discriminate.
Defined.

(** *** Symmetry *)

Lemma overlap_len_swap a b :
  overlap_len (overlap_of a b) = overlap_len (overlap_of b a).
Proof. simpl. lia. Qed.

Lemma reciprocal_flag_swap a b :
  reciprocal_flag (overlap_of a b) = reciprocal_flag (overlap_of b a).
Proof.
  unfold reciprocal_flag. rewrite (overlap_len_swap a b). simpl.
  by rewrite andb_comm.
Qed.

Lemma query_swap ta tb x y f :
  mkFlagged x y f ∈ select_flags (overlaps_cte ta tb)
  ↔ mkFlagged y x f ∈ select_flags (overlaps_cte tb ta).
Proof.
  rewrite !elem_of_query. split.
  - intros (a & b & Ha & Hb & Hk & Hpos & Heq). exists b, a.
    rewrite <- same_key_sym, <- overlap_len_swap, <- reciprocal_flag_swap.
    repeat split; try done. congruence.
  - intros (b & a & Hb & Ha & Hk & Hpos & Heq). exists a, b.
    rewrite <- same_key_sym, <- overlap_len_swap, <- reciprocal_flag_swap.
    repeat split; try done. congruence.
Qed.

Lemma flagged_ids_swap ta tb x :
  x ∈ flagged_ids f_id_a (select_flags (overlaps_cte tb ta))
  ↔ x ∈ flagged_ids f_id_b (select_flags (overlaps_cte ta tb)).
Proof.
  rewrite !elem_of_flagged_ids. split.
  - intros ([u v fl] & Hf & H1 & Hx). simpl in H1, Hx. subst fl x.
    exists (mkFlagged v u 1). by rewrite query_swap.
  - intros ([u v fl] & Hf & H1 & Hx). simpl in H1, Hx. subst fl x.
    exists (mkFlagged v u 1). by rewrite query_swap.
Qed.

(** C8. The decision on a pair does not depend on the side it is taken
    from: the key test, the candidate test and the reciprocal test give the
    same answer with the two records exchanged; the query on [(B, A)]
    reports the pairs of the query on [(A, B)], exchanged, with the same
    flags; a pair reported with flag 1 marks its record of [A] and its
    record of [B]; and running the program on [(B, A)] writes the two
    tables of the run on [(A, B)], exchanged. *)
Theorem symmetric_decision A B ta tb :
  registered A = Some ta →
  registered B = Some tb →
  (∀ a b, same_key a b = same_key b a
          ∧ (candidate a b ↔ candidate b a)
          ∧ (qualifies a b ↔ qualifies b a))
  ∧ (∀ x y f,
       mkFlagged x y f ∈ select_flags (overlaps_cte ta tb)
       ↔ mkFlagged y x f ∈ select_flags (overlaps_cte tb ta))
  ∧ (∀ r i j,
       main A B = Some r →
       mkFlagged (Z.of_nat i) (Z.of_nat j) 1 ∈ select_flags (overlaps_cte ta tb) →
       cell_at (out_a r) "CNV_based_overlap" i = Some (CInt 1)
       ∧ cell_at (out_b r) "CNV_based_overlap" j = Some (CInt 1))
  ∧ (∀ r r',
       main A B = Some r → main B A = Some r' →
       out_a r' = out_b r ∧ out_b r' = out_a r).
Proof.
  intros Ha Hb. split; [|split; [|split]].
  - intros a b. unfold candidate, qualifies.
    rewrite (overlap_len_swap a b), (reciprocal_flag_swap a b).
    split; [apply same_key_sym|done].
  - apply query_swap.
  - intros r i j Hm Hin.
    destruct (out_cnv A B r ta tb Hm Ha Hb) as [HoutA HoutB].
    pose proof (query_ids_a A ta tb _ Ha Hin) as Hi.
    pose proof (query_ids_b B ta tb _ Hb Hin) as Hj. simpl in Hi, Hj.
    rewrite HoutA, HoutB by lia.
    rewrite !decide_True; [done| |]; apply elem_of_flagged_ids; eauto.
  - intros r r' Hm Hm'.
    apply main_inv in Hm
      as (ta1 & tb1 & ga & gb & msg & sm & Hta1 & Htb1 & Hg & _ & ->).
    apply main_inv in Hm'
      as (tb2 & ta2 & gb' & ga' & msg' & sm' & Htb2 & Hta2 & Hg' & _ & ->).
    simplify_eq. simpl.
    rewrite (overwrite_ext _ _ _ _ (flagged_ids_swap ta tb)).
    rewrite <- (overwrite_ext _ _ _ _ (flagged_ids_swap tb ta)).
    rewrite (andb_comm (has_col B _)) in Hg'.
    assert (ga' = ga ∧ gb' = gb) as [-> ->]; [|done].
    destruct Hg as [(E & _ & tga & tgb & Htga & Htgb & -> & ->)
                   |(E & _ & -> & ->)];
      destruct Hg' as [(E' & _ & tgb' & tga' & Htgb' & Htga' & -> & ->)
                      |(E' & _ & -> & ->)];
      try congruence.
    all: simplify_eq; by split.
Qed.

(** C8 on the two sample inputs and on [ex_a] with its two partners. *)
Lemma symmetric_decision_sample :
  ∃ r r', main ex_a ex_two_partners = Some r
          ∧ main ex_two_partners ex_a = Some r'
          ∧ out_a r' = out_b r
          ∧ out_b r' = out_a r
          ∧ cell_at (out_a r) "CNV_based_overlap" 0 = Some (CInt 1)
          ∧ cell_at (out_b r) "CNV_based_overlap" 0 = Some (CInt 1).
Proof.
  eexists _, _. split; [reflexivity|]. split; [reflexivity|].
  destruct (symmetric_decision ex_a ex_two_partners _ _ eq_refl eq_refl)
    as (_ & _ & H1 & Hswap).
  destruct (Hswap _ _ eq_refl eq_refl) as [E1 E2].
  split; [exact E1|]. split; [exact E2|].
  apply (H1 _ 0%nat 0%nat eq_refl). vm_compute. left.
Defined.

(** *** The gene flag *)

Lemma out_gene A B r tga tgb :
  main A B = Some r →
  has_col A "Gene_ID" = true →
  has_col B "Gene_ID" = true →
  registered_gene A = Some tga →
  registered_gene B = Some tgb →
  (∀ i, (i < nrows A)%nat →
     cell_at (out_a r) "gene_based_overlap" i
     = Some (if decide (Z.of_nat i ∈ gene_ids (left_join_flags tga tgb))
             then CInt 1 else CInt 0))
  ∧ (∀ j, (j < nrows B)%nat →
       cell_at (out_b r) "gene_based_overlap" j
       = Some (if decide (Z.of_nat j ∈ gene_ids (left_join_flags tgb tga))
               then CInt 1 else CInt 0)).
Proof.
  intros (ta & tb & ga & gb & msg & sm & _ & _ & Hg & _ & ->)%main_inv
         EA EB Htga Htgb.
  rewrite EA, EB in Hg.
  destruct Hg as [(_ & _ & tga' & tgb' & ? & ? & -> & ->)|(? & _)]; [|done].
  simplify_eq. simpl.
  split; intros k Hk; other_column; rewrite cell_at_set_col_eq;
    by apply marks_lookup.
Qed.

Lemma main_registered_gene A B r :
  main A B = Some r →
  has_col A "Gene_ID" = true →
  has_col B "Gene_ID" = true →
  ∃ tga tgb, registered_gene A = Some tga ∧ registered_gene B = Some tgb.
Proof.
  intros (ta & tb & ga & gb & msg & sm & _ & _ & Hg & _ & ->)%main_inv EA EB.
  rewrite EA, EB in Hg.
  destruct Hg as [(_ & _ & tga & tgb & ? & ? & _)|(? & _)]; [eauto|done].
Qed.

Lemma null_gene_not_matched A tga tgb i :
  registered_gene A = Some tga →
  cell_at A "Gene_ID" i = Some CNA →
  Z.of_nat i ∉ gene_ids (left_join_flags tga tgb).
Proof.
  intros Ht Hnull (a & b & [k Hk]%list_elem_of_lookup & _ & Hon & Hid)%elem_of_gene_ids.
  apply (registered_gene_lookup _ _ _ _ Ht) in Hk
    as (_ & s & ty & g & _ & _ & Hg & ->).
  simpl in Hid. apply Nat2Z.inj in Hid. subst k.
  rewrite Hnull in Hg. injection Hg as <-.
  unfold gene_on in Hon. simpl in Hon. by rewrite andb_false_r in Hon.
Qed.

(** C10. When both inputs have a [Gene_ID] column, every record is written
    with [gene_based_overlap] 0 or 1, and a record whose own [Gene_ID] is
    missing is written with 0: a missing value is equal to nothing in the
    join. A missing [gene_based_overlap] therefore never appears record by
    record. *)
Theorem null_gene_flag_zero A B r :
  main A B = Some r →
  has_col A "Gene_ID" = true →
  has_col B "Gene_ID" = true →
  (∀ i, (i < nrows A)%nat →
     (cell_at (out_a r) "gene_based_overlap" i = Some (CInt 0)
      ∨ cell_at (out_a r) "gene_based_overlap" i = Some (CInt 1))
     ∧ (cell_at A "Gene_ID" i = Some CNA →
        cell_at (out_a r) "gene_based_overlap" i = Some (CInt 0)))
  ∧ (∀ j, (j < nrows B)%nat →
       (cell_at (out_b r) "gene_based_overlap" j = Some (CInt 0)
        ∨ cell_at (out_b r) "gene_based_overlap" j = Some (CInt 1))
       ∧ (cell_at B "Gene_ID" j = Some CNA →
          cell_at (out_b r) "gene_based_overlap" j = Some (CInt 0))).
Proof.
  intros Hm EA EB.
  destruct (main_registered_gene A B r Hm EA EB) as (tga & tgb & Htga & Htgb).
  destruct (out_gene A B r tga tgb Hm EA EB Htga Htgb) as [HoutA HoutB].
  split.
  - intros i Hi. rewrite (HoutA i Hi). split.
    + case_decide; auto.
    + intros Hnull. rewrite decide_False; [done|].
      by apply (null_gene_not_matched A).
  - intros j Hj. rewrite (HoutB j Hj). split.
    + case_decide; auto.
    + intros Hnull. rewrite decide_False; [done|].
      by apply (null_gene_not_matched B).
Qed.

(** C10 on two tables that each hold a record without a gene, identical
    otherwise, and a record of gene [G1]: the records without a gene are
    written with 0, the others with 1. *)
Lemma null_gene_flag_zero_sample :
  ∃ r, main ex_gene_a ex_gene_b = Some r
       ∧ cell_at (out_a r) "gene_based_overlap" 0 = Some (CInt 0)
       ∧ cell_at (out_b r) "gene_based_overlap" 0 = Some (CInt 0)
       ∧ get_col (out_a r) "gene_based_overlap" = Some [CInt 0; CInt 1].
Proof.
  eexists. split; [reflexivity|].
  destruct (null_gene_flag_zero ex_gene_a ex_gene_b _ eq_refl eq_refl eq_refl)
    as [HA HB].
  split; [|split; [|reflexivity]].
  - apply (HA 0%nat); [simpl; lia | reflexivity].
  - apply (HB 0%nat); [simpl; lia | reflexivity].
Defined.

(** *** A missing [Gene_ID] column *)

Lemma any_notna_replicate_NA n : any_notna (replicate n CNA) = false.
Proof. induction n as [|n IH]; simpl; [done|]. by rewrite IH. Qed.

Lemma print_summary_skipped da db ca cb na nb :
  print_summary
    (set_col (set_col da "CNV_based_overlap" ca) "gene_based_overlap"
       (replicate (nrows da) CNA))
    (set_col (set_col db "CNV_based_overlap" cb) "gene_based_overlap"
       (replicate (nrows db) CNA))
    na nb
  = Some [SummaryHeader;
          Total na (nrows da); CNVOverlap (sum ca) (nrows da); Blank;
          Total nb (nrows db); CNVOverlap (sum cb) (nrows db); Blank].
Proof.
  unfold print_summary, summary_of.
  repeat first [ rewrite get_col_set_col_eq
               | rewrite get_col_set_col_ne by discriminate ].
  simpl. by rewrite !any_notna_replicate_NA.
Qed.

(** C6. A missing [Gene_ID] column is not an error. When [Gene_ID] is
    missing from one input or from both, a run whose overlap query has
    returned ends without an exception; every record of both outputs has a
    missing [gene_based_overlap]; the console says that the gene check was
    skipped; and the summary consists, for each file, of the total and the
    overlap line only: no gene count, no count of records with both flags,
    and none of their percentages. *)
Theorem missing_gene_column A B overlaps_df :
  flag_overlaps (add_row_ids A) (add_row_ids B) = Some overlaps_df →
  has_col A "Gene_ID" && has_col B "Gene_ID" = false →
  ∃ r ovlp_a ovlp_b,
    main A B = Some r
    ∧ get_col (out_a r) "gene_based_overlap" = Some (replicate (nrows A) CNA)
    ∧ get_col (out_b r) "gene_based_overlap" = Some (replicate (nrows B) CNA)
    ∧ console r
      = [Info "[INFO] Computing reciprocal overlaps >= 50% ...";
         Info "[INFO] Skipping gene overlap check (Gene_ID column missing in one or both files)";
         SummaryHeader;
         Total "File A" (nrows A); CNVOverlap ovlp_a (nrows A); Blank;
         Total "File B" (nrows B); CNVOverlap ovlp_b (nrows B); Blank;
         Saving; Info "[INFO] Done."]
    ∧ (∀ gene total, GeneOverlap gene total ∉ console r)
    ∧ (∀ both total, BothOverlap both total ∉ console r).
Proof.
  intros Hq E.
  assert (∃ ta tb, registered A = Some ta ∧ registered B = Some tb)
    as (ta & tb & Hta & Htb).
  { unfold flag_overlaps in Hq. unfold registered.
    destruct (scan (add_row_ids A)) as [ta|]; [|done].
    destruct (scan (add_row_ids B)) as [tb|]; [|done]. eauto. }
  destruct (main_without_genes A B ta tb Hta Htb E) as [r Hm]. exists r.
  pose proof Hm as (ta' & tb' & ga & gb & msg & sm & _ & _ & Hg & Hsum & ->)%main_inv.
  rewrite E in Hg.
  destruct Hg as [(? & _)|(_ & -> & -> & ->)]; [done|].
  rewrite (print_summary_skipped (add_row_ids A) (add_row_ids B)) in Hsum.
  injection Hsum as <-. simpl.
  eexists _, _. split; [done|].
  split; [by rewrite get_col_drop_ne, get_col_set_col_eq by discriminate|].
  split; [by rewrite get_col_drop_ne, get_col_set_col_eq by discriminate|].
  split; [reflexivity|].
  split; intros x t H;
    repeat (apply elem_of_cons in H as [H|H]; [discriminate|]);
    by apply elem_of_nil in H.
Qed.

(** C6 on the two sample inputs, which have no [Gene_ID] column. *)
Lemma missing_gene_column_sample :
  ∃ r, main ex_a ex_b = Some r
       ∧ get_col (out_a r) "gene_based_overlap" = Some [CNA]
       ∧ get_col (out_b r) "gene_based_overlap" = Some [CNA]
       ∧ GeneOverlap 0 1 ∉ console r.
Proof.
  destruct (missing_gene_column ex_a ex_b [mkFlagged 0 0 0] eq_refl eq_refl)
    as (r & oa & ob & Hm & Hga & Hgb & _ & Hno & _).
  exists r. split; [exact Hm|]. split; [exact Hga|]. split; [exact Hgb|].
  apply Hno.
Defined.

(** *** The shape of the output *)

Lemma output_data df c g :
  Forall (λ n, n ∉ columns df) reserved →
  data (drop (set_col (set_col (add_row_ids df) "CNV_based_overlap" c)
                "gene_based_overlap" g) "rowid")
  = (data df ++ [("CNV_based_overlap", c); ("gene_based_overlap", g)])%list.
Proof.
  intros Hfresh. unfold columns in Hfresh.
  apply Forall_cons in Hfresh as [H1 Hfresh].
  apply Forall_cons in Hfresh as [H2 Hfresh].
  apply Forall_cons in Hfresh as [H3 _].
  unfold drop, set_col, add_row_ids. simpl.
  rewrite (assign_new "rowid") by done.
  rewrite (assign_new "CNV_based_overlap").
  2:{ rewrite fmap_app, not_elem_of_app. split; [done|]. simpl.
      rewrite list_elem_of_singleton. discriminate. }
  rewrite (assign_new "gene_based_overlap").
  2:{ rewrite !fmap_app, !not_elem_of_app. repeat split; [done|..]; simpl;
      rewrite list_elem_of_singleton; discriminate. }
  rewrite !filter_app, filter_other_names by done.
  rewrite <- !(assoc_L (++)). done.
Qed.

(** C7, as the program has it. For each of the two tables: the output has
    the row count of the input and no [rowid] column; and when the input
    header contains none of the names [rowid], [CNV_based_overlap] and
    [gene_based_overlap], the output consists of the input columns, with
    their names, order and values (hence the rows in their order), followed
    by the column [CNV_based_overlap] and then the column
    [gene_based_overlap], each with one value per row. *)
Theorem row_preservation A B r :
  main A B = Some r →
  (nrows (out_a r) = nrows A ∧ ("rowid" ∉ columns (out_a r))
   ∧ nrows (out_b r) = nrows B ∧ ("rowid" ∉ columns (out_b r)))
  ∧ (Forall (λ n, n ∉ columns A) reserved →
     ∃ c g, length c = nrows A ∧ length g = nrows A
       ∧ data (out_a r)
         = (data A ++ [("CNV_based_overlap", c); ("gene_based_overlap", g)])%list)
  ∧ (Forall (λ n, n ∉ columns B) reserved →
     ∃ c g, length c = nrows B ∧ length g = nrows B
       ∧ data (out_b r)
         = (data B ++ [("CNV_based_overlap", c); ("gene_based_overlap", g)])%list).
Proof.
  intros (ta & tb & ga & gb & msg & sm & _ & _ & Hg & _ & ->)%main_inv.
  assert (length ga = nrows A ∧ length gb = nrows B) as [Hga Hgb].
  { destruct Hg as [(_ & _ & tga & tgb & _ & _ & -> & ->)|(_ & _ & -> & ->)];
      by rewrite ?overwrite_length, !length_replicate. }
  cbn [out_a out_b]. split; [|split].
  - repeat split; try done; apply columns_drop.
  - intros Hfresh. eexists _, ga. rewrite output_data by done.
    repeat split; try done. by rewrite overwrite_length, length_replicate.
  - intros Hfresh. eexists _, gb. rewrite output_data by done.
    repeat split; try done. by rewrite overwrite_length, length_replicate.
Qed.

(** C7 on the two sample inputs. *)
Lemma row_preservation_sample :
  ∃ r, main ex_a ex_b = Some r
       ∧ nrows (out_a r) = 1%nat
       ∧ columns (out_a r)
         = (columns ex_a ++ ["CNV_based_overlap"; "gene_based_overlap"])%list
       ∧ "rowid" ∉ columns (out_a r).
Proof.
  eexists. split; [reflexivity|].
  destruct (row_preservation ex_a ex_b _ eq_refl) as ((Hn & Hid & _) & HA & _).
  split; [exact Hn|]. split; [|exact Hid].
  destruct HA as (c & g & _ & _ & Hd).
  { by apply (bool_decide_unpack _). }
  unfold columns. rewrite Hd. by rewrite fmap_app.
Defined.

(** The statement of C7 without the condition on the header fails. An
    input column called [rowid] is overwritten and then dropped, so the
    input header is not a prefix of the output header; an input column
    called [CNV_based_overlap] or [gene_based_overlap] is overwritten in
    place, so its values are lost and the flag is not appended after the
    input columns. *)
Lemma row_preservation_counterexample :
  (∃ r, main ex_with_rowid ex_b = Some r
        ∧ "rowid" ∈ columns ex_with_rowid
        ∧ ("rowid" ∉ columns (out_a r))
        ∧ ¬ columns ex_with_rowid `prefix_of` columns (out_a r))
  ∧ (∃ r, main ex_with_flag ex_b = Some r
          ∧ get_col ex_with_flag "CNV_based_overlap" = Some [CStr "PASS"]
          ∧ get_col (out_a r) "CNV_based_overlap" = Some [CInt 0]
          ∧ columns (out_a r)
            = (columns ex_with_flag ++ ["gene_based_overlap"])%list)
  ∧ (∃ r, main ex_with_gene_flag ex_b = Some r
          ∧ get_col ex_with_gene_flag "gene_based_overlap" = Some [CStr "BRCA2"]
          ∧ get_col (out_a r) "gene_based_overlap" = Some [CNA]
          ∧ columns (out_a r)
            = (columns ex_with_gene_flag ++ ["CNV_based_overlap"])%list).
Proof.
  split; [|split].
  - eexists. split; [reflexivity|]. split; [by apply (bool_decide_unpack _)|].
    split; [by apply (bool_decide_unpack _)|].
    intros [k Hk]. vm_compute in Hk. discriminate.
  - eexists. split; [reflexivity|]. repeat split; reflexivity.
  - eexists. split; [reflexivity|]. repeat split; reflexivity.
Qed.

(** *** Records with [End <= Start] *)






End ConcordanceFacts.

(** ** Facts about the inheritance pipeline *)

Module TrioFacts.
Import Frame Concordance ConcordanceFacts Trio.

Lemma length_append s t :
  String.length (s +:+ t) = (String.length s + String.length t)%nat.
Proof. induction s as [|c s IH]; simpl; [done|]. by rewrite IH. Qed.

Lemma append_inj_suffix s s' t : s +:+ t = s' +:+ t → s = s'.
Proof.
  revert s'. induction s as [|c s IH]; intros [|c' s'] H; simpl in H.
  - done.
  - apply (f_equal String.length) in H.
    rewrite !length_append in H. simpl in H. lia.
  - apply (f_equal String.length) in H.
    rewrite !length_append in H. simpl in H. lia.
  - injection H as -> H. f_equal. by apply IH.
Qed.

(** *** Identifiers *)

Lemma append_nil t : "" +:+ t = t.
Proof. reflexivity. Qed.

Lemma append_cons c s t : String c s +:+ t = String c (s +:+ t).
Proof. reflexivity. Qed.

Lemma append_assoc s t u : (s +:+ t) +:+ u = s +:+ t +:+ u.
Proof.
  induction s as [|c s IH]; [done|]. rewrite !append_cons. by f_equal.
Qed.

Lemma plain_middle s u : ¬ plain (s +:+ String "_" u).
Proof.
  induction s as [|c s IH]; rewrite ?append_nil, ?append_cons; simpl;
    intros [? ?]; [done|auto].
Qed.

(** A text is cut in one way only at its last separator. *)
Lemma cut_at_last_separator s s' u u' :
  plain u → plain u' →
  s +:+ String "_" u = s' +:+ String "_" u' → s = s' ∧ u = u'.
Proof.
  intros Hu Hu'. revert s'.
  induction s as [|c s IH]; intros [|c' s'] H;
    rewrite ?append_nil, ?append_cons in H.
  - by injection H as ->.
  - injection H as _ ->. by apply plain_middle in Hu.
  - injection H as _ <-. by apply plain_middle in Hu'.
  - injection H as -> H. destruct (IH s' H) as [-> ->]. done.
Qed.

Lemma pretty_N_go_plain x s : plain s → plain (pretty_N_go x s).
Proof.
  revert s. induction (N.lt_wf_0 x) as [x _ IH]. intros s Hs.
  destruct (decide (x = 0%N)) as [->|Hx].
  - by rewrite pretty_N_go_0.
  - rewrite pretty_N_go_step by lia. apply IH.
    + apply N.div_lt; lia.
    + split; [|done]. unfold pretty_N_char. by repeat case_match.
Qed.

Lemma pretty_Z_plain (z : Z) : plain (pretty z).
Proof.
  assert (∀ n : N, plain (pretty n)) as HN.
  { intros n. unfold pretty, pretty_N. case_decide; [by repeat split|].
    by apply pretty_N_go_plain. }
  unfold pretty, pretty_Z. destruct z as [|p|p]; simpl.
  - by repeat split.
  - apply HN.
  - split; [done|]. apply HN.
Qed.

(** Two records have the same identifier exactly when they have the same
    label, start and end. *)
Lemma ID_inj c r :
  ID c = ID r
  ↔ chrom c = chrom r ∧ chromStart c = chromStart r ∧ chromEnd c = chromEnd r.
Proof.
  assert (∀ x, ID x = (chrom x +:+ String "_" (pretty (chromStart x)))
                       +:+ String "_" (pretty (chromEnd x))) as HID.
  { intros x. unfold ID. by rewrite append_assoc. }
  split; [|by intros (H1 & H2 & H3); unfold ID; rewrite H1, H2, H3].
  rewrite !HID. intros H.
  apply cut_at_last_separator in H as [H HE]; [|apply pretty_Z_plain..].
  apply cut_at_last_separator in H as [HC HS]; [|apply pretty_Z_plain..].
  split; [done|]. split; by apply (inj pretty).
Qed.

(** *** Columns and files *)

Lemma flag_column_put_eq name v cs : flag_column name (put name v cs) = Some v.
Proof.
  induction cs as [|[n w] cs IH]; simpl; repeat case_decide; simpl;
    repeat case_decide; congruence.
Qed.

Lemma flag_column_put_ne name name' v cs :
  name ≠ name' → flag_column name' (put name v cs) = flag_column name' cs.
Proof.
  intros Hne. induction cs as [|[n w] cs IH]; simpl; repeat case_decide; simpl;
    repeat case_decide; congruence.
Qed.

Section pipeline_facts.
Context {F : Type} (repr : F → string).
Context (bedtools_intersect : list bed_row → list bed_row → F → list bed_row).

(** Distinct fractions are printed differently. *)
Hypothesis repr_inj : ∀ f g, repr f = repr g → f = g.

Lemma intersect_file_inj f g :
  intersect_file repr f = intersect_file repr g → f = g.
Proof.
  unfold intersect_file. intros H. apply repr_inj.
  apply (inj (String.app "intersect_ovlap")) in H.
  by apply append_inj_suffix in H.
Qed.

Lemma column_name_inj f g :
  column_name repr f = column_name repr g → f = g.
Proof.
  unfold column_name. intros H. apply repr_inj.
  by apply (inj (String.app "observed_in_parent_ovlap")) in H.
Qed.

Lemma intersect_file_not_bed f :
  intersect_file repr f ≠ child_bed ∧ intersect_file repr f ≠ parent_bed.
Proof. split; discriminate. Qed.

(** The first loop leaves one result file per fraction, computed from the
    two exported tables. *)
Lemma run_intersects_files OVERLAPS (fs : files) c p :
  fs !! child_bed = Some c →
  fs !! parent_bed = Some p →
  ∃ fs' : files,
    run_intersects repr bedtools_intersect OVERLAPS fs = Some fs'
    ∧ fs' !! child_bed = Some c
    ∧ fs' !! parent_bed = Some p
    ∧ (∀ f, f ∈ OVERLAPS →
         fs' !! intersect_file repr f = Some (bedtools_intersect c p f))
    ∧ (∀ name, (∀ f, f ∈ OVERLAPS → name ≠ intersect_file repr f) →
         fs' !! name = fs !! name).
Proof.
  revert fs. induction OVERLAPS as [|g rest IH]; intros fs Hc Hp; simpl.
  - exists fs. repeat split; try done. intros f Hf. by apply elem_of_nil in Hf.
  - unfold run_bedtools. rewrite Hc, Hp. simpl.
    destruct (intersect_file_not_bed g) as [Hnc Hnp].
    destruct (IH (<[intersect_file repr g := bedtools_intersect c p g]> fs))
      as (fs' & Hrun & Hc' & Hp' & Hfiles & Hother).
    { by rewrite lookup_insert_ne. }
    { by rewrite lookup_insert_ne. }
    exists fs'. repeat split; try done.
    + intros f [->|Hf]%elem_of_cons; [|by apply Hfiles].
      destruct (decide (intersect_file repr g ∈ intersect_file repr <$> rest))
        as [Hin|Hout].
      * apply list_elem_of_fmap in Hin as (f' & Heq & Hf').
        apply intersect_file_inj in Heq. subst f'. by apply Hfiles.
      * rewrite Hother, lookup_insert_eq; [done|].
        intros f' Hf' Heq. apply Hout. rewrite Heq.
        by apply list_elem_of_fmap_2.
    + intros name Hname. rewrite Hother.
      * rewrite lookup_insert_ne; [done|]. intros Heq.
        by apply (Hname g); [left|].
      * intros f Hf. apply Hname. by right.
Qed.

(** The second loop stops at the first fraction whose result cannot be
    read. *)
Lemma annotate_None OVERLAPS (fs : files) child f :
  f ∈ OVERLAPS →
  read_csv fs (intersect_file repr f) = None →
  annotate repr OVERLAPS fs child = None.
Proof.
  revert child. induction OVERLAPS as [|g rest IH]; intros child Hf Hread.
  - by apply elem_of_nil in Hf.
  - simpl. unfold annotate_one.
    destruct (read_csv fs (intersect_file repr g)) as [res|] eqn:E; [|done].
    simpl. apply IH; [|done].
    apply elem_of_cons in Hf as [->|Hf]; [congruence|done].
Qed.

(** When every result can be read, the second loop adds one column per
    fraction, each computed from the result file of its own fraction. *)
Lemma annotate_Some OVERLAPS (fs : files) child :
  (∀ f, f ∈ OVERLAPS → is_Some (read_csv fs (intersect_file repr f))) →
  ∃ out,
    annotate repr OVERLAPS fs child = Some out
    ∧ records out = records child
    ∧ (∀ f res, f ∈ OVERLAPS →
         read_csv fs (intersect_file repr f) = Some res →
         flag_column (column_name repr f) (flags out)
         = Some ((λ r, bool_decide (ID r ∈ ID <$> res)) <$> records child))
    ∧ (∀ name, (∀ f, f ∈ OVERLAPS → name ≠ column_name repr f) →
         flag_column name (flags out) = flag_column name (flags child)).
Proof.
  revert child. induction OVERLAPS as [|g rest IH]; intros child Hall; simpl.
  - exists child. repeat split; try done.
    intros f res Hf. by apply elem_of_nil in Hf.
  - unfold annotate_one.
    destruct (Hall g) as [resg Hg]; [by left|]. rewrite Hg. simpl.
    destruct (IH (with_column child (column_name repr g)
                    ((λ r, bool_decide (ID r ∈ ID <$> resg)) <$> records child)))
      as (out & Hrun & Hrec & Hcols & Hother).
    { intros f Hf. apply Hall. by right. }
    exists out. repeat split; try done.
    + intros f res [->|Hf]%elem_of_cons Hres; [|by apply Hcols].
      destruct (decide (column_name repr g ∈ column_name repr <$> rest))
        as [Hin|Hout].
      * apply list_elem_of_fmap in Hin as (f' & Heq & Hf').
        apply column_name_inj in Heq. subst f'. by apply Hcols.
      * rewrite Hother; simpl.
        -- rewrite flag_column_put_eq. rewrite Hg in Hres.
           by injection Hres as <-.
        -- intros f' Hf' Heq. apply Hout. rewrite Heq.
           by apply list_elem_of_fmap_2.
    + intros name Hname. rewrite Hother; simpl.
      * rewrite flag_column_put_ne; [done|]. intros Heq.
        by apply (Hname g); [left|].
      * intros f Hf. apply Hname. by right.
Qed.

(** A run in which every fraction has at least one supported child
    record: there is one flag per fraction and child record, and the flag
    at a fraction is decided by the output of the tool's own run at that
    fraction on the two complete tables. *)
Lemma pipeline_flags child_cnv parents_cnv OVERLAPS (fs : files) :
  child_cnv ≠ [] →
  (∀ f, f ∈ OVERLAPS → bedtools_intersect child_cnv parents_cnv f ≠ []) →
  ∃ out,
    pipeline repr bedtools_intersect child_cnv parents_cnv OVERLAPS fs = Some out
    ∧ records out = child_cnv
    ∧ ∀ f i r, f ∈ OVERLAPS → child_cnv !! i = Some r →
        observed repr out f i
        = Some (bool_decide
                  (ID r ∈ ID <$> bedtools_intersect child_cnv parents_cnv f)).
Proof.
  intros Hchild Hhit. unfold pipeline.
  destruct (run_intersects_files OVERLAPS
              (export_bed child_cnv parents_cnv fs) child_cnv parents_cnv)
    as (fs' & -> & Hc & Hp & Hfiles & _).
  { unfold export_bed. rewrite lookup_insert_ne by done.
    by rewrite lookup_insert_eq. }
  { unfold export_bed. by rewrite lookup_insert_eq. }
  simpl. unfold read_csv at 1. rewrite Hc. simpl.
  rewrite option_guard_True by done. simpl.
  assert (∀ f, f ∈ OVERLAPS →
            read_csv fs' (intersect_file repr f)
            = Some (bedtools_intersect child_cnv parents_cnv f)) as Hread.
  { intros f Hf. unfold read_csv. rewrite (Hfiles f Hf). simpl.
    rewrite option_guard_True by by apply Hhit. done. }
  destruct (annotate_Some OVERLAPS fs' (mkChild child_cnv []))
    as (out & -> & Hrec & Hcols & _).
  { intros f Hf. rewrite (Hread f Hf). eauto. }
  exists out. repeat split; try done.
  intros f i r Hf Hi. unfold observed.
  rewrite (Hcols f _ Hf (Hread f Hf)). simpl.
  by rewrite list_lookup_fmap, Hi.
Qed.

(** A fraction at which the tool reports nothing stops the run: no
    column is produced, for any fraction. *)
Lemma pipeline_empty_result child_cnv parents_cnv OVERLAPS (fs : files) f :
  f ∈ OVERLAPS →
  bedtools_intersect child_cnv parents_cnv f = [] →
  pipeline repr bedtools_intersect child_cnv parents_cnv OVERLAPS fs = None.
Proof.
  intros Hf Hempty. unfold pipeline.
  destruct (run_intersects_files OVERLAPS
              (export_bed child_cnv parents_cnv fs) child_cnv parents_cnv)
    as (fs' & -> & Hc & Hp & Hfiles & _).
  { unfold export_bed. rewrite lookup_insert_ne by done.
    by rewrite lookup_insert_eq. }
  { unfold export_bed. by rewrite lookup_insert_eq. }
  simpl. destruct (read_csv fs' child_bed) as [child|]; [|done]. simpl.
  apply (annotate_None _ _ _ f Hf).
  unfold read_csv. by rewrite (Hfiles f Hf), Hempty.
Qed.
End pipeline_facts.

(** *** The sample trio *)

Lemma fraction_repr_inj f g : fraction_repr f = fraction_repr g → f = g.
Proof. by destruct f, g. Qed.

Lemma reference_intersect_spec A B f r :
  r ∈ reference_intersect A B f
  ↔ r ∈ A ∧ ∃ p, p ∈ B ∧ reciprocal (fraction_value f) r p = true.
Proof.
  unfold reference_intersect. rewrite list_elem_of_bind. split.
  - intros (a & (b & Hr & Hb)%list_elem_of_bind & Ha).
    destruct (reciprocal (fraction_value f) a b) eqn:E;
      [|by apply elem_of_nil in Hr].
    apply list_elem_of_singleton in Hr as ->. eauto.
  - intros (Hr & p & Hp & E). exists r. split; [|done].
    apply list_elem_of_bind. exists p. rewrite E. split; [left|done].
Qed.

(** *** Fractions *)

(** C4, as the programs have it. The inheritance pipeline takes a list of
    fractions. When the child table is not empty and every fraction of the
    list has at least one supported child record, the run completes and
    gives, for every fraction of the list and every child record, one flag
    in the column named after the fraction: the flag is true exactly when
    the record's identifier is among those of the lines the tool reports in
    its own run at that fraction on the complete child and parent tables,
    that is, when some child record with the label, start and end of the
    record passes the tool's test at that fraction with some parental
    record. No flag depends on the
    result at another fraction. The concordance checker takes no fraction:
    its flag is the reciprocal test at the fixed fraction 0.5. *)
Theorem threshold_flags {F : Type} (repr : F → string)
    (bedtools_intersect : list bed_row → list bed_row → F → list bed_row)
    (test : F → bed_row → bed_row → bool)
    (child_cnv parents_cnv : list bed_row) (OVERLAPS : list F) (fs : files) :
  (∀ f g, repr f = repr g → f = g) →
  (∀ A B f r,
     r ∈ bedtools_intersect A B f ↔ r ∈ A ∧ ∃ p, p ∈ B ∧ test f r p = true) →
  child_cnv ≠ [] →
  (∀ f, f ∈ OVERLAPS →
     ∃ c p, c ∈ child_cnv ∧ p ∈ parents_cnv ∧ test f c p = true) →
  (∃ out,
     pipeline repr bedtools_intersect child_cnv parents_cnv OVERLAPS fs = Some out
     ∧ records out = child_cnv
     ∧ ∀ f i r, f ∈ OVERLAPS → child_cnv !! i = Some r →
         observed repr out f i
         = Some (bool_decide
                   (ID r ∈ ID <$> bedtools_intersect child_cnv parents_cnv f))
         ∧ (ID r ∈ ID <$> bedtools_intersect child_cnv parents_cnv f
            ↔ ∃ c, c ∈ child_cnv
                   ∧ (chrom c = chrom r ∧ chromStart c = chromStart r
                      ∧ chromEnd c = chromEnd r)
                   ∧ ∃ p, p ∈ parents_cnv ∧ test f c p = true))
  ∧ (∀ o, reciprocal_flag o = 1
          ↔ (0.5 * inject_Z (len_a o) <= inject_Z (overlap_len o))%Q
            ∧ (0.5 * inject_Z (len_b o) <= inject_Z (overlap_len o))%Q).
Proof.
  intros Hrepr Htool Hchild Hhit. split.
  - destruct (pipeline_flags repr bedtools_intersect Hrepr
                child_cnv parents_cnv OVERLAPS fs Hchild)
      as (out & Hrun & Hrec & Hflags).
    { intros f Hf Hempty. destruct (Hhit f Hf) as (c & p & Hc & Hp & Ht).
      assert (c ∈ bedtools_intersect child_cnv parents_cnv f) as Hin
        by (apply Htool; eauto).
      rewrite Hempty in Hin. by apply elem_of_nil in Hin. }
    exists out. split; [done|]. split; [done|].
    intros f i r Hf Hi. split; [by apply Hflags|].
    rewrite list_elem_of_fmap. split.
    + intros (c & Hid & (Hc & p & Hp & Ht)%Htool).
      symmetry in Hid. apply ID_inj in Hid. eauto 10.
    + intros (c & Hc & Hid%ID_inj & p & Hp & Ht). exists c. split; [done|].
      apply Htool. eauto.
  - intros o. rewrite reciprocal_flag_1.
    by rewrite <- !at_least_half_spec, !at_least_half_Q.
Qed.

(** C4 on a child with two records and the fractions 0.5 and 0.1: the
    second record is carried by a parent as it is, the first overlaps a
    parental record by half of its own length and a third of the
    parent's. *)
Lemma threshold_flags_sample :
  ∃ out,
    pipeline fraction_repr reference_intersect ex_child2 ex_parents2
      [f0_5; f0_1] ∅ = Some out
    ∧ observed fraction_repr out f0_5 0 = Some false
    ∧ observed fraction_repr out f0_5 1 = Some true
    ∧ observed fraction_repr out f0_1 0 = Some true
    ∧ observed fraction_repr out f0_1 1 = Some true.
Proof.
  destruct (threshold_flags fraction_repr reference_intersect
              (λ f, reciprocal (fraction_value f))
              ex_child2 ex_parents2 [f0_5; f0_1] ∅
              fraction_repr_inj reference_intersect_spec) as [(out & Hrun & _ & H) _].
  { discriminate. }
  { intros f _. exists (mkBed "S1_chr2" 1000 2000 ["DUP"]),
                       (mkBed "S1_chr2" 1000 2000 []).
    split; [right; left|]. split; [right; left|]. by destruct f. }
  exists out. split; [exact Hrun|].
  assert (f0_5 ∈ [f0_5; f0_1]) as H5 by left.
  assert (f0_1 ∈ [f0_5; f0_1]) as H1 by (right; left).
  destruct (H f0_5 0%nat _ H5 eq_refl) as [-> _].
  destruct (H f0_5 1%nat _ H5 eq_refl) as [-> _].
  destruct (H f0_1 0%nat _ H1 eq_refl) as [-> _].
  destruct (H f0_1 1%nat _ H1 eq_refl) as [-> _].
  repeat split; f_equal; by vm_compute.
Defined.

(** The statement of C4 fails in two ways. The concordance checker computes
    one flag per pair, at the fraction 0.5, and no other fraction can be
    asked for: the pair of the two sample inputs is flagged 0, although it
    passes the reciprocal test at the fraction 0.1. And in the inheritance
    pipeline the fractions are not independent: for the child and the
    parent with the same two intervals, the run with the fraction 0.1 alone
    flags the child record, and the run with the fractions 0.5 and 0.1
    stops without any flag, since nothing is reported at 0.5. *)
Lemma threshold_set_counterexample :
  (flag_overlaps (add_row_ids ex_a) (add_row_ids ex_b) = Some [mkFlagged 0 0 0]
   ∧ (main ex_a ex_b ≫= λ r, get_col (out_a r) "CNV_based_overlap") = Some [CInt 0]
   ∧ (0.1 * inject_Z (200 - 100) <= inject_Z (200 - 150))%Q
   ∧ (0.1 * inject_Z (300 - 150) <= inject_Z (200 - 150))%Q)
  ∧ (flags <$> pipeline fraction_repr reference_intersect ex_child ex_parents
                 [f0_1] ∅
     = Some [("observed_in_parent_ovlap0.1", [true])]
     ∧ pipeline fraction_repr reference_intersect ex_child ex_parents
         [f0_5; f0_1] ∅ = None).
Proof.
  split; [split; [reflexivity|split; [reflexivity|]]|].
  - split; by vm_compute.
  - split; by vm_compute.
Qed.

End TrioFacts.

(** ** Further facts about the concordance checker *)

Module ConcordanceExtra.
Import Frame Concordance ConcordanceSamples FrameFacts ConcordanceFacts.

Lemma sql_eq_iff x y : sql_eq x y = true ↔ x = y ∧ x ≠ CNA.
Proof.
  split; [apply sql_eq_true|]. intros [<- Hx].
  destruct x; simpl; try done; by apply bool_decide_eq_true.
Qed.

Lemma gene_on_iff a b :
  gene_on a b = true
  ↔ (g_SampleID a = g_SampleID b ∧ g_Type a = g_Type b ∧ Gene_ID a = Gene_ID b)
    ∧ g_SampleID a ≠ CNA ∧ g_Type a ≠ CNA ∧ Gene_ID a ≠ CNA.
Proof. unfold gene_on. rewrite !andb_true_iff, !sql_eq_iff. tauto. Qed.

Lemma gene_on_sym a b : gene_on a b = gene_on b a.
Proof.
  unfold gene_on.
  by rewrite (sql_eq_sym (g_SampleID a)), (sql_eq_sym (g_Type a)),
    (sql_eq_sym (Gene_ID a)).
Qed.

Lemma gene_matched_iff A tga tgb i a :
  registered_gene A = Some tga →
  tga !! i = Some a →
  Z.of_nat i ∈ gene_ids (left_join_flags tga tgb)
  ↔ ∃ b, b ∈ tgb ∧ gene_on a b = true.
Proof.
  intros Ht Hi. rewrite elem_of_gene_ids. split.
  - intros (a' & b & [k Hk]%list_elem_of_lookup & Hb & Hon & Hid).
    pose proof Hk as Hk'.
    apply (registered_gene_lookup _ _ _ _ Ht) in Hk'
      as (_ & s & ty & g & _ & _ & _ & ->).
    simpl in Hid. apply Nat2Z.inj in Hid. subst k.
    rewrite Hi in Hk. injection Hk as ->. eauto.
  - intros (b & Hb & Hon). exists a, b.
    repeat split; try done; [by eapply list_elem_of_lookup_2|].
    apply (registered_gene_lookup _ _ _ _ Ht) in Hi
      as (_ & s & ty & g & _ & _ & _ & ->). done.
Qed.

(** X1. With [Gene_ID] in both inputs, a record of [A] is written with
    [gene_based_overlap = 1] exactly when some record of [B] has the same
    [SampleID], [Type] and [Gene_ID], none of the three missing; neither
    coordinates nor chromosome enter the test. The partner is then written
    with 1 as well. *)
Theorem gene_flag_existential A B r tga tgb i a :
  main A B = Some r →
  has_col A "Gene_ID" = true →
  has_col B "Gene_ID" = true →
  registered_gene A = Some tga →
  registered_gene B = Some tgb →
  tga !! i = Some a →
  (cell_at (out_a r) "gene_based_overlap" i = Some (CInt 1)
   ↔ ∃ b, b ∈ tgb
          ∧ (g_SampleID a = g_SampleID b ∧ g_Type a = g_Type b
             ∧ Gene_ID a = Gene_ID b)
          ∧ g_SampleID a ≠ CNA ∧ g_Type a ≠ CNA ∧ Gene_ID a ≠ CNA)
  ∧ (∀ j b, tgb !! j = Some b → gene_on a b = true →
       cell_at (out_a r) "gene_based_overlap" i = Some (CInt 1)
       ∧ cell_at (out_b r) "gene_based_overlap" j = Some (CInt 1)).
Proof.
  intros Hm EA EB Htga Htgb Hi.
  destruct (out_gene A B r tga tgb Hm EA EB Htga Htgb) as [HoutA HoutB].
  assert (i < nrows A)%nat as Hlt.
  { by apply (registered_gene_lookup _ _ _ _ Htga) in Hi as [? _]. }
  split.
  - rewrite (HoutA i Hlt).
    pose proof (gene_matched_iff A tga tgb i a Htga Hi) as Hiff.
    assert ((∃ b, b ∈ tgb ∧ gene_on a b = true)
            ↔ ∃ b, b ∈ tgb
                ∧ (g_SampleID a = g_SampleID b ∧ g_Type a = g_Type b
                   ∧ Gene_ID a = Gene_ID b)
                ∧ g_SampleID a ≠ CNA ∧ g_Type a ≠ CNA ∧ Gene_ID a ≠ CNA) as Hex.
    { split; intros (b & Hb & H); exists b; (split; [done|]);
        by apply gene_on_iff. }
    rewrite <- Hex, <- Hiff. case_decide; split; done.
  - intros j b Hj Hon.
    assert (j < nrows B)%nat as Hltj.
    { by apply (registered_gene_lookup _ _ _ _ Htgb) in Hj as [? _]. }
    rewrite (HoutA i Hlt), (HoutB j Hltj).
    rewrite !decide_True; [done| |].
    + apply (gene_matched_iff B tgb tga j b Htgb Hj). exists a.
      split; [by eapply list_elem_of_lookup_2|]. by rewrite gene_on_sym.
    + apply (gene_matched_iff A tga tgb i a Htga Hi). exists b.
      split; [by eapply list_elem_of_lookup_2|done].
Qed.

(** X1 on the two records of gene [G1], which lie on different chromosomes
    at unrelated coordinates. *)
Lemma gene_flag_existential_sample :
  ∃ r, main ex_gene_a ex_gene_b = Some r
       ∧ cell_at (out_a r) "gene_based_overlap" 1 = Some (CInt 1)
       ∧ cell_at (out_b r) "gene_based_overlap" 1 = Some (CInt 1).
Proof.
  eexists. split; [reflexivity|].
  destruct (gene_flag_existential ex_gene_a ex_gene_b _ _ _ 1%nat _
              eq_refl eq_refl eq_refl eq_refl eq_refl eq_refl) as [_ H].
  apply (H 1%nat _ eq_refl eq_refl).
Defined.

(** *** Missing columns and missing keys *)

Lemma scan_missing df c :
  c ∈ ["rowid"; "SampleID"; "Chr"; "Start"; "End"; "Type"] →
  c ∉ columns df →
  scan df = None.
Proof.
  intros Hc Hout. unfold scan. rewrite option_guard_False; [done|].
  intros Hall. apply Hout. by apply (proj1 (Forall_forall _ _) Hall).
Qed.

Lemma lower_differs n c : lower n ≠ lower c → n ≠ c.
Proof. by intros H ->. Qed.

(** X2. When an input has no column for one of the five mandatory names,
    under any spelling in upper and lower case, the run stops with an
    error in the overlap query: nothing is written, not even for the other
    input. *)
Theorem missing_mandatory_column A B c :
  c ∈ mandatory →
  Forall (λ n, lower n ≠ lower c) (columns A)
  ∨ Forall (λ n, lower n ≠ lower c) (columns B) →
  main A B = None.
Proof.
  intros Hc Hmiss.
  assert (c ≠ "rowid") as Hne.
  { intros ->. unfold mandatory in Hc.
    repeat (apply elem_of_cons in Hc as [Hc|Hc]; [discriminate|]).
    by apply elem_of_nil in Hc. }
  assert (∀ df, Forall (λ n, lower n ≠ lower c) (columns df) →
            scan (add_row_ids df) = None) as Hscan.
  { intros df Hout. apply (scan_missing _ c); [by right|].
    unfold add_row_ids. rewrite columns_set_col_elem.
    intros [?|Hin]; [done|].
    by apply (lower_differs c c (proj1 (Forall_forall _ _) Hout c Hin)). }
  unfold main, flag_overlaps. destruct Hmiss as [HA|HB].
  - by rewrite (Hscan A HA).
  - rewrite (Hscan B HB). by destruct (scan (add_row_ids A)).
Qed.

(** X2 on a first input whose type column is called [Kind]. *)
Lemma missing_mandatory_column_sample : main ex_kind ex_b = None.
Proof.
  apply (missing_mandatory_column ex_kind ex_b "Type").
  - by apply (bool_decide_unpack _).
  - left. by apply (bool_decide_unpack _).
Defined.

Lemma same_key_not_null a b :
  same_key a b = true →
  (SampleID a ≠ CNA ∧ Chr a ≠ CNA ∧ Type_ a ≠ CNA)
  ∧ (SampleID b ≠ CNA ∧ Chr b ≠ CNA ∧ Type_ b ≠ CNA).
Proof.
  unfold same_key. rewrite !andb_true_iff, !sql_eq_iff.
  intros [[[E1 ?] [E2 ?]] [E3 ?]]. rewrite <- E1, <- E2, <- E3. tauto.
Qed.

(** X3. A record whose [SampleID], [Chr] or [Type] is missing is written
    with [CNV_based_overlap = 0], in either table, even when the other
    table holds the very same record: a missing value is equal to nothing
    in the join. *)
Theorem null_key_flag_zero A B r ta tb :
  main A B = Some r →
  registered A = Some ta →
  registered B = Some tb →
  (∀ i a, ta !! i = Some a →
     SampleID a = CNA ∨ Chr a = CNA ∨ Type_ a = CNA →
     cell_at (out_a r) "CNV_based_overlap" i = Some (CInt 0))
  ∧ (∀ j b, tb !! j = Some b →
       SampleID b = CNA ∨ Chr b = CNA ∨ Type_ b = CNA →
       cell_at (out_b r) "CNV_based_overlap" j = Some (CInt 0)).
Proof.
  intros Hm Ha Hb.
  destruct (out_cnv A B r ta tb Hm Ha Hb) as [HoutA HoutB]. split.
  - intros i a Hi Hnull. rewrite (HoutA i) by by eapply registered_lt.
    rewrite decide_False; [done|].
    rewrite (flagged_a_iff A B ta tb i a Ha Hb Hi).
    intros (b & _ & Hk%same_key_not_null & _). tauto.
  - intros j b Hj Hnull. rewrite (HoutB j) by by eapply registered_lt.
    rewrite decide_False; [done|].
    rewrite (flagged_b_iff A B ta tb j b Ha Hb Hj).
    intros (a & _ & Hk%same_key_not_null & _). tauto.
Qed.

(** X3 on a table compared with itself: the record without a sample
    identifier is not matched by its own copy. *)
Lemma null_key_flag_zero_sample :
  ∃ r, main ex_null_key ex_null_key = Some r
       ∧ cell_at (out_a r) "CNV_based_overlap" 0 = Some (CInt 0)
       ∧ cell_at (out_b r) "CNV_based_overlap" 0 = Some (CInt 0).
Proof.
  eexists. split; [reflexivity|].
  destruct (null_key_flag_zero ex_null_key ex_null_key _ _ _
              eq_refl eq_refl eq_refl) as [HA HB].
  split; [apply (HA 0%nat _ eq_refl) | apply (HB 0%nat _ eq_refl)];
    by left.
Defined.

(** *** A table against itself *)

Lemma self_pair a :
  Start a < End_ a →
  SampleID a ≠ CNA → Chr a ≠ CNA → Type_ a ≠ CNA →
  same_key a a = true ∧ candidate a a ∧ qualifies a a.
Proof.
  intros Hlen HS HC HT. split; [|split].
  - unfold same_key. rewrite !andb_true_iff, !sql_eq_iff. tauto.
  - unfold candidate. simpl. lia.
  - unfold qualifies. apply reciprocal_flag_1. simpl. lia.
Qed.

Lemma candidate_positive a b :
  candidate a b → Start a < End_ a ∧ Start b < End_ b.
Proof. unfold candidate. simpl. lia. Qed.

(** X4. When a table is compared with itself, a record is written with
    [CNV_based_overlap = 1] exactly when its end lies after its start and
    none of [SampleID], [Chr] and [Type] is missing; the two outputs are the
    same table. *)
Theorem self_comparison A r ta :
  main A A = Some r →
  registered A = Some ta →
  out_a r = out_b r
  ∧ ∀ i a, ta !! i = Some a →
      cell_at (out_a r) "CNV_based_overlap" i = Some (CInt 1)
      ↔ Start a < End_ a
        ∧ SampleID a ≠ CNA ∧ Chr a ≠ CNA ∧ Type_ a ≠ CNA.
Proof.
  intros Hm Ha. split.
  - pose proof Hm as H.
    apply main_inv in H
      as (ta1 & tb1 & ga & gb & msg & sm & Hta1 & Htb1 & Hg & _ & ->).
    simplify_eq. simpl.
    rewrite (overwrite_ext _ _ _ _ (flagged_ids_swap ta ta)).
    assert (ga = gb) as ->; [|done].
    destruct Hg as [(_ & _ & tga & tgb & Htga & Htgb & -> & ->)
                   |(_ & _ & -> & ->)]; [|done].
    by simplify_eq.
  - intros i a Hi.
    destruct (out_cnv A A r ta ta Hm Ha Ha) as [Hout _].
    rewrite (Hout i) by by eapply registered_lt.
    pose proof (flagged_a_iff A A ta ta i a Ha Ha Hi) as Hiff.
    case_decide as Hin; rewrite Hiff in Hin.
    + split; [intros _|done].
      destruct Hin as (b & _ & Hk%same_key_not_null & [? _]%candidate_positive & _).
      tauto.
    + split; [done|]. intros (Hlen & HS & HC & HT). exfalso. apply Hin.
      exists a. split; [by eapply list_elem_of_lookup_2|].
      by apply self_pair.
Qed.

(** X4 on [ex_null_key]: the complete record is flagged, the record without
    a sample identifier is not. *)
Lemma self_comparison_sample :
  ∃ r, main ex_null_key ex_null_key = Some r
       ∧ out_a r = out_b r
       ∧ cell_at (out_a r) "CNV_based_overlap" 1 = Some (CInt 1).
Proof.
  eexists. split; [reflexivity|].
  destruct (self_comparison ex_null_key _ _ eq_refl eq_refl) as [E H].
  split; [exact E|]. apply (H 1%nat _ eq_refl). by vm_compute.
Defined.

(** *** Lengths of matched records *)

(** X5. Two records reported with flag 1 both have their end after their
    start, share more than nothing and at most their whole length, and
    neither is more than twice as long as the other. *)
Theorem matched_lengths A B ta tb i j a b :
  registered A = Some ta →
  registered B = Some tb →
  ta !! i = Some a →
  tb !! j = Some b →
  mkFlagged (Z.of_nat i) (Z.of_nat j) 1 ∈ select_flags (overlaps_cte ta tb) →
  let len_a := End_ a - Start a in
  let len_b := End_ b - Start b in
  let shared := Z.min (End_ a) (End_ b) - Z.max (Start a) (Start b) in
  0 < len_a ∧ 0 < len_b
  ∧ 0 < shared ∧ shared ≤ len_a ∧ shared ≤ len_b
  ∧ len_a ≤ 2 * len_b ∧ len_b ≤ 2 * len_a.
Proof.
  intros Ha Hb Hi Hj Hin.
  apply (query_pair A B ta tb i j a b 1 Ha Hb Hi Hj) in Hin as (_ & Hpos & Hq).
  symmetry in Hq. apply reciprocal_flag_1 in Hq. simpl in *. lia.
Qed.

(** X5 on [ex_a] and the first record of [ex_two_partners]. *)
Lemma matched_lengths_sample :
  (0 < 200 - 100) ∧ (200 - 100 ≤ 2 * (200 - 100)).
Proof.
  destruct (matched_lengths ex_a ex_two_partners _ _ 0 0 _ _
              eq_refl eq_refl eq_refl eq_refl) as (H1 & _ & _ & _ & _ & H2 & _).
  { vm_compute. left. }
  split; [exact H1 | exact H2].
Defined.

(** *** The other table as a set of intervals *)

Lemma pair_tests_congruence a b b' :
  SampleID b = SampleID b' → Chr b = Chr b' → Type_ b = Type_ b' →
  Start b = Start b' → End_ b = End_ b' →
  same_key a b = same_key a b'
  ∧ (candidate a b ↔ candidate a b')
  ∧ (qualifies a b ↔ qualifies a b').
Proof.
  intros ES EC ET Es Ee. unfold same_key, candidate, qualifies, reciprocal_flag.
  simpl. by rewrite ES, EC, ET, Es, Ee.
Qed.

Lemma flagged_id_row A ta tb x :
  registered A = Some ta →
  x ∈ flagged_ids f_id_a (select_flags (overlaps_cte ta tb)) →
  ∃ i a, x = Z.of_nat i ∧ ta !! i = Some a.
Proof.
  intros Ha (f & Hf & _ & <-)%elem_of_flagged_ids.
  apply elem_of_query in Hf as (a & b & [i Hi]%list_elem_of_lookup & _ & _ & _ & ->).
  exists i, a. split; [|done]. simpl. by eapply scan_rowid.
Qed.

Lemma out_cnv_column A B r ta tb :
  main A B = Some r →
  registered A = Some ta →
  registered B = Some tb →
  get_col (out_a r) "CNV_based_overlap"
  = Some (overwrite (flagged_ids f_id_a (select_flags (overlaps_cte ta tb)))
            (CInt 1) (replicate (nrows A) (CInt 0)))
  ∧ get_col (out_b r) "CNV_based_overlap"
    = Some (overwrite (flagged_ids f_id_b (select_flags (overlaps_cte ta tb)))
              (CInt 1) (replicate (nrows B) (CInt 0))).
Proof.
  intros (ta' & tb' & ga & gb & msg & sm & Hta & Htb & _ & _ & ->)%main_inv
         Ha Hb.
  simplify_eq. cbn [out_a out_b].
  split; rewrite get_col_drop_ne by discriminate;
    rewrite get_col_set_col_ne by discriminate; apply get_col_set_col_eq.
Qed.

Lemma flagged_ids_covered A B B' ta tb tb' :
  registered A = Some ta →
  registered B = Some tb →
  registered B' = Some tb' →
  (∀ b, b ∈ tb →
     ∃ b', b' ∈ tb' ∧ SampleID b = SampleID b' ∧ Chr b = Chr b'
           ∧ Type_ b = Type_ b' ∧ Start b = Start b' ∧ End_ b = End_ b') →
  ∀ x, x ∈ flagged_ids f_id_a (select_flags (overlaps_cte ta tb)) →
       x ∈ flagged_ids f_id_a (select_flags (overlaps_cte ta tb')).
Proof.
  intros Ha Hb Hb' Hcov x Hx.
  destruct (flagged_id_row A ta tb x Ha Hx) as (i & a & -> & Hi).
  destruct (proj1 (flagged_a_iff A B ta tb i a Ha Hb Hi) Hx)
    as (b & Hin & Hk & Hc & Hq).
  destruct (Hcov b Hin) as (b' & Hin' & ES & EC & ET & Es & Ee).
  destruct (pair_tests_congruence a b b' ES EC ET Es Ee) as (Ek & Ec & Eq).
  apply (flagged_a_iff A B' ta tb' i a Ha Hb' Hi). exists b'.
  rewrite <- Ek. tauto.
Qed.

(** X6. The flags of [A] depend on the other table only through the set
    of its intervals, that is of the combinations of [SampleID], [Chr],
    [Type], [Start] and [End] it holds: when every interval of [B] is also
    in [B'], every record of [A] flagged against [B] is flagged against
    [B']; when [B] and [B'] hold the same intervals, in whatever order and
    however often, the flag column of [A] is the same. *)
Theorem flags_depend_on_intervals A B B' r r' ta tb tb' :
  main A B = Some r →
  main A B' = Some r' →
  registered A = Some ta →
  registered B = Some tb →
  registered B' = Some tb' →
  let covered (t t' : list cnv) :=
    ∀ b, b ∈ t →
      ∃ b', b' ∈ t' ∧ SampleID b = SampleID b' ∧ Chr b = Chr b'
            ∧ Type_ b = Type_ b' ∧ Start b = Start b' ∧ End_ b = End_ b' in
  (covered tb tb' →
   ∀ i, cell_at (out_a r) "CNV_based_overlap" i = Some (CInt 1) →
        cell_at (out_a r') "CNV_based_overlap" i = Some (CInt 1))
  ∧ (covered tb tb' → covered tb' tb →
     get_col (out_a r) "CNV_based_overlap" = get_col (out_a r') "CNV_based_overlap").
Proof.
  intros Hm Hm' Ha Hb Hb' covered.
  pose proof (flagged_ids_covered A B B' ta tb tb' Ha Hb Hb') as H12.
  pose proof (flagged_ids_covered A B' B ta tb' tb Ha Hb' Hb) as H21.
  destruct (out_cnv_column A B r ta tb Hm Ha Hb) as [Hcol _].
  destruct (out_cnv_column A B' r' ta tb' Hm' Ha Hb') as [Hcol' _].
  split.
  - intros Hcov i. unfold cell_at. rewrite Hcol, Hcol'. simpl.
    rewrite !overwrite_lookup.
    destruct (replicate (nrows A) (CInt 0) !! i) as [c|] eqn:E; [|done]. simpl.
    apply lookup_replicate in E as [-> _].
    repeat case_decide; try done. exfalso. auto.
  - intros Hcov Hcov'. rewrite Hcol, Hcol'. f_equal.
    apply overwrite_ext. intros x. split; auto.
Qed.

(** X6 on [ex_a] against the two records of [ex_two_partners] and against
    the same records in another order, one of them twice. *)
Lemma flags_depend_on_intervals_sample :
  ∃ r r', main ex_a ex_two_partners = Some r
          ∧ main ex_a ex_two_partners_shuffled = Some r'
          ∧ get_col (out_a r) "CNV_based_overlap"
            = get_col (out_a r') "CNV_based_overlap".
Proof.
  eexists _, _. split; [reflexivity|]. split; [reflexivity|].
  destruct (flags_depend_on_intervals ex_a ex_two_partners
              ex_two_partners_shuffled _ _ _ _ _
              eq_refl eq_refl eq_refl eq_refl eq_refl) as [_ H].
  apply H.
  - intros b Hb. vm_compute in Hb.
    apply elem_of_cons in Hb as [->|Hb];
      [eexists; split; [right; left|by repeat split]|].
    apply elem_of_cons in Hb as [->|Hb];
      [eexists; split; [left|by repeat split]|].
    by apply elem_of_nil in Hb.
  - intros b Hb. vm_compute in Hb.
    apply elem_of_cons in Hb as [->|Hb];
      [eexists; split; [right; left|by repeat split]|].
    apply elem_of_cons in Hb as [->|Hb];
      [eexists; split; [left|by repeat split]|].
    apply elem_of_cons in Hb as [->|Hb];
      [eexists; split; [right; left|by repeat split]|].
    by apply elem_of_nil in Hb.
Defined.

(** *** The summary *)

Lemma marks_01 labels n :
  Forall (λ x, x = CInt 0 ∨ x = CInt 1)
    (overwrite labels (CInt 1) (replicate n (CInt 0))).
Proof.
  apply Forall_lookup. intros i x Hx.
  rewrite overwrite_lookup in Hx.
  destruct (replicate n (CInt 0) !! i) as [c|] eqn:E; [|done].
  apply lookup_replicate in E as [-> _]. simpl in Hx.
  case_decide; simplify_eq; auto.
Qed.

Lemma marks_length labels n :
  length (overwrite labels (CInt 1) (replicate n (CInt 0))) = n.
Proof. by rewrite overwrite_length, length_replicate. Qed.

Lemma sum_01 c :
  Forall (λ x, x = CInt 0 ∨ x = CInt 1) c →
  sum c = Z.of_nat (length (filter (λ x, x = CInt 1) c)).
Proof.
  induction 1 as [|x c Hx _ IH]; [done|].
  rewrite filter_cons. change (sum (x :: c)) with (cell_Z x + sum c).
  rewrite IH. destruct Hx as [->| ->]; simpl cell_Z.
  - rewrite decide_False by done. lia.
  - rewrite decide_True by done. simpl length. lia.
Qed.

Lemma count_both_le c g :
  0 ≤ count_both c g
  ∧ count_both c g ≤ Z.of_nat (length (filter (λ x, x = CInt 1) c))
  ∧ count_both c g ≤ Z.of_nat (length (filter (λ x, x = CInt 1) g)).
Proof.
  unfold count_both. split; [lia|].
  revert g. induction c as [|x c IH]; intros [|y g]; cbn [zip zip_with];
    rewrite ?filter_nil; simpl length; try lia.
  specialize (IH g). rewrite !filter_cons. cbn [fst snd].
  destruct (decide (x = CInt 1 ∧ y = CInt 1)) as [[-> ->]|Hno].
  - rewrite !decide_True by done. simpl length. lia.
  - destruct (decide (x = CInt 1)), (decide (y = CInt 1)); simpl length;
      try lia; tauto.
Qed.

Lemma any_notna_01 g :
  Forall (λ x, x = CInt 0 ∨ x = CInt 1) g →
  g ≠ [] → any_notna g = true.
Proof. intros [|x g' [->| ->] _] ?; done. Qed.

Lemma ones_le_length (c : list cell) :
  (length (filter (λ x, x = CInt 1) c) ≤ length c)%nat.
Proof. apply length_filter. Qed.

Lemma summary_of_flags name df c g :
  summary_of name (set_col (set_col df "CNV_based_overlap" c)
                     "gene_based_overlap" g)
  = Some ([Total name (nrows df); CNVOverlap (sum c) (nrows df)]
          ++ (if any_notna g
              then [GeneOverlap (sum g) (nrows df);
                    BothOverlap (count_both c g) (nrows df)]
              else [])
          ++ [Blank])%list.
Proof.
  unfold summary_of.
  repeat first [ rewrite get_col_set_col_eq
               | rewrite get_col_set_col_ne by discriminate ].
  simpl. by destruct (any_notna g).
Qed.

(** X7. The summary of a run. For each file the console gives the number
    of rows of the input and the number of its records written with
    [CNV_based_overlap = 1], which is at most the number of rows. The gene
    lines of a file are absent when [Gene_ID] is missing from an input; when
    it is in both inputs and the file has a record, they give the number of
    records written with [gene_based_overlap = 1] and the number written
    with both flags 1, which exceeds neither of the two other counts. *)
Theorem summary_counts A B r :
  main A B = Some r →
  let ones (c : list cell) := Z.of_nat (length (filter (λ x, x = CInt 1) c)) in
  let gene_lines (df out : DataFrame) (c : list cell) (l : list line) :=
    (has_col A "Gene_ID" && has_col B "Gene_ID" = false → l = [])
    ∧ (has_col A "Gene_ID" && has_col B "Gene_ID" = true →
       (0 < nrows df)%nat →
       ∃ g, get_col out "gene_based_overlap" = Some g
            ∧ l = [GeneOverlap (ones g) (nrows df);
                   BothOverlap (count_both c g) (nrows df)]
            ∧ 0 ≤ count_both c g
            ∧ count_both c g ≤ ones c
            ∧ count_both c g ≤ ones g
            ∧ ones g ≤ Z.of_nat (nrows df)) in
  ∃ ca cb la lb msg,
    get_col (out_a r) "CNV_based_overlap" = Some ca
    ∧ get_col (out_b r) "CNV_based_overlap" = Some cb
    ∧ console r
      = ([Info "[INFO] Computing reciprocal overlaps >= 50% ..."; Info msg;
          SummaryHeader;
          Total "File A" (nrows A); CNVOverlap (ones ca) (nrows A)]
         ++ la
         ++ [Blank; Total "File B" (nrows B); CNVOverlap (ones cb) (nrows B)]
         ++ lb
         ++ [Blank; Saving; Info "[INFO] Done."])%list
    ∧ ones ca ≤ Z.of_nat (nrows A)
    ∧ ones cb ≤ Z.of_nat (nrows B)
    ∧ gene_lines A (out_a r) ca la
    ∧ gene_lines B (out_b r) cb lb.
Proof.
  intros Hm ones gene_lines.
  pose proof Hm as H.
  apply main_inv in H
    as (ta & tb & ga & gb & msg & sm & Hta & Htb & Hg & Hsum & ->).
  unfold print_summary in Hsum. rewrite !summary_of_flags in Hsum.
  simpl in Hsum. injection Hsum as <-.
  set (ca := overwrite (flagged_ids f_id_a (select_flags (overlaps_cte ta tb)))
               (CInt 1) (replicate (nrows A) (CInt 0))) in *.
  set (cb := overwrite (flagged_ids f_id_b (select_flags (overlaps_cte ta tb)))
               (CInt 1) (replicate (nrows B) (CInt 0))) in *.
  assert (sum ca = ones ca ∧ sum cb = ones cb) as [Eca Ecb]
    by (split; apply sum_01, marks_01).
  assert (ones ca ≤ Z.of_nat (nrows A) ∧ ones cb ≤ Z.of_nat (nrows B)) as [? ?].
  { split; unfold ones.
    - pose proof (ones_le_length ca). unfold ca in *.
      rewrite marks_length in *. lia.
    - pose proof (ones_le_length cb). unfold cb in *.
      rewrite marks_length in *. lia. }
  exists ca, cb,
    (if any_notna ga
     then [GeneOverlap (sum ga) (nrows A); BothOverlap (count_both ca ga) (nrows A)]
     else []),
    (if any_notna gb
     then [GeneOverlap (sum gb) (nrows B); BothOverlap (count_both cb gb) (nrows B)]
     else []),
    msg.
  cbn [out_a out_b console].
  split; [by rewrite get_col_drop_ne, get_col_set_col_ne, get_col_set_col_eq
            by discriminate|].
  split; [by rewrite get_col_drop_ne, get_col_set_col_ne, get_col_set_col_eq
            by discriminate|].
  split.
  { rewrite Eca, Ecb. by destruct (any_notna ga), (any_notna gb). }
  split; [done|]. split; [done|].
  destruct Hg as [(E & _ & tga & tgb & _ & _ & -> & ->)|(E & _ & -> & ->)].
  - split; (split; [by rewrite E|]); intros _ Hpos;
      rewrite get_col_drop_ne, get_col_set_col_eq by discriminate;
      eexists; (split; [done|]);
      rewrite any_notna_01, sum_01;
      try apply marks_01;
      try (intros Hnil%(f_equal length); rewrite marks_length in Hnil;
           simpl in Hnil; lia).
    + split; [done|].
      pose proof (count_both_le ca
                    (overwrite (gene_ids (left_join_flags tga tgb)) (CInt 1)
                       (replicate (nrows A) (CInt 0)))) as (? & ? & ?).
      pose proof (ones_le_length
                    (overwrite (gene_ids (left_join_flags tga tgb)) (CInt 1)
                       (replicate (nrows A) (CInt 0)))) as Hle.
      rewrite marks_length in Hle. unfold ones. repeat split; try done; lia.
    + split; [done|].
      pose proof (count_both_le cb
                    (overwrite (gene_ids (left_join_flags tgb tga)) (CInt 1)
                       (replicate (nrows B) (CInt 0)))) as (? & ? & ?).
      pose proof (ones_le_length
                    (overwrite (gene_ids (left_join_flags tgb tga)) (CInt 1)
                       (replicate (nrows B) (CInt 0)))) as Hle.
      rewrite marks_length in Hle. unfold ones. repeat split; try done; lia.
  - rewrite !any_notna_replicate_NA.
    split; (split; [done|]); intros E'; congruence.
Qed.

(** X7 on the two tables with a [Gene_ID] column: two records each, none
    matched by coordinates, one matched by gene. *)
Lemma summary_counts_sample :
  ∃ r ca, main ex_gene_a ex_gene_b = Some r
          ∧ get_col (out_a r) "CNV_based_overlap" = Some ca
          ∧ console r !! 4%nat
            = Some (CNVOverlap
                      (Z.of_nat (length (filter (λ x, x = CInt 1) ca))) 2)
          ∧ console r !! 5%nat = Some (GeneOverlap 1 2).
Proof.
  destruct (summary_counts ex_gene_a ex_gene_b _ eq_refl)
    as (ca & cb & la & lb & msg & Hca & _ & Hc & _ & _ & [_ Hla] & _).
  destruct (Hla eq_refl) as (g & Hg & -> & _); [simpl; lia|].
  eexists _, ca. split; [reflexivity|]. split; [exact Hca|].
  rewrite Hc. split; [reflexivity|].
  vm_compute in Hg. injection Hg as <-. reflexivity.
Defined.

(** *** The gene column and the overlap flags *)

Lemma columns_drop_elem df name c :
  c ∈ columns (drop df name) ↔ c ∈ columns df ∧ c ≠ name.
Proof.
  unfold columns, drop. simpl. rewrite filter_names, list_elem_of_filter. tauto.
Qed.

Lemma registered_drop A name :
  name ∉ ["rowid"; "SampleID"; "Chr"; "Start"; "End"; "Type"] →
  registered (drop A name) = registered A.
Proof.
  intros Hname. unfold registered, scan.
  assert (Forall (λ c, c ∈ columns (add_row_ids (drop A name)))
            ["rowid"; "SampleID"; "Chr"; "Start"; "End"; "Type"]
          ↔ Forall (λ c, c ∈ columns (add_row_ids A))
              ["rowid"; "SampleID"; "Chr"; "Start"; "End"; "Type"]) as Hg.
  { rewrite !Forall_forall. unfold add_row_ids.
    split; intros H c Hc; specialize (H c Hc);
      apply columns_set_col_elem; apply columns_set_col_elem in H as [->|H];
      auto; right.
    - by apply columns_drop_elem in H as [? _].
    - apply columns_drop_elem. split; [done|]. by intros ->. }
  assert (∀ i, cnv_at (add_row_ids (drop A name)) i = cnv_at (add_row_ids A) i)
    as Hrow.
  { intros i. unfold cnv_at, add_row_ids, int_at.
    rewrite !cell_at_set_col_eq. simpl nrows.
    rewrite !cell_at_set_col_ne by discriminate.
    rewrite !cell_at_drop_ne; [done|..]; intros <-; apply Hname;
      repeat first [by left | right]. }
  simpl. repeat case_guard; try tauto; simpl; try done.
  apply mapM_ext. intros i. apply Hrow.
Qed.

Lemma has_col_drop df name : has_col (drop df name) name = false.
Proof. apply bool_decide_eq_false. apply columns_drop. Qed.

(** X8. The overlap flags do not depend on the gene check: the run on the
    two inputs without their [Gene_ID] columns completes whenever the run
    on the inputs does, and writes the same [CNV_based_overlap] columns;
    its [gene_based_overlap] columns are missing values throughout. *)
Theorem overlap_flags_without_gene_column A B r :
  main A B = Some r →
  ∃ r', main (drop A "Gene_ID") (drop B "Gene_ID") = Some r'
        ∧ get_col (out_a r') "CNV_based_overlap"
          = get_col (out_a r) "CNV_based_overlap"
        ∧ get_col (out_b r') "CNV_based_overlap"
          = get_col (out_b r) "CNV_based_overlap"
        ∧ get_col (out_a r') "gene_based_overlap"
          = Some (replicate (nrows A) CNA)
        ∧ get_col (out_b r') "gene_based_overlap"
          = Some (replicate (nrows B) CNA).
Proof.
  intros Hm.
  pose proof Hm as H.
  apply main_inv in H as (ta & tb & _ & _ & _ & _ & Hta & Htb & _).
  destruct (out_cnv_column A B r ta tb Hm Hta Htb) as [-> ->].
  assert (registered (drop A "Gene_ID") = Some ta) as Hta'
    by (rewrite registered_drop; [done|fresh_name]).
  assert (registered (drop B "Gene_ID") = Some tb) as Htb'
    by (rewrite registered_drop; [done|fresh_name]).
  assert (∃ r', main (drop A "Gene_ID") (drop B "Gene_ID") = Some r'
                ∧ get_col (out_a r') "gene_based_overlap"
                  = Some (replicate (nrows A) CNA)
                ∧ get_col (out_b r') "gene_based_overlap"
                  = Some (replicate (nrows B) CNA)) as (r' & Hm' & HgA & HgB).
  { unfold main, flag_overlaps.
    pose proof Hta' as Hs. pose proof Htb' as Hs'.
    unfold registered in Hs, Hs'. rewrite Hs, Hs'. simpl.
    rewrite (loc_set_set_const_total (add_row_ids (drop A "Gene_ID")))
      by (by apply (flagged_ids_range_a (drop A "Gene_ID"))). simpl.
    rewrite (loc_set_set_const_total (add_row_ids (drop B "Gene_ID")))
      by (by apply (flagged_ids_range_b (drop B "Gene_ID"))). simpl.
    unfold add_row_ids at 1 2.
    rewrite !has_col_set_col_ne by discriminate.
    rewrite !has_col_drop. simpl. unfold set_const. simpl.
    rewrite (print_summary_skipped (add_row_ids (drop A "Gene_ID"))
               (add_row_ids (drop B "Gene_ID"))). simpl.
    eexists. split; [done|]. simpl.
    by rewrite !get_col_drop_ne, !get_col_set_col_eq by discriminate. }
  exists r'. split; [done|].
  destruct (out_cnv_column _ _ r' ta tb Hm' Hta' Htb') as [-> ->].
  repeat split; try done.
Qed.

(** X8 on the two tables with a [Gene_ID] column. *)
Lemma overlap_flags_without_gene_column_sample :
  ∃ r r', main ex_gene_a ex_gene_b = Some r
          ∧ main (drop ex_gene_a "Gene_ID") (drop ex_gene_b "Gene_ID") = Some r'
          ∧ get_col (out_a r') "CNV_based_overlap"
            = get_col (out_a r) "CNV_based_overlap".
Proof.
  destruct (overlap_flags_without_gene_column ex_gene_a ex_gene_b _ eq_refl)
    as (r' & Hm' & HA & _).
  eexists _, r'. split; [reflexivity|]. split; [exact Hm'|exact HA].
Defined.

(** *** The shape of the outputs *)

Lemma assign_NoDup name v (cs : list (string * list cell)) :
  NoDup cs.*1 → NoDup (assign name v cs).*1.
Proof.
  intros Hnd. destruct (decide (name ∈ cs.*1)) as [Hin|Hout].
  - by rewrite assign_names_old.
  - rewrite assign_names_new by done. apply NoDup_app. split; [done|].
    split; [|apply NoDup_singleton].
    intros x Hx ->%list_elem_of_singleton. done.
Qed.

Lemma set_col_well_formed df name v :
  well_formed df → length v = nrows df → well_formed (set_col df name v).
Proof.
  intros [Hr Hnd] Hv. split.
  - unfold rectangular, set_col. simpl. by apply assign_rectangular.
  - by apply assign_NoDup.
Qed.

Lemma drop_well_formed df name : well_formed df → well_formed (drop df name).
Proof.
  intros [Hr Hnd]. split.
  - unfold rectangular, drop. simpl. apply Forall_forall.
    intros c [_ Hc]%list_elem_of_filter.
    by apply (proj1 (Forall_forall _ _) Hr).
  - unfold columns, drop. simpl. rewrite filter_names. by apply NoDup_filter.
Qed.

(** X9. The two outputs are tables: when an input has one value per row in
    every column and pairwise distinct column names, so has its output. *)
Theorem output_well_formed A B r :
  main A B = Some r →
  (well_formed A → well_formed (out_a r))
  ∧ (well_formed B → well_formed (out_b r)).
Proof.
  intros (ta & tb & ga & gb & msg & sm & _ & _ & Hg & _ & ->)%main_inv.
  assert (length ga = nrows A ∧ length gb = nrows B) as [Hga Hgb].
  { destruct Hg as [(_ & _ & tga & tgb & _ & _ & -> & ->)|(_ & _ & -> & ->)];
      by rewrite ?overwrite_length, !length_replicate. }
  cbn [out_a out_b].
  split; intros Hwf; apply drop_well_formed, set_col_well_formed; try done;
    apply set_col_well_formed;
    try (by rewrite overwrite_length, length_replicate);
    apply set_col_well_formed; try done;
    by rewrite length_fmap, length_seq.
Qed.

(** X9 on the two sample inputs. *)
Lemma output_well_formed_sample :
  ∃ r, main ex_a ex_b = Some r ∧ well_formed (out_a r) ∧ well_formed (out_b r).
Proof.
  eexists. split; [reflexivity|].
  destruct (output_well_formed ex_a ex_b _ eq_refl) as [HA HB].
  split; [apply HA|apply HB];
    (split; by apply (bool_decide_unpack _)).
Defined.

(** *** The rows of the gene query *)

Lemma left_join_block a tb :
  ∃ blk, left_join_flags [a] tb = blk
    ∧ Forall (λ f, g_id f = g_rowid a) blk
    ∧ length blk
      = (1 `max` length (filter (λ b, gene_on a b = true) tb))%nat
    ∧ (mkGeneFlag (g_rowid a) 0 ∈ blk
       ↔ filter (λ b, gene_on a b = true) tb = []).
Proof.
  eexists. split; [done|]. unfold left_join_flags. simpl.
  rewrite app_nil_r.
  destruct (filter (λ b, gene_on a b = true) tb) as [|b m]; cbn iota.
  - repeat split; [by repeat constructor|by left].
  - repeat split.
    + constructor; [done|]. apply Forall_forall.
      by intros f (? & -> & _)%list_elem_of_fmap.
    + simpl. rewrite length_fmap. lia.
    + intros [?|(? & ? & _)%list_elem_of_fmap]%elem_of_cons; done.
    + done.
Qed.

Lemma left_join_cons a ta tb :
  left_join_flags (a :: ta) tb
  = (left_join_flags [a] tb ++ left_join_flags ta tb)%list.
Proof. unfold left_join_flags. simpl. by rewrite app_nil_r. Qed.

Lemma filter_all {T} (P : T → Prop) `{∀ x, Decision (P x)} l :
  Forall P l → filter P l = l.
Proof.
  induction 1 as [|x l Hx _ IH]; [done|].
  by rewrite filter_cons, decide_True, IH.
Qed.

Lemma filter_none {T} (P : T → Prop) `{∀ x, Decision (P x)} l :
  Forall (λ x, ¬ P x) l → filter P l = [].
Proof.
  induction 1 as [|x l Hx _ IH]; [done|].
  by rewrite filter_cons, decide_False, IH.
Qed.

Lemma left_join_other_ids ta tb x :
  (∀ a, a ∈ ta → g_rowid a ≠ x) →
  filter (λ f, g_id f = x) (left_join_flags ta tb) = [].
Proof.
  induction ta as [|a ta IH]; intros Hne; [done|].
  rewrite left_join_cons, filter_app, IH by (intros; apply Hne; by right).
  rewrite app_nil_r.
  destruct (left_join_block a tb) as (blk & -> & Hids & _).
  apply filter_none. apply (Forall_impl _ _ _ Hids).
  intros f ->. apply Hne. by left.
Qed.

Lemma left_join_rows ta tb a :
  NoDup (g_rowid <$> ta) →
  a ∈ ta →
  length (filter (λ f, g_id f = g_rowid a) (left_join_flags ta tb))
  = (1 `max` length (filter (λ b, gene_on a b = true) tb))%nat.
Proof.
  induction ta as [|a' ta IH]; intros Hnd Hin; [by apply elem_of_nil in Hin|].
  rewrite fmap_cons in Hnd. apply NoDup_cons in Hnd as [Hfresh Hnd].
  rewrite left_join_cons, filter_app, length_app.
  apply elem_of_cons in Hin as [->|Hin].
  - rewrite (left_join_other_ids ta tb).
    2:{ intros b Hb Heq. apply Hfresh. rewrite <- Heq.
        by apply (list_elem_of_fmap_2 g_rowid). }
    destruct (left_join_block a' tb) as (blk & -> & Hids & Hlen & _).
    rewrite filter_all by done. simpl. lia.
  - rewrite IH by done.
    destruct (left_join_block a' tb) as (blk & -> & Hids & _).
    rewrite filter_none; [done|].
    apply (Forall_impl _ _ _ Hids). intros f -> Heq. apply Hfresh.
    rewrite Heq. by apply (list_elem_of_fmap_2 g_rowid).
Qed.

Lemma registered_gene_ids A tga :
  registered_gene A = Some tga →
  g_rowid <$> tga = Z.of_nat <$> seq 0 (nrows A).
Proof.
  intros Ht. apply list_eq. intros i.
  rewrite !list_lookup_fmap.
  destruct (tga !! i) as [a|] eqn:Hi.
  - apply (registered_gene_lookup _ _ _ _ Ht) in Hi
      as (Hlt & s & ty & g & _ & _ & _ & ->).
    by rewrite lookup_seq_lt.
  - destruct (decide (i < nrows A)%nat) as [Hlt|Hge];
      [|by rewrite lookup_seq_ge by lia].
    exfalso.
    pose proof Ht as Hs. unfold registered_gene, scan_gene in Hs.
    simpl in Hs. case_guard; [|done]. simpl in Hs.
    apply mapM_Some, Forall2_length in Hs. rewrite length_seq in Hs.
    apply lookup_ge_None in Hi. simpl in Hs. lia.
Qed.

(** X10. The gene query is a left join: its result holds every row of the
    left table, once when the row has no partner, with flag 0, and once for
    each of its partners otherwise, with flag 1; it holds nothing else. *)
Theorem gene_query_rows A B gf tga tgb :
  flag_gene_matches (add_row_ids A) (add_row_ids B) = Some gf →
  registered_gene A = Some tga →
  registered_gene B = Some tgb →
  (∀ f, f ∈ gf →
     (gene_based_overlap f = 0 ∨ gene_based_overlap f = 1)
     ∧ 0 ≤ g_id f < Z.of_nat (nrows A))
  ∧ ∀ i a, tga !! i = Some a →
      let partners := filter (λ b, gene_on a b = true) tgb in
      length (filter (λ f, g_id f = Z.of_nat i) gf)
      = (1 `max` length partners)%nat
      ∧ (mkGeneFlag (Z.of_nat i) 0 ∈ gf ↔ partners = [])
      ∧ (mkGeneFlag (Z.of_nat i) 1 ∈ gf ↔ partners ≠ []).
Proof.
  intros Hgf Htga Htgb.
  unfold flag_gene_matches in Hgf.
  pose proof Htga as Hs. pose proof Htgb as Hs'.
  unfold registered_gene in Hs, Hs'. rewrite Hs, Hs' in Hgf. simpl in Hgf.
  injection Hgf as <-.
  assert (∀ i a, tga !! i = Some a → g_rowid a = Z.of_nat i) as Hid.
  { intros i a Hi.
    by apply (registered_gene_lookup _ _ _ _ Htga) in Hi
      as (_ & s & ty & g & _ & _ & _ & ->). }
  assert (NoDup (g_rowid <$> tga)) as Hnd.
  { rewrite (registered_gene_ids A tga Htga).
    apply NoDup_fmap; [apply _|apply NoDup_seq]. }
  assert (∀ f, f ∈ left_join_flags tga tgb →
            ∃ i a, tga !! i = Some a ∧ g_id f = Z.of_nat i
              ∧ (f = mkGeneFlag (Z.of_nat i) 0
                 ∧ filter (λ b, gene_on a b = true) tgb = []
                 ∨ f = mkGeneFlag (Z.of_nat i) 1
                   ∧ filter (λ b, gene_on a b = true) tgb ≠ [])) as Hrows.
  { intros f Hf. unfold left_join_flags in Hf.
    apply list_elem_of_bind in Hf as (a & Hf & [i Hi]%list_elem_of_lookup).
    exists i, a. rewrite <- (Hid i a Hi). split; [done|].
    destruct (filter (λ b, gene_on a b = true) tgb) as [|b m].
    - apply list_elem_of_singleton in Hf as ->. auto.
    - apply list_elem_of_fmap in Hf as (? & -> & _). auto. }
  split.
  - intros f (i & a & Hi & -> & Hcase)%Hrows. split.
    + destruct Hcase as [[-> _]|[-> _]]; auto.
    + apply (registered_gene_lookup _ _ _ _ Htga) in Hi as [Hlt _]. lia.
  - intros i a Hi partners.
    assert (a ∈ tga) as Hin by by eapply list_elem_of_lookup_2.
    split; [|split].
    + rewrite <- (Hid i a Hi). by apply left_join_rows.
    + split.
      * intros (i' & a' & Hi' & Heq & Hcase)%Hrows. simpl in Heq.
        apply Nat2Z.inj in Heq. subst i'. simplify_eq.
        by destruct Hcase as [[_ ?]|[? _]].
      * intros Hnone. unfold left_join_flags. apply list_elem_of_bind.
        exists a. split; [|done]. fold partners. rewrite Hnone.
        rewrite (Hid i a Hi). left.
    + split.
      * intros (i' & a' & Hi' & Heq & Hcase)%Hrows. simpl in Heq.
        apply Nat2Z.inj in Heq. subst i'. simplify_eq.
        by destruct Hcase as [[? _]|[_ ?]].
      * intros Hsome. unfold left_join_flags. apply list_elem_of_bind.
        exists a. split; [|done]. fold partners.
        destruct partners as [|b m]; [done|].
        rewrite (Hid i a Hi). apply (list_elem_of_fmap_2' _ _ b); [left|done].
Qed.

(** X10 on the two tables with a [Gene_ID] column. *)
Lemma gene_query_rows_sample :
  ∃ gf, flag_gene_matches (add_row_ids ex_gene_a) (add_row_ids ex_gene_b)
        = Some gf
        ∧ mkGeneFlag 0 0 ∈ gf ∧ mkGeneFlag 1 1 ∈ gf
        ∧ length (filter (λ f, g_id f = 1) gf) = 1%nat.
Proof.
  eexists. split; [reflexivity|].
  destruct (gene_query_rows ex_gene_a ex_gene_b _ _ _ eq_refl eq_refl eq_refl)
    as [_ H].
  destruct (H 0%nat _ eq_refl) as (_ & H0 & _).
  destruct (H 1%nat _ eq_refl) as (Hl & _ & H1).
  split; [by apply H0|]. split; [by apply H1|exact Hl].
Defined.

End ConcordanceExtra.

(** ** Further facts about the inheritance pipeline *)

Module TrioExtra.
Import Trio TrioSetup TrioFacts.

(** *** Splitting and joining *)

Lemma split_nonempty sep s : split sep s ≠ [].
Proof.
  destruct s as [|c s]; simpl; [done|].
  case_decide; [done|]. by destruct (split sep s).
Qed.

Lemma split_cons_other sep c s :
  c ≠ sep →
  ∃ piece pieces, split sep s = piece :: pieces
    ∧ split sep (String c s) = String c piece :: pieces.
Proof.
  intros Hc. simpl. rewrite decide_False by done.
  destruct (split sep s) as [|piece pieces] eqn:E; [by apply split_nonempty in E|].
  eauto.
Qed.

Lemma split_free sep s : free sep s → split sep s = [s].
Proof.
  induction s as [|c s IH]; [done|]. intros [Hc Hs].
  destruct (split_cons_other sep c s Hc) as (p & ps & E & ->).
  rewrite IH in E by done. by injection E as <- <-.
Qed.

(** Splitting at a separator that was put in. *)
Lemma split_append sep s t :
  split sep (s +:+ String sep t) = (split sep s ++ split sep t)%list.
Proof.
  induction s as [|c s IH].
  - rewrite append_nil. simpl. by rewrite decide_True.
  - rewrite append_cons. destruct (decide (c = sep)) as [->|Hc].
    + simpl. rewrite !decide_True by done. by rewrite IH.
    + destruct (split_cons_other sep c (s +:+ String sep t) Hc)
        as (p & ps & E & ->).
      destruct (split_cons_other sep c s Hc) as (p' & ps' & E' & ->).
      rewrite IH, E' in E. by injection E as <- <-.
Qed.

Lemma split_join sep items :
  Forall (free sep) items → items ≠ [] →
  split sep (join (String sep "") items) = items.
Proof.
  induction 1 as [|x items Hx Hitems IH]; [done|]. intros _.
  destruct items as [|y items]; [by apply split_free|].
  change (join (String sep "") (x :: y :: items))
    with (x +:+ String sep (join (String sep "") (y :: items))).
  rewrite split_append, split_free, IH by done. done.
Qed.

Lemma join_split sep s : join (String sep "") (split sep s) = s.
Proof.
  induction s as [|c s IH]; [done|].
  destruct (decide (c = sep)) as [->|Hc].
  - simpl. rewrite decide_True by done.
    destruct (split sep s) as [|p ps] eqn:E; [by apply split_nonempty in E|].
    by rewrite <- IH.
  - destruct (split_cons_other sep c s Hc) as (p & ps & E & ->).
    rewrite E in IH. rewrite <- IH. by destruct ps.
Qed.

(** The first piece is the whole text exactly when the text has no
    separator. *)
Lemma split_first sep s :
  split sep s !! 0%nat = Some s ↔ free sep s.
Proof.
  induction s as [|c s IH]; [done|].
  destruct (decide (c = sep)) as [->|Hc].
  - simpl. rewrite decide_True by done. simpl. split; [done|tauto].
  - destruct (split_cons_other sep c s Hc) as (p & ps & E & ->).
    rewrite E in IH. simpl in *. rewrite <- IH.
    split; [by intros [= ->]|intros [_ [= ->]]; done].
Qed.

Lemma plain_free s : plain s ↔ free "_" s.
Proof. induction s as [|c s IH]; simpl; [done|]. by rewrite IH. Qed.

(** *** The dictionary of parents *)

Lemma elem_of_parent_ids fam pid :
  pid ∈ parent_ids fam
  ↔ ∃ t, t ∈ fam ∧ (FatherID t = pid ∨ MotherID t = pid).
Proof.
  unfold parent_ids. rewrite elem_of_remove_dups, elem_of_app, !list_elem_of_fmap.
  split.
  - intros [(t & -> & Ht)|(t & -> & Ht)]; eauto.
  - intros (t & Ht & [<-|<-]); eauto.
Qed.

Lemma children_of_nil fam pid :
  children_of fam pid = [] ↔ pid ∉ parent_ids fam.
Proof.
  rewrite elem_of_parent_ids. unfold children_of. split.
  - intros Hnil (t & Ht & Hp).
    assert (p_SampleID t ∈ p_SampleID
              <$> filter (λ t, FatherID t = pid ∨ MotherID t = pid) fam) as Hin.
    { apply list_elem_of_fmap_2. by apply list_elem_of_filter. }
    rewrite Hnil in Hin. by apply elem_of_nil in Hin.
  - intros Hno.
    destruct (filter _ fam) as [|t l] eqn:E; [done|]. exfalso. apply Hno.
    assert (t ∈ filter (λ t, FatherID t = pid ∨ MotherID t = pid) fam) as Hin
      by (rewrite E; left).
    apply list_elem_of_filter in Hin as [? ?]. eauto.
Qed.

Lemma parent_of_lookup fam pid :
  parent_of fam !! pid
  = if decide (pid ∈ parent_ids fam)
    then Some (join "," (children_of fam pid)) else None.
Proof.
  unfold parent_of. case_decide as Hin.
  - apply elem_of_list_to_map.
    + rewrite <- list_fmap_compose. simpl.
      rewrite list_fmap_id. apply NoDup_remove_dups.
    + by apply (list_elem_of_fmap_2'
                  (λ pid, (pid, join "," (children_of fam pid))) _ pid).
  - apply not_elem_of_list_to_map.
    rewrite <- list_fmap_compose. simpl. by rewrite list_fmap_id.
Qed.

(** The pieces of the [child] column of one call. *)
Lemma child_pieces fam c :
  Forall (λ t, free "," (p_SampleID t)) fam →
  split "," (default "" (parent_of fam !! SampleID c))
  = match children_of fam (SampleID c) with
    | [] => [""]
    | kids => kids
    end.
Proof.
  intros Hfree. rewrite parent_of_lookup. case_decide as Hin.
  - simpl. destruct (children_of fam (SampleID c)) as [|k kids] eqn:E.
    { by apply children_of_nil in E. }
    rewrite <- E. apply (split_join ","); [|by rewrite E].
    unfold children_of. apply Forall_fmap, Forall_forall.
    intros t [_ Ht]%list_elem_of_filter.
    by apply (proj1 (Forall_forall _ _) Hfree).
  - apply children_of_nil in Hin. by rewrite Hin.
Qed.

(** X11. Adding the [child] column and exploding it gives, in the order of
    the calls, every call of a father or mother once for each pedigree row
    that names the sample as a parent, with the child of that row and in
    the order of the rows, and every other call once, with an empty
    [child]; this holds when no child identifier contains a comma. *)
Theorem explode_children family_info data_used :
  Forall (λ t, free "," (p_SampleID t)) family_info →
  explode (annotate_chunk family_info data_used)
  = c ← data_used;
    (λ ch, (c, ch))
      <$> match children_of family_info (SampleID c) with
          | [] => [""]
          | kids => kids
          end.
Proof.
  intros Hfree. unfold explode, annotate_chunk.
  rewrite list_fmap_bind. apply list_bind_ext; [|done].
  intros c. simpl. by rewrite child_pieces.
Qed.

(** X11 on the sample family: the father of two children, a mother and a
    child. *)
Lemma explode_children_sample :
  explode (annotate_chunk (filter_trios ex_calls ex_family)
             [mkCall "F1" "chr1" 100 200 ["DEL"];
              mkCall "C1" "chr1" 100 200 ["DEL"]])
  = [(mkCall "F1" "chr1" 100 200 ["DEL"], "C1");
     (mkCall "F1" "chr1" 100 200 ["DEL"], "C2");
     (mkCall "C1" "chr1" 100 200 ["DEL"], "")].
Proof.
  rewrite explode_children; [reflexivity|].
  vm_compute. repeat constructor; discriminate.
Defined.

(** *** The chunks of the worker pool *)

Lemma ceil_div_bounds (len n : nat) :
  (0 < n)%nat →
  let q := ((len + n - 1) `div` n)%nat in
  (len ≤ q * n)%nat ∧ ((0 < len)%nat → (0 < q)%nat ∧ ((q - 1) * n < len)%nat).
Proof.
  intros Hn q.
  pose proof (Nat.div_mod (len + n - 1) n ltac:(lia)) as Hdm.
  pose proof (Nat.mod_upper_bound (len + n - 1) n ltac:(lia)) as Hmod.
  fold q in Hdm. split; [nia|]. intros Hlen. split; nia.
Qed.

Lemma concat_slices {T} (l : list T) (s m : nat) :
  concat ((λ i, take s (drop i l)) <$> ((λ k, k * s)%nat <$> seq 0 m))
  = take (m * s) l.
Proof.
  induction m as [|m IH]; [done|].
  rewrite seq_S, !fmap_app, concat_app, IH. simpl. rewrite app_nil_r.
  rewrite take_take_drop. f_equal. lia.
Qed.

Lemma concat_fmap_fmap {T U} (f : T → U) (ls : list (list T)) :
  concat (fmap (M:=list) f <$> ls) = f <$> concat ls.
Proof.
  induction ls as [|l ls IH]; [done|].
  rewrite fmap_cons. simpl concat. by rewrite IH, fmap_app.
Qed.

(** X12. With at least two CPUs and at least one call, the table is cut
    into at most [cpu_count - 1] chunks, none of them empty and none longer
    than the chunk size; the chunks put end to end are the table; and
    annotating the chunks and concatenating the results is annotating the
    table, in its order. *)
Theorem parallel_annotation family_info data_used cpu_count :
  (2 ≤ cpu_count)%nat →
  data_used ≠ [] →
  let n_cores := (cpu_count - 1)%nat in
  let chunk_size := ((length data_used + n_cores - 1) `div` n_cores)%nat in
  ∃ cs,
    chunks data_used cpu_count = Some cs
    ∧ concat cs = data_used
    ∧ (length cs ≤ n_cores)%nat
    ∧ Forall (λ c, c ≠ [] ∧ (length c ≤ chunk_size)%nat) cs
    ∧ annotate_parallel family_info data_used cpu_count
      = Some (annotate_chunk family_info data_used).
Proof.
  intros Hcpu Hdata n_cores chunk_size.
  assert (0 < length data_used)%nat as Hlen by (destruct data_used; simpl; [done|lia]).
  destruct (ceil_div_bounds (length data_used) n_cores ltac:(unfold n_cores; lia))
    as [Hcover [Hsize _]]; [done|]. fold chunk_size in Hcover, Hsize.
  destruct (ceil_div_bounds (length data_used) chunk_size Hsize)
    as [Hcover' [Hm Hlast]]; [done|].
  set (m := ((length data_used + chunk_size - 1) `div` chunk_size)%nat) in *.
  assert (chunks data_used cpu_count
          = Some ((λ i, take chunk_size (drop i data_used))
                    <$> ((λ k, k * chunk_size)%nat <$> seq 0 m))) as Hcs.
  { unfold chunks, range_step. fold n_cores. fold chunk_size.
    rewrite decide_False by (unfold n_cores; lia).
    rewrite decide_False by lia. done. }
  eexists. split; [exact Hcs|].
  assert (concat ((λ i, take chunk_size (drop i data_used))
                    <$> ((λ k, k * chunk_size)%nat <$> seq 0 m)) = data_used)
    as Hconcat.
  { rewrite concat_slices. apply take_ge. lia. }
  split; [done|]. split; [|split].
  - rewrite !length_fmap, length_seq.
    apply Nat.lt_succ_r. apply Nat.Div0.div_lt_upper_bound. nia.
  - apply Forall_fmap, Forall_fmap, Forall_forall. intros k Hk. simpl.
    apply elem_of_seq in Hk.
    assert (k * chunk_size < length data_used)%nat by nia.
    split.
    + intros Hnil%(f_equal length). simpl in Hnil.
      rewrite length_take, length_drop in Hnil. lia.
    + rewrite length_take. lia.
  - unfold annotate_parallel. rewrite Hcs. simpl. f_equal.
    unfold annotate_chunk at 1.
    change (λ chunk : list call,
              (λ c, (c, default "" (parent_of family_info !! SampleID c)))
                <$> chunk)
      with (fmap (M:=list)
              (λ c, (c, default "" (parent_of family_info !! SampleID c)))).
    by rewrite concat_fmap_fmap, Hconcat.
Qed.

(** X12 on the six sample calls and five CPUs: three chunks of two calls. *)
Lemma parallel_annotation_sample :
  ∃ cs, chunks ex_calls 5 = Some cs
        ∧ concat cs = ex_calls
        ∧ length cs = 3%nat
        ∧ annotate_parallel ex_family ex_calls 5
          = Some (annotate_chunk ex_family ex_calls).
Proof.
  destruct (parallel_annotation ex_family ex_calls 5)
    as (cs & Hcs & Hcat & _ & _ & Hann); [lia|done|].
  exists cs. split; [exact Hcs|]. split; [exact Hcat|]. split; [|exact Hann].
  vm_compute in Hcs. by injection Hcs as <-.
Defined.

(** X13. On a machine with a single CPU the chunk size is a division by
    zero, and for a table without calls the step of the range is zero: in
    both cases the script stops there with an exception, before the two
    BED files are written. *)
Theorem script_needs_cores_and_calls {F : Type} (repr : F → string)
    (bedtools_intersect : list bed_row → list bed_row → F → list bed_row)
    data_used family_info TYPE_COL (OVERLAPS : list F) cpu_count (fs : files) :
  (cpu_count ≤ 1)%nat ∨ data_used = [] →
  chunks data_used cpu_count = None
  ∧ script repr bedtools_intersect data_used family_info TYPE_COL OVERLAPS
      cpu_count fs = None.
Proof.
  intros Hcase.
  assert (chunks data_used cpu_count = None) as Hnone.
  { unfold chunks, range_step. destruct Hcase as [Hcpu| ->].
    - by rewrite decide_True by lia.
    - case_decide; [done|]. simpl.
      rewrite Nat.div_small by lia. done. }
  split; [done|]. unfold script, annotate_parallel. by rewrite Hnone.
Qed.

(** X13 on the sample calls with one CPU. *)
Lemma script_needs_cores_and_calls_sample :
  script fraction_repr reference_intersect ex_calls ex_family None
    [f0_5] 1 ∅ = None.
Proof.
  apply (script_needs_cores_and_calls fraction_repr reference_intersect).
  left. lia.
Defined.

(** *** The two tables *)

Lemma elem_of_filter_trios data_used family_info t :
  t ∈ filter_trios data_used family_info
  ↔ t ∈ family_info
    ∧ p_SampleID t ∈ SampleID <$> data_used
    ∧ FatherID t ∈ SampleID <$> data_used
    ∧ MotherID t ∈ SampleID <$> data_used.
Proof.
  unfold filter_trios, complete, sample_ids.
  rewrite list_elem_of_filter, !elem_of_remove_dups. tauto.
Qed.

Lemma elem_of_children_of fam pid ch :
  ch ∈ children_of fam pid
  ↔ ∃ t, t ∈ fam ∧ (FatherID t = pid ∨ MotherID t = pid) ∧ p_SampleID t = ch.
Proof.
  unfold children_of. rewrite list_elem_of_fmap.
  setoid_rewrite list_elem_of_filter. split.
  - intros (t & -> & ? & ?). eauto.
  - intros (t & ? & ? & <-). eauto.
Qed.

Lemma elem_of_explode fam data c ch :
  Forall (λ t, free "," (p_SampleID t)) fam →
  (c, ch) ∈ explode (annotate_chunk fam data)
  ↔ c ∈ data
    ∧ ch ∈ match children_of fam (SampleID c) with [] => [""] | kids => kids end.
Proof.
  intros Hfree. unfold explode, annotate_chunk.
  rewrite list_elem_of_bind. split.
  - intros ([c' s'] & Hin & (c'' & [= -> ->] & Hc)%list_elem_of_fmap).
    simpl in Hin. rewrite child_pieces in Hin by done.
    by apply list_elem_of_fmap in Hin as (ch' & [= -> ->] & ?).
  - intros [Hc Hch].
    exists (c, default "" (parent_of fam !! SampleID c)). split.
    + simpl. rewrite child_pieces by done.
      by apply (list_elem_of_fmap_2' (λ ch, (c, ch)) _ ch).
    + by apply (list_elem_of_fmap_2'
                  (λ c, (c, default "" (parent_of fam !! SampleID c))) _ c).
Qed.

Lemma filter_bind_fst {T U} (P : T * U → Prop) `{∀ r, Decision (P r)}
    (Q : T → Prop) `{∀ x, Decision (Q x)} (g : T → list U) (l : list T) :
  (∀ c u, P (c, u) ↔ Q c) →
  filter P (c ← l; (λ u, (c, u)) <$> g c)
  = (c ← filter Q l; (λ u, (c, u)) <$> g c).
Proof.
  intros HPQ. induction l as [|c l IH]; [done|].
  rewrite bind_cons, filter_app, IH, (filter_cons Q).
  destruct (decide (Q c)) as [Hc|Hc].
  - rewrite bind_cons. f_equal. apply ConcordanceExtra.filter_all.
    apply Forall_fmap, Forall_forall. intros u _. by apply HPQ.
  - rewrite ConcordanceExtra.filter_none; [done|].
    apply Forall_fmap, Forall_forall. intros u _. simpl. by rewrite HPQ.
Qed.

Lemma mapM_Forall2_ext {T T' V} (h : T → option V) (h' : T' → option V) l k :
  Forall2 (λ x y, h x = h' y) l k → mapM h l = mapM h' k.
Proof. induction 1 as [|???? Hfg ? IH]; simpl; [done|]. by rewrite Hfg, IH. Qed.

Lemma mapM_bind_replicate {T U V} (h : T → option V) (h' : T * U → option V)
    (g : T → list U) (l : list T) :
  (∀ c u, h' (c, u) = h c) →
  mapM h' (c ← l; (λ u, (c, u)) <$> g c)
  = mapM h (c ← l; replicate (length (g c)) c).
Proof.
  intros Hh. apply mapM_Forall2_ext.
  induction l as [|c l IH]; [constructor|].
  rewrite !bind_cons. apply Forall2_app; [|done].
  induction (g c) as [|u us IHu]; [constructor|].
  csimpl. constructor; [apply Hh|done].
Qed.

Lemma free_filter_trios (sep : ascii) data_used family_info :
  Forall (λ t, free sep (p_SampleID t)) family_info →
  Forall (λ t, free sep (p_SampleID t)) (filter_trios data_used family_info).
Proof.
  rewrite !Forall_forall. intros Hfree t [_ Ht]%list_elem_of_filter. auto.
Qed.

(** X14. The lines of [child_cnv.bed] are made from the calls of the
    samples that are the child of a trio whose three members all have
    calls, in the order of the calls. Such a call gives one line, unless
    its sample is also the father or mother of such a trio: then it gives
    one line for each of its own children, all alike. This holds when no
    child identifier contains a comma. *)
Theorem child_table data_used family_info TYPE_COL :
  Forall (λ t, free "," (p_SampleID t)) family_info →
  let trios := filter_trios data_used family_info in
  mapM (child_line TYPE_COL)
    (child_rows trios (explode (annotate_chunk trios data_used)))
  = mapM (λ c, child_line TYPE_COL (c, ""))
      (c ← filter (λ c, Exists (λ t, complete data_used t
                                     ∧ p_SampleID t = SampleID c) family_info)
             data_used;
       replicate (1 `max` length (children_of trios (SampleID c))) c).
Proof.
  intros Hfree trios.
  assert (Forall (λ t, free "," (p_SampleID t)) trios) as Hfree'
    by by apply free_filter_trios.
  set (pieces := λ c : call, match children_of trios (SampleID c) with
                             | [] => [""]
                             | kids => kids
                             end).
  assert (explode (annotate_chunk trios data_used)
          = c ← data_used; (λ ch, (c, ch)) <$> pieces c) as ->.
  { unfold explode, annotate_chunk.
    rewrite list_fmap_bind. apply list_bind_ext; [|done].
    intros c. simpl. by rewrite child_pieces. }
  unfold child_rows.
  rewrite (filter_bind_fst _ (λ c, SampleID c ∈ p_SampleID <$> trios) pieces)
    by done.
  rewrite (mapM_bind_replicate (λ c, child_line TYPE_COL (c, "")) _ pieces)
    by done.
  f_equal.
  rewrite (list_filter_iff
             (λ c, SampleID c ∈ p_SampleID <$> trios)
             (λ c, Exists (λ t, complete data_used t
                                ∧ p_SampleID t = SampleID c) family_info)).
  - apply list_bind_ext; [|done]. intros c. f_equal. unfold pieces.
    by destruct (children_of trios (SampleID c)).
  - intros c. rewrite list_elem_of_fmap, Exists_exists.
    unfold trios, filter_trios.
    setoid_rewrite list_elem_of_filter. split.
    + intros (t & -> & ? & ?). eauto.
    + intros (t & ? & ? & <-). eauto.
Qed.

(** X14 on three generations: the call of [C], child of one trio and
    father of two children, is written twice. *)
Lemma child_table_sample :
  mapM (child_line None)
    (child_rows (filter_trios ex_generation_calls ex_generations)
       (explode (annotate_chunk (filter_trios ex_generation_calls ex_generations)
                   ex_generation_calls)))
  = Some [mkBed "C_chr1" 100 200 ["DEL"]; mkBed "C_chr1" 100 200 ["DEL"];
          mkBed "G1_chr1" 120 210 ["DEL"]; mkBed "G2_chr2" 100 200 ["DEL"]].
Proof.
  assert (Forall (λ t, free "," (p_SampleID t)) ex_generations) as Hfree.
  { vm_compute. repeat constructor; discriminate. }
  pose proof (child_table ex_generation_calls ex_generations None Hfree) as E.
  cbv zeta in E. rewrite E. reflexivity.
Defined.

Lemma elem_of_parent_rows fam data c ch :
  Forall (λ t, free "," (p_SampleID t)) fam →
  (c, ch) ∈ parent_rows fam (explode (annotate_chunk fam data))
  ↔ c ∈ data
    ∧ ∃ t, t ∈ fam ∧ (FatherID t = SampleID c ∨ MotherID t = SampleID c)
           ∧ p_SampleID t = ch.
Proof.
  intros Hfree.
  unfold parent_rows. rewrite list_elem_of_filter, elem_of_explode by done.
  simpl. split.
  - intros (Hpar & Hc & Hch). split; [done|].
    destruct (children_of fam (SampleID c)) as [|k kids] eqn:E.
    { exfalso. apply children_of_nil in E. apply E.
      apply elem_of_parent_ids.
      apply elem_of_app in Hpar as [(t & -> & Ht)%list_elem_of_fmap
                                   |(t & -> & Ht)%list_elem_of_fmap]; eauto. }
    rewrite <- E in Hch. by apply elem_of_children_of in Hch.
  - intros (Hc & t & Ht & Hp & <-).
    assert (p_SampleID t ∈ children_of fam (SampleID c)) as Hkid.
    { apply elem_of_children_of. eauto. }
    split; [|split; [done|]].
    + apply elem_of_app.
      destruct Hp as [<-|<-]; [left|right]; by apply list_elem_of_fmap_2.
    + destruct (children_of fam (SampleID c)); [|done].
      by apply elem_of_nil in Hkid.
Qed.

Lemma elem_of_child_rows fam data c ch :
  Forall (λ t, free "," (p_SampleID t)) fam →
  (c, ch) ∈ child_rows fam (explode (annotate_chunk fam data))
  → c ∈ data ∧ ∃ t, t ∈ fam ∧ p_SampleID t = SampleID c.
Proof.
  intros Hfree. unfold child_rows.
  rewrite list_elem_of_filter, elem_of_explode by done. simpl.
  intros ((t & -> & Ht)%list_elem_of_fmap & Hc & _). eauto.
Qed.

(** X15. The lines of [parents_cnv.bed] are made from the rows that pair a
    call with a child: the call is one of a sample named as father or
    mother in a trio whose three members all have calls, and the child is
    the child of such a trio. A parent of an incomplete trio contributes
    nothing for that trio, and no row has an empty child. This holds when
    no child identifier contains a comma. *)
Theorem parent_table data_used family_info c ch :
  Forall (λ t, free "," (p_SampleID t)) family_info →
  let trios := filter_trios data_used family_info in
  (c, ch) ∈ parent_rows trios (explode (annotate_chunk trios data_used))
  ↔ c ∈ data_used
    ∧ ∃ t, t ∈ family_info ∧ complete data_used t
           ∧ (FatherID t = SampleID c ∨ MotherID t = SampleID c)
           ∧ p_SampleID t = ch.
Proof.
  intros Hfree trios.
  rewrite elem_of_parent_rows by by apply free_filter_trios.
  unfold trios, filter_trios. setoid_rewrite list_elem_of_filter.
  split; intros (Hc & t & Ht); (split; [done|]); exists t; tauto.
Qed.

(** X15 on the sample family: the call of the father [F1] is paired with
    his child [C2], and not with [C3], whose mother has no call. *)
Lemma parent_table_sample :
  (mkCall "F1" "chr1" 100 200 ["DEL"], "C2")
    ∈ parent_rows (filter_trios ex_calls ex_family)
        (explode (annotate_chunk (filter_trios ex_calls ex_family) ex_calls))
  ∧ (mkCall "F2" "chr1" 100 200 ["DEL"], "C3")
    ∉ parent_rows (filter_trios ex_calls ex_family)
        (explode (annotate_chunk (filter_trios ex_calls ex_family) ex_calls)).
Proof.
  assert (Forall (λ t, free "," (p_SampleID t)) ex_family) as Hfree.
  { vm_compute. repeat constructor; discriminate. }
  split.
  - apply (proj2 (parent_table ex_calls ex_family _ _ Hfree)).
    split; [by apply (bool_decide_unpack _)|].
    exists (mkTrio "C2" "F1" "M1").
    split; [by apply (bool_decide_unpack _)|].
    split; [by apply (bool_decide_unpack _)|]. split; [by left|done].
  - intros H.
    apply (proj1 (parent_table ex_calls ex_family _ _ Hfree)) in H
      as (_ & t & Ht & Hcomplete & _ & Hch).
    assert (Forall (λ t, p_SampleID t = "C3" → ¬ complete ex_calls t)
              ex_family) as Hno by by apply (bool_decide_unpack _).
    by apply (proj1 (Forall_forall _ _) Hno t Ht).
Defined.

(** *** The composite label *)

Lemma cut_at_first_separator sep s s' u u' :
  free sep s → free sep s' →
  s +:+ String sep u = s' +:+ String sep u' → s = s' ∧ u = u'.
Proof.
  revert s'. induction s as [|c s IH]; intros [|c' s'];
    rewrite ?append_nil, ?append_cons; simpl.
  - by intros _ _ [= ->].
  - by intros _ [Hc _] [= <- _].
  - by intros [Hc _] _ [= -> _].
  - intros [_ Hs] [_ Hs'] [= -> H].
    by destruct (IH s' Hs Hs' H) as [-> ->].
Qed.

(** A label is the sample, an underscore, and a tail: the chromosome, or
    the chromosome, an underscore and the type. *)
Lemma label_shape TYPE_COL who c l :
  label TYPE_COL who c = Some l →
  ∃ tail, l = who +:+ String "_" tail
    ∧ match TYPE_COL with
      | None => tail = Chr c
      | Some k => ∃ ty, rest c !! k = Some ty ∧ tail = Chr c +:+ String "_" ty
      end.
Proof.
  unfold label. destruct TYPE_COL as [k|].
  - destruct (rest c !! k) as [ty|]; [|done]. intros [= <-].
    exists (Chr c +:+ String "_" ty). eauto.
  - intros [= <-]. by exists (Chr c).
Qed.

Lemma label_inj TYPE_COL who who' c c' l :
  free "_" who → free "_" who' → free "_" (Chr c) → free "_" (Chr c') →
  label TYPE_COL who c = Some l → label TYPE_COL who' c' = Some l →
  who = who' ∧ Chr c = Chr c'
  ∧ ∀ k, TYPE_COL = Some k → rest c !! k = rest c' !! k.
Proof.
  intros Hw Hw' Hc Hc'
    (tail & -> & Htail)%label_shape (tail' & E & Htail')%label_shape.
  apply cut_at_first_separator in E as [-> ->]; [|done..].
  split; [done|]. destruct TYPE_COL as [k|].
  - destruct Htail as (ty & Hty & ->), Htail' as (ty' & Hty' & E).
    apply cut_at_first_separator in E as [-> ->]; [|done..].
    split; [done|]. intros ? [= <-]. by rewrite Hty, Hty'.
  - subst. split; [congruence|done].
Qed.

Lemma label_ext TYPE_COL who c c' :
  Chr c = Chr c' →
  (∀ k, TYPE_COL = Some k → rest c !! k = rest c' !! k) →
  label TYPE_COL who c = label TYPE_COL who c'.
Proof.
  intros HC Hty. unfold label. destruct TYPE_COL as [k|].
  - by rewrite HC, (Hty k eq_refl).
  - by rewrite HC.
Qed.

Lemma first_piece sep s : ∃ p, split sep s !! 0%nat = Some p.
Proof.
  destruct (split sep s) as [|p ps] eqn:E; [by apply split_nonempty in E|].
  by exists p.
Qed.

Lemma first_piece_append sep s t :
  split sep (s +:+ String sep t) !! 0%nat = split sep s !! 0%nat.
Proof.
  rewrite split_append.
  destruct (first_piece sep s) as [p Hp]. rewrite Hp.
  by apply lookup_app_l_Some.
Qed.

(** The pieces of the label of a child line. *)
Lemma child_line_pieces TYPE_COL r b :
  child_line TYPE_COL r = Some b →
  chromStart b = Start r.1 ∧ chromEnd b = End_ r.1 ∧ fields b = rest r.1
  ∧ ∃ tail,
      split "_" (chrom b)
      = (split "_" (SampleID r.1) ++ split "_" tail)%list
      ∧ split "_" tail !! 0%nat = split "_" (Chr r.1) !! 0%nat.
Proof.
  unfold child_line.
  destruct (label TYPE_COL (SampleID r.1) r.1) as [l|] eqn:E; [|done].
  intros [= <-]. simpl. repeat split.
  apply label_shape in E as (tail & -> & Htail).
  exists tail. split; [apply split_append|].
  destruct TYPE_COL as [k|].
  - destruct Htail as (ty & _ & ->). apply first_piece_append.
  - by rewrite Htail.
Qed.

Lemma unlabel_child_line TYPE_COL r b :
  child_line TYPE_COL r = Some b →
  free "_" (SampleID r.1) → free "_" (Chr r.1) →
  unlabel b
  = Some (mkAnnotated (SampleID r.1) (Chr r.1) (Start r.1) (End_ r.1) (rest r.1)).
Proof.
  intros (HS & HE & Hf & tail & Hsplit & Htail)%child_line_pieces Hw Hc.
  unfold unlabel. rewrite Hsplit, (split_free _ _ Hw). simpl.
  rewrite Htail, (proj2 (split_first _ _) Hc). simpl.
  by rewrite HS, HE, Hf.
Qed.

(** X16. A line of [child_cnv.bed] and a line of [parents_cnv.bed] carry
    the same label, the only thing the tool compares besides the
    coordinates, exactly when the parental row was made for that child,
    on the same chromosome and, when a type column is given, with the
    same type; this holds when sample identifiers and chromosome names
    contain no underscore. *)
Theorem label_match TYPE_COL rc rp b p :
  free "_" (SampleID rc.1) → free "_" rp.2 →
  free "_" (Chr rc.1) → free "_" (Chr rp.1) →
  child_line TYPE_COL rc = Some b →
  parent_line TYPE_COL rp = Some p →
  chrom p = chrom b
  ↔ rp.2 = SampleID rc.1 ∧ Chr rp.1 = Chr rc.1
    ∧ ∀ k, TYPE_COL = Some k → rest rp.1 !! k = rest rc.1 !! k.
Proof.
  intros Hw Hw' Hc Hc'. unfold child_line, parent_line.
  destruct (label TYPE_COL (SampleID rc.1) rc.1) as [l|] eqn:E; [|done].
  destruct (label TYPE_COL rp.2 rp.1) as [l'|] eqn:E'; [|done].
  intros [= <-] [= <-]. simpl. split.
  - intros ->. by apply (label_inj TYPE_COL _ _ _ _ l).
  - intros (Hwho & HC & Hty). rewrite Hwho in E'.
    rewrite (label_ext _ _ _ rc.1 HC Hty) in E'. congruence.
Qed.

(** X16 on the sample family: the line of the father's call made for the
    child [C1] matches the line of that child's call. *)
Lemma label_match_sample :
  chrom (mkBed "C1_chr1_DEL" 100 200 [])
  = chrom (mkBed "C1_chr1_DEL" 100 200 ["DEL"]).
Proof.
  apply (label_match (Some 0%nat)
           (mkCall "C1" "chr1" 100 200 ["DEL"], "")
           (mkCall "F1" "chr1" 100 200 ["DEL"], "C1")).
  1-4: vm_compute; repeat constructor; discriminate.
  - reflexivity.
  - reflexivity.
  - split; [done|]. split; [done|]. by intros k [= <-].
Defined.

(** X17. Splitting the label of a child line at the underscores always
    succeeds and leaves the coordinates as they are. The sample read back
    is the sample of the call exactly when that identifier contains no
    underscore, and then the chromosome read back is the chromosome of the
    call exactly when its name contains none. *)
Theorem unlabel_round_trip TYPE_COL r b :
  child_line TYPE_COL r = Some b →
  ∃ a, unlabel b = Some a
    ∧ a_Start a = Start r.1 ∧ a_End a = End_ r.1
    ∧ (a_SampleID a = SampleID r.1 ↔ free "_" (SampleID r.1))
    ∧ (free "_" (SampleID r.1) →
       a_Chr a = Chr r.1 ↔ free "_" (Chr r.1)).
Proof.
  intros (HS & HE & Hf & tail & Hsplit & Htail)%child_line_pieces.
  unfold unlabel. rewrite Hsplit.
  destruct (first_piece "_" (SampleID r.1)) as [s Hs].
  destruct (first_piece "_" tail) as [t Ht].
  destruct (split "_" (SampleID r.1)) as [|s' ps] eqn:E; [done|].
  injection Hs as ->.
  assert (∃ c, ((s :: ps) ++ split "_" tail)%list !! 1%nat = Some c
               ∧ (ps = [] → c = t)) as (c & Hc & Hct).
  { destruct ps as [|p ps]; simpl; [|by exists p].
    exists t. by rewrite Ht. }
  simpl ((_ ++ _)%list !! 0%nat). rewrite Hc. simpl.
  eexists. split; [done|]. simpl.
  split; [done|]. split; [done|]. split.
  - rewrite <- split_first, E. simpl. split; congruence.
  - intros Hw. rewrite (split_free _ _ Hw) in E. injection E as _ <-.
    rewrite (Hct eq_refl), <- split_first, <- Htail, Ht.
    split; congruence.
Qed.

(** X17 on a call whose sample identifier contains an underscore: the
    sample read back is not the sample of the call. *)
Lemma unlabel_round_trip_sample :
  ∃ a, unlabel (mkBed "S_1_chr1" 100 200 ["DEL"]) = Some a
       ∧ a_SampleID a ≠ "S_1".
Proof.
  destruct (unlabel_round_trip None (mkCall "S_1" "chr1" 100 200 ["DEL"], "")
              (mkBed "S_1_chr1" 100 200 ["DEL"]) eq_refl)
    as (a & Ha & _ & _ & Hs & _).
  exists a. split; [exact Ha|].
  intros H. apply Hs in H. simpl in H. by destruct H as (_ & H & _).
Defined.

(** *** The whole script *)

Lemma annotate_parallel_eq fam data cpu_count :
  annotate_parallel fam data cpu_count
  = if decide ((2 ≤ cpu_count)%nat ∧ data ≠ [])
    then Some (annotate_chunk fam data) else None.
Proof.
  unfold annotate_parallel, chunks, range_step.
  destruct (decide ((cpu_count - 1)%nat = 0%nat)) as [Hn|Hn].
  { rewrite decide_False; [done|]. intros [? _]. lia. }
  set (n_cores := (cpu_count - 1)%nat) in *.
  set (chunk_size := ((length data + n_cores - 1) `div` n_cores)%nat).
  destruct (ceil_div_bounds (length data) n_cores ltac:(lia)) as [_ Hsize].
  fold chunk_size in Hsize.
  destruct (decide (chunk_size = 0%nat)) as [Hs|Hs]; simpl.
  - rewrite decide_False; [done|]. intros [_ Hdata].
    destruct data; [done|]. simpl in Hsize. lia.
  - rewrite decide_True; [f_equal|].
    + destruct (ceil_div_bounds (length data) chunk_size ltac:(lia))
        as [Hcover _].
      unfold annotate_chunk at 1.
      change (λ chunk : list call,
                (λ c, (c, default "" (parent_of fam !! SampleID c))) <$> chunk)
        with (fmap (M:=list)
                (λ c, (c, default "" (parent_of fam !! SampleID c)))).
      rewrite concat_fmap_fmap, concat_slices, take_ge; [done|lia].
    + split; [unfold n_cores in Hn; lia|]. intros ->. apply Hs.
      unfold chunk_size. simpl. apply Nat.div_small. lia.
Qed.

Section script_facts.
Context {F : Type} (repr : F → string).
Context (bedtools_intersect : list bed_row → list bed_row → F → list bed_row).
Hypothesis repr_inj : ∀ f g, repr f = repr g → f = g.

Lemma pipeline_no_child parents_cnv OVERLAPS (fs : files) :
  pipeline repr bedtools_intersect [] parents_cnv OVERLAPS fs = None.
Proof.
  unfold pipeline.
  destruct (run_intersects_files repr bedtools_intersect repr_inj OVERLAPS
              (export_bed [] parents_cnv fs) [] parents_cnv)
    as (fs' & -> & Hc & _).
  { unfold export_bed. rewrite lookup_insert_ne by done.
    by rewrite lookup_insert_eq. }
  { unfold export_bed. by rewrite lookup_insert_eq. }
  simpl. unfold read_csv. by rewrite Hc.
Qed.

Lemma pipeline_Some_inv child_cnv parents_cnv OVERLAPS (fs : files) out :
  pipeline repr bedtools_intersect child_cnv parents_cnv OVERLAPS fs = Some out →
  child_cnv ≠ []
  ∧ ∀ f, f ∈ OVERLAPS → bedtools_intersect child_cnv parents_cnv f ≠ [].
Proof.
  intros Hrun. split.
  - intros ->. by rewrite pipeline_no_child in Hrun.
  - intros f Hf Hempty.
    by rewrite (pipeline_empty_result repr bedtools_intersect repr_inj
                  _ _ _ _ f Hf Hempty) in Hrun.
Qed.

(** The script after the chunks: the two tables, the tool, the flags and
    the split of the label. *)
Lemma script_eq data_used family_info TYPE_COL OVERLAPS cpu_count (fs : files) :
  script repr bedtools_intersect data_used family_info TYPE_COL OVERLAPS
    cpu_count fs
  = if decide ((2 ≤ cpu_count)%nat ∧ data_used ≠ [])
    then
      let trios := filter_trios data_used family_info in
      let cnv_ungrouped := explode (annotate_chunk trios data_used) in
      mapM (child_line TYPE_COL) (child_rows trios cnv_ungrouped)
        ≫= λ child_cnv : list bed_row,
      mapM (parent_line TYPE_COL) (parent_rows trios cnv_ungrouped)
        ≫= λ parents_cnv : list bed_row,
      pipeline repr bedtools_intersect child_cnv parents_cnv OVERLAPS fs
        ≫= λ out : child_frame,
      mapM unlabel (records out) ≫= λ rows : list annotated,
      Some (mkOutput rows (flags out))
    else None.
Proof.
  unfold script. rewrite annotate_parallel_eq. by case_decide.
Qed.
End script_facts.

Lemma elem_of_mapM {T U} (h : T → option U) l k y :
  mapM h l = Some k → y ∈ k ↔ ∃ x, x ∈ l ∧ h x = Some y.
Proof.
  intros Hall%mapM_Some. split.
  - intros (i & Hi)%list_elem_of_lookup.
    destruct (Forall2_lookup_r _ _ _ _ _ Hall Hi) as (x & Hx & Hxy).
    exists x. split; [by eapply list_elem_of_lookup_2|done].
  - intros (x & (i & Hi)%list_elem_of_lookup & Hxy).
    destruct (Forall2_lookup_l _ _ _ _ _ Hall Hi) as (y' & Hy & Hxy').
    rewrite Hxy in Hxy'. injection Hxy' as <-.
    by eapply list_elem_of_lookup_2.
Qed.

(** *** The files of a run *)

Lemma run_intersects_child {F : Type} (repr : F → string)
    (bedtools_intersect : list bed_row → list bed_row → F → list bed_row)
    OVERLAPS (fs fs' : files) :
  run_intersects repr bedtools_intersect OVERLAPS fs = Some fs' →
  fs' !! child_bed = fs !! child_bed.
Proof.
  revert fs. induction OVERLAPS as [|g rest IH]; intros fs; simpl.
  - by intros [= <-].
  - unfold run_bedtools.
    destruct (fs !! child_bed) as [a|] eqn:Ha; [|done].
    destruct (fs !! parent_bed) as [b|]; [|done]. simpl.
    intros ->%IH. rewrite lookup_insert_ne; [done|discriminate].
Qed.

(** X19. The script stops without writing its output when no trio of the
    pedigree has calls for all three members, and also when, at some
    requested fraction, the tool reports no child line at all: one
    fraction without any supported record loses the flags of every
    fraction. *)
Theorem script_stops_without_support {F : Type} (repr : F → string)
    (bedtools_intersect : list bed_row → list bed_row → F → list bed_row)
    data_used family_info TYPE_COL (OVERLAPS : list F) cpu_count (fs : files) :
  (∀ f g, repr f = repr g → f = g) →
  let trios := filter_trios data_used family_info in
  let cnv_ungrouped := explode (annotate_chunk trios data_used) in
  (trios = []
   ∨ ∃ child_cnv parents_cnv f,
       mapM (child_line TYPE_COL) (child_rows trios cnv_ungrouped)
       = Some child_cnv
       ∧ mapM (parent_line TYPE_COL) (parent_rows trios cnv_ungrouped)
         = Some parents_cnv
       ∧ f ∈ OVERLAPS
       ∧ bedtools_intersect child_cnv parents_cnv f = []) →
  script repr bedtools_intersect data_used family_info TYPE_COL OVERLAPS
    cpu_count fs = None.
Proof.
  intros Hrepr trios cnv_ungrouped Hcase.
  rewrite script_eq. case_decide; [|done]. cbv zeta.
  fold trios. fold cnv_ungrouped.
  destruct Hcase as [Hnone|(child_cnv & parents_cnv & f & -> & -> & Hf & Hempty)].
  - rewrite Hnone. unfold child_rows, parent_rows.
    rewrite !ConcordanceExtra.filter_none.
    + simpl. by rewrite pipeline_no_child.
    + apply Forall_forall. intros r _. simpl. apply not_elem_of_nil.
    + apply Forall_forall. intros r _. simpl. apply not_elem_of_nil.
  - simpl.
    by rewrite (pipeline_empty_result repr bedtools_intersect Hrepr
                  _ _ _ _ f Hf Hempty).
Qed.

(** X19 on a trio whose father shares half of the child's call and a
    third of his own: supported at the fraction 0.1 and not at 0.5, so the
    run with both fractions stops. *)
Lemma script_stops_without_support_sample :
  script fraction_repr reference_intersect
    [mkCall "C1" "chr1" 100 200 []; mkCall "F1" "chr1" 150 300 [];
     mkCall "M1" "chr2" 100 200 []]
    [mkTrio "C1" "F1" "M1"] None [f0_1; f0_5] 4 ∅ = None.
Proof.
  apply (script_stops_without_support fraction_repr reference_intersect);
    [apply fraction_repr_inj|].
  right. exists [mkBed "C1_chr1" 100 200 []],
    [mkBed "C1_chr1" 150 300 []; mkBed "C1_chr2" 100 200 []], f0_5.
  split; [reflexivity|]. split; [reflexivity|].
  split; [right; left|reflexivity].
Defined.

(** *** The flags of the script *)

Lemma reference_intersect_coordinates A B f r :
  r ∈ reference_intersect A B f
  ↔ r ∈ A
    ∧ ∃ p, p ∈ B ∧ chrom p = chrom r
           ∧ reciprocal_coordinates (fraction_value f)
               (chromStart r) (chromEnd r) (chromStart p) (chromEnd p) = true.
Proof.
  rewrite reference_intersect_spec.
  assert (∀ p, reciprocal (fraction_value f) r p = true
               ↔ chrom p = chrom r
                 ∧ reciprocal_coordinates (fraction_value f)
                     (chromStart r) (chromEnd r) (chromStart p) (chromEnd p)
                   = true) as Hp.
  { intros p. unfold reciprocal, reciprocal_coordinates.
    rewrite !andb_true_iff, bool_decide_eq_true. intuition. }
  by setoid_rewrite Hp.
Qed.

(** A child line is reported with the same identifier exactly when some
    parental line has its label and passes the test on the coordinates. *)
Lemma supported_iff {F : Type}
    (bedtools_intersect : list bed_row → list bed_row → F → list bed_row)
    (test : F → Z → Z → Z → Z → bool) child_cnv parents_cnv f b :
  (∀ A B f r,
     r ∈ bedtools_intersect A B f
     ↔ r ∈ A ∧ ∃ p, p ∈ B ∧ chrom p = chrom r
                     ∧ test f (chromStart r) (chromEnd r)
                         (chromStart p) (chromEnd p) = true) →
  b ∈ child_cnv →
  ID b ∈ ID <$> bedtools_intersect child_cnv parents_cnv f
  ↔ ∃ p, p ∈ parents_cnv ∧ chrom p = chrom b
         ∧ test f (chromStart b) (chromEnd b) (chromStart p) (chromEnd p) = true.
Proof.
  intros Htool Hb. rewrite list_elem_of_fmap. split.
  - intros (b' & (HC & HS & HE)%ID_inj & (_ & p & Hp & Hchrom & Ht)%Htool).
    exists p. by rewrite HC, HS, HE.
  - intros (p & Hp & Hchrom & Ht). exists b. split; [done|].
    apply Htool. eauto.
Qed.

(** X20. The flags of a completed run, when sample identifiers and
    chromosome names contain no underscore and child identifiers no comma.
    Every row of the output has, for every requested fraction, a flag in
    the column named after the fraction, and the flag is true exactly
    when the pedigree has a trio, with calls for all three members, whose
    child is the sample of the row and whose father or mother has a call
    on the chromosome of the row, of the same type when a type column is
    given, that passes the tool's test at that fraction against the
    interval of the row. *)
Theorem inheritance_flags {F : Type} (repr : F → string)
    (bedtools_intersect : list bed_row → list bed_row → F → list bed_row)
    (test : F → Z → Z → Z → Z → bool)
    data_used family_info TYPE_COL (OVERLAPS : list F) cpu_count (fs : files)
    out :
  (∀ f g, repr f = repr g → f = g) →
  (∀ A B f r,
     r ∈ bedtools_intersect A B f
     ↔ r ∈ A ∧ ∃ p, p ∈ B ∧ chrom p = chrom r
                     ∧ test f (chromStart r) (chromEnd r)
                         (chromStart p) (chromEnd p) = true) →
  Forall (λ c, free "_" (SampleID c) ∧ free "_" (Chr c)) data_used →
  Forall (λ t, free "," (p_SampleID t)) family_info →
  script repr bedtools_intersect data_used family_info TYPE_COL OVERLAPS
    cpu_count fs = Some out →
  ∀ f i a, f ∈ OVERLAPS → rows out !! i = Some a →
    ∃ flag : bool,
      (flag_column (column_name repr f) (flag_columns out) ≫= (.!! i))
      = Some flag
      ∧ (flag = true
         ↔ ∃ t p, t ∈ family_info ∧ complete data_used t
                  ∧ p_SampleID t = a_SampleID a
                  ∧ p ∈ data_used
                  ∧ (FatherID t = SampleID p ∨ MotherID t = SampleID p)
                  ∧ Chr p = a_Chr a
                  ∧ (∀ k, TYPE_COL = Some k → rest p !! k = a_rest a !! k)
                  ∧ test f (a_Start a) (a_End a) (Start p) (End_ p) = true).
Proof.
  intros Hrepr Htool Hplain Hcomma Hrun f i a Hf Hi.
  rewrite (script_eq repr bedtools_intersect) in Hrun.
  case_decide as Hok; [|done]. cbv zeta in Hrun.
  set (trios := filter_trios data_used family_info) in *.
  set (cnv_ungrouped := explode (annotate_chunk trios data_used)) in *.
  assert (Forall (λ t, free "," (p_SampleID t)) trios) as Hcomma'
    by by apply free_filter_trios.
  destruct (mapM (child_line TYPE_COL) (child_rows trios cnv_ungrouped))
    as [child_cnv|] eqn:Hchild; [|done].
  destruct (mapM (parent_line TYPE_COL) (parent_rows trios cnv_ungrouped))
    as [parents_cnv|] eqn:Hparents; [|done].
  simpl in Hrun.
  destruct (pipeline repr bedtools_intersect child_cnv parents_cnv OVERLAPS fs)
    as [cf|] eqn:Hpipe; [|done].
  simpl in Hrun.
  destruct (mapM unlabel (records cf)) as [rs|] eqn:Hrows; [|done].
  injection Hrun as <-. simpl in *.
  destruct (pipeline_Some_inv repr bedtools_intersect Hrepr _ _ _ _ _ Hpipe)
    as [Hne Hhit].
  destruct (pipeline_flags repr bedtools_intersect Hrepr
              child_cnv parents_cnv OVERLAPS fs Hne Hhit)
    as (cf' & Hpipe' & Hrec & Hobs).
  rewrite Hpipe in Hpipe'. injection Hpipe' as <-.
  (* the child line and the call behind the row *)
  apply mapM_Some in Hrows. rewrite Hrec in Hrows.
  destruct (Forall2_lookup_r _ _ _ _ _ Hrows Hi) as (b & Hb & Hunlabel).
  pose proof (proj1 (mapM_Some _ _ _) Hchild) as Hlines.
  destruct (Forall2_lookup_r _ _ _ _ _ Hlines Hb) as ([c ch] & Hrc & Hline).
  apply list_elem_of_lookup_2 in Hrc.
  apply elem_of_child_rows in Hrc as [Hc _]; [|done].
  destruct (proj1 (Forall_forall _ _) Hplain c Hc) as [HwS HwC].
  rewrite (unlabel_child_line _ _ _ Hline HwS HwC) in Hunlabel.
  injection Hunlabel as <-. simpl in *.
  assert (∃ l, label TYPE_COL (SampleID c) c = Some l
               ∧ b = mkBed l (Start c) (End_ c) (rest c)) as (l & Hl & ->).
  { revert Hline. unfold child_line. simpl.
    destruct (label TYPE_COL (SampleID c) c) as [l|]; [|done].
    intros [= <-]. eauto. }
  (* the flag *)
  exists (bool_decide
            (ID (mkBed l (Start c) (End_ c) (rest c))
               ∈ ID <$> bedtools_intersect child_cnv parents_cnv f)).
  split; [exact (Hobs f i _ Hf Hb)|].
  rewrite bool_decide_eq_true.
  rewrite (supported_iff bedtools_intersect test _ _ _ _ Htool
             (list_elem_of_lookup_2 _ _ _ Hb)).
  simpl. split.
  - intros (p' & Hp' & Hchrom & Htest).
    apply (elem_of_mapM _ _ _ _ Hparents) in Hp' as ([pc ch'] & Hrp & Hpl).
    apply elem_of_parent_rows in Hrp as (Hpc & t & Ht & Hpar & <-); [|done].
    apply list_elem_of_filter in Ht as [Hcomplete Ht].
    revert Hpl. unfold parent_line. simpl.
    destruct (label TYPE_COL (p_SampleID t) pc) as [l'|] eqn:Hl'; [|done].
    intros [= <-]. simpl in *. subst l'.
    destruct (proj1 (Forall_forall _ _) Hplain pc Hpc) as [_ HwC'].
    assert (free "_" (p_SampleID t)) as HwS'.
    { destruct Hcomplete as (Hkid & _). unfold sample_ids in Hkid.
      apply elem_of_remove_dups, list_elem_of_fmap in Hkid as (k & -> & Hk).
      by destruct (proj1 (Forall_forall _ _) Hplain k Hk). }
    destruct (label_inj TYPE_COL _ _ _ _ l HwS' HwS HwC' HwC Hl' Hl)
      as (Hwho & HChr & Hty).
    exists t, pc. split; [done|]. split; [exact Hcomplete|].
    do 5 (split; [done|]). done.
  - intros (t & pc & Ht & Hcomplete & Hwho & Hpc & Hpar & HChr & Hty & Htest).
    assert ((pc, p_SampleID t) ∈ parent_rows trios cnv_ungrouped) as Hrp.
    { apply elem_of_parent_rows; [done|]. split; [done|].
      exists t. split; [by apply list_elem_of_filter|].
      split; [|done]. destruct Hpar as [->| ->]; [by left|by right]. }
    apply list_elem_of_lookup in Hrp as (j & Hj).
    destruct (Forall2_lookup_l _ _ _ _ _
                (proj1 (mapM_Some _ _ _) Hparents) Hj) as (p' & Hp' & Hpl).
    exists p'. split; [by eapply list_elem_of_lookup_2|].
    revert Hpl. unfold parent_line. simpl.
    destruct (label TYPE_COL (p_SampleID t) pc) as [l'|] eqn:Hl'; [|done].
    intros [= <-]. simpl. split; [|done].
    rewrite Hwho, (label_ext _ _ _ c HChr Hty) in Hl'. congruence.
Qed.

(** X20 on the sample family, with the type column and two fractions:
    the first row, a deletion of [C1] that the father carries unchanged,
    is flagged at the fraction 0.5. *)
Lemma inheritance_flags_sample :
  ∃ out flag,
    script fraction_repr reference_intersect ex_calls ex_family (Some 0%nat)
      [f0_5; f0_1] 4 ∅ = Some out
    ∧ (flag_column (column_name fraction_repr f0_5) (flag_columns out)
         ≫= (.!! 0%nat)) = Some flag
    ∧ flag = true.
Proof.
  destruct (script fraction_repr reference_intersect ex_calls ex_family
              (Some 0%nat) [f0_5; f0_1] 4 ∅) as [out|] eqn:E;
    [|by vm_compute in E].
  assert (∃ a, rows out !! 0%nat = Some a
               ∧ a = mkAnnotated "C1" "chr1" 100 200 ["DEL"]) as (a & Ha & Hrow).
  { vm_compute in E. injection E as <-. eexists. split; reflexivity. }
  destruct (inheritance_flags fraction_repr reference_intersect
              (λ f, reciprocal_coordinates (fraction_value f))
              ex_calls ex_family (Some 0%nat) [f0_5; f0_1] 4 ∅ out
              fraction_repr_inj reference_intersect_coordinates)
    with (f := f0_5) (i := 0%nat) (a := a) as (flag & Hflag & Hiff).
  - vm_compute. repeat constructor; discriminate.
  - vm_compute. repeat constructor; discriminate.
  - exact E.
  - left.
  - exact Ha.
  - exists out, flag. split; [reflexivity|]. split; [exact Hflag|].
    apply Hiff. subst a.
    exists (mkTrio "C1" "F1" "M1"), (mkCall "F1" "chr1" 100 200 ["DEL"]).
    split; [left|]. split; [by apply (bool_decide_unpack _)|].
    split; [done|]. split; [by apply (bool_decide_unpack _)|].
    split; [by left|]. split; [done|]. split; [by intros k [= <-]|].
    reflexivity.
Defined.

(** *** The rows of the output *)

Lemma annotate_records {F : Type} (repr : F → string) OVERLAPS (fs : files)
    child out :
  annotate repr OVERLAPS fs child = Some out → records out = records child.
Proof.
  revert child. induction OVERLAPS as [|g rest IH]; intros child; simpl.
  - by intros [= <-].
  - unfold annotate_one.
    destruct (read_csv fs (intersect_file repr g)) as [res|]; [|done]. simpl.
    by intros ->%IH.
Qed.

Lemma pipeline_records {F : Type} (repr : F → string)
    (bedtools_intersect : list bed_row → list bed_row → F → list bed_row)
    child_cnv parents_cnv OVERLAPS (fs : files) out :
  pipeline repr bedtools_intersect child_cnv parents_cnv OVERLAPS fs = Some out →
  records out = child_cnv.
Proof.
  unfold pipeline.
  destruct (run_intersects repr bedtools_intersect OVERLAPS
              (export_bed child_cnv parents_cnv fs)) as [fs'|] eqn:Hfs; [|done].
  simpl. unfold read_csv at 1.
  rewrite (run_intersects_child _ _ _ _ _ Hfs). unfold export_bed.
  rewrite lookup_insert_ne by done. rewrite lookup_insert_eq.
  simpl. case_guard; [|done]. simpl. by intros ->%annotate_records.
Qed.

Lemma mapM_compose_fmap {A B C} (h1 : A → option B) (h2 : B → option C)
    (g : A → C) (P : A → Prop) l k m :
  Forall P l →
  (∀ x y z, P x → h1 x = Some y → h2 y = Some z → z = g x) →
  mapM h1 l = Some k → mapM h2 k = Some m → m = g <$> l.
Proof.
  intros HP Hg H1%mapM_Some H2%mapM_Some. revert m H2 HP.
  induction H1 as [|x y l k Hxy _ IH]; intros m H2 HP.
  - by inversion H2.
  - inversion H2 as [|? z ? m' Hyz H2']; subst.
    apply Forall_cons in HP as [Hx HP]. csimpl. f_equal; eauto.
Qed.

Lemma fst_bind_pairs {T U} (g : T → list U) (l : list T) :
  fst <$> (c ← l; (λ u, (c, u)) <$> g c)
  = (c ← l; replicate (length (g c)) c).
Proof.
  induction l as [|c l IH]; [done|].
  rewrite !bind_cons, fmap_app, IH. f_equal.
  induction (g c) as [|u us IHu]; [done|]. csimpl. by rewrite IHu.
Qed.

(** The calls behind the child table, with their multiplicities. *)
Lemma child_calls data_used family_info :
  Forall (λ t, free "," (p_SampleID t)) family_info →
  let trios := filter_trios data_used family_info in
  fst <$> child_rows trios (explode (annotate_chunk trios data_used))
  = (c ← filter (λ c, Exists (λ t, complete data_used t
                                   ∧ p_SampleID t = SampleID c) family_info)
            data_used;
     replicate (1 `max` length (children_of trios (SampleID c))) c).
Proof.
  intros Hfree trios.
  assert (Forall (λ t, free "," (p_SampleID t)) trios) as Hfree'
    by by apply free_filter_trios.
  set (pieces := λ c : call, match children_of trios (SampleID c) with
                             | [] => [""]
                             | kids => kids
                             end).
  assert (explode (annotate_chunk trios data_used)
          = c ← data_used; (λ ch, (c, ch)) <$> pieces c) as ->.
  { unfold explode, annotate_chunk.
    rewrite list_fmap_bind. apply list_bind_ext; [|done].
    intros c. simpl. by rewrite child_pieces. }
  unfold child_rows.
  rewrite (filter_bind_fst _ (λ c, SampleID c ∈ p_SampleID <$> trios) pieces)
    by done.
  rewrite fst_bind_pairs.
  rewrite (list_filter_iff
             (λ c, SampleID c ∈ p_SampleID <$> trios)
             (λ c, Exists (λ t, complete data_used t
                                ∧ p_SampleID t = SampleID c) family_info)).
  - apply list_bind_ext; [|done]. intros c. f_equal. unfold pieces.
    by destruct (children_of trios (SampleID c)).
  - intros c. rewrite list_elem_of_fmap, Exists_exists.
    unfold trios, filter_trios.
    setoid_rewrite list_elem_of_filter. split.
    + intros (t & -> & ? & ?). eauto.
    + intros (t & ? & ? & <-). eauto.
Qed.

(** X21. The rows of a completed run, when sample identifiers and
    chromosome names contain no underscore and child identifiers no comma:
    by sample, chromosome, start and end they are the calls of the samples
    that are the child of a trio with calls for all three members, in the
    order of the input; a call of a child that is itself a father or
    mother of such a trio is repeated once for each of its own children.
    Calls of other samples are not in the output. *)
Theorem output_rows {F : Type} (repr : F → string)
    (bedtools_intersect : list bed_row → list bed_row → F → list bed_row)
    data_used family_info TYPE_COL (OVERLAPS : list F) cpu_count (fs : files)
    out :
  Forall (λ c, free "_" (SampleID c) ∧ free "_" (Chr c)) data_used →
  Forall (λ t, free "," (p_SampleID t)) family_info →
  script repr bedtools_intersect data_used family_info TYPE_COL OVERLAPS
    cpu_count fs = Some out →
  (λ a, (a_SampleID a, a_Chr a, a_Start a, a_End a)) <$> rows out
  = (λ c, (SampleID c, Chr c, Start c, End_ c))
      <$> (c ← filter (λ c, Exists (λ t, complete data_used t
                                         ∧ p_SampleID t = SampleID c)
                                family_info) data_used;
           replicate
             (1 `max` length (children_of (filter_trios data_used family_info)
                                (SampleID c))) c).
Proof.
  intros Hplain Hcomma Hrun.
  rewrite (script_eq repr bedtools_intersect) in Hrun.
  case_decide as Hok; [|done]. cbv zeta in Hrun.
  set (trios := filter_trios data_used family_info) in *.
  set (cnv_ungrouped := explode (annotate_chunk trios data_used)) in *.
  destruct (mapM (child_line TYPE_COL) (child_rows trios cnv_ungrouped))
    as [child_cnv|] eqn:Hchild; [|done].
  destruct (mapM (parent_line TYPE_COL) (parent_rows trios cnv_ungrouped))
    as [parents_cnv|]; [|done].
  simpl in Hrun.
  destruct (pipeline repr bedtools_intersect child_cnv parents_cnv OVERLAPS fs)
    as [cf|] eqn:Hpipe; [|done].
  simpl in Hrun. rewrite (pipeline_records _ _ _ _ _ _ _ Hpipe) in Hrun.
  destruct (mapM unlabel child_cnv) as [rs|] eqn:Hrows; [|done].
  injection Hrun as <-. simpl.
  pose proof (child_calls data_used family_info Hcomma) as Hcalls.
  cbv zeta in Hcalls. fold trios in Hcalls. fold cnv_ungrouped in Hcalls.
  rewrite <- Hcalls, <- list_fmap_compose.
  assert (rs = (λ r, mkAnnotated (SampleID r.1) (Chr r.1) (Start r.1)
                       (End_ r.1) (rest r.1))
                 <$> child_rows trios cnv_ungrouped) as ->.
  { apply (mapM_compose_fmap (child_line TYPE_COL) unlabel _
             (λ r, free "_" (SampleID r.1) ∧ free "_" (Chr r.1))
             _ child_cnv); [| |done..].
    - apply Forall_forall. intros [c ch] Hr.
      apply elem_of_child_rows in Hr as [Hc _];
        [|by apply free_filter_trios].
      by apply (proj1 (Forall_forall _ _) Hplain).
    - intros r b a [HwS HwC] Hline Hunlabel.
      rewrite (unlabel_child_line _ _ _ Hline HwS HwC) in Hunlabel.
      by injection Hunlabel as <-. }
  by rewrite <- list_fmap_compose.
Qed.

(** X21 on three generations: the call of [C], child of one trio and
    father of two children, is in the output twice. *)
Lemma output_rows_sample :
  ∃ out,
    script fraction_repr reference_intersect ex_generation_calls
      ex_generations None [f0_5] 3 ∅ = Some out
    ∧ (λ a, (a_SampleID a, a_Chr a, a_Start a, a_End a)) <$> rows out
      = [("C", "chr1", 100, 200); ("C", "chr1", 100, 200);
         ("G1", "chr1", 120, 210); ("G2", "chr2", 100, 200)].
Proof.
  destruct (script fraction_repr reference_intersect ex_generation_calls
              ex_generations None [f0_5] 3 ∅) as [out|] eqn:E;
    [|by vm_compute in E].
  exists out. split; [reflexivity|].
  rewrite (output_rows fraction_repr reference_intersect
             ex_generation_calls ex_generations None [f0_5] 3 ∅ out).
  - reflexivity.
  - vm_compute. repeat constructor; discriminate.
  - vm_compute. repeat constructor; discriminate.
  - exact E.
Defined.

End TrioExtra.
